(** * voluptuous: the schema compiler of [schema_builder.py] and the error
    model of [error.py], as a shallow embedding.

    Python objects are one inductive type [obj]: a schema tree is itself a
    Python object, validated data is a Python object, and the validators
    return Python objects (sometimes marker objects or classes).  Exceptions
    are values of [exc]; a validator is a function [path -> obj -> res]. *)

From Stdlib Require Import List String Ascii ZArith Bool Lia DecimalString Permutation Sorted.
Import ListNotations.
Set Warnings "-register-all".
Open Scope string_scope.

(** ** Python objects *)

(** The classes that occur as schema nodes, as data, or as results.
    [CRemove] is the class [Remove] itself, which [Remove.__call__] returns. *)
Inductive cls : Type :=
| CBool | CInt | CFloat | CStr | CList | CTuple | CSet | CDict | CRemove.

(** The marker classes of [schema_builder.py].  [Exclusive] and [Inclusive]
    carry their group name. *)
Inductive mkind : Type :=
| KMarker
| KRequired
| KOptional
| KExclusive (group_of_exclusion : string)
| KInclusive (group_of_inclusion : string)
| KRemove.

(** [OFloat n] is the float whose value is the integer [n] ([4.0] is
    [OFloat 4]).  A list, tuple or set is the list of its elements in iteration
    order, a dict the list of its items in insertion order.  [OUndefined] is
    the sentinel [UNDEFINED], [OExtra] the function [Extra].
    [OMarker k schema_ msg default] is a marker object: [msg] is [None] for
    Python's [None]; [default] is the [default] argument as passed to the
    constructor ([OUndefined] when omitted, and for the classes that take
    none). *)
Inductive obj : Type :=
| ONone
| OUndefined
| OBool (b : bool)
| OInt (z : Z)
| OFloat (n : Z)
| OStr (s : string)
| OList (l : list obj)
| OTuple (l : list obj)
| OSet (l : list obj)
| ODict (items : list (obj * obj))
| OClass (c : cls)
| OExtra
| OMarker (k : mkind) (schema_ : obj) (msg : option string) (default : obj).

Definition path := list obj.

(** ** error.py *)

(** The subclasses of [Invalid] that [schema_builder.py] raises. *)
Inductive inv_class : Type :=
| Invalid
| RequiredFieldInvalid
| DictInvalid
| ExclusiveInvalid
| InclusiveInvalid
| SequenceTypeInvalid
| TypeInvalid
| ScalarInvalid.

(** An instance of [Invalid] or of one of its subclasses.  [Inv c m p] is
    [c(m, p)]; [Multi errors p] is a [MultipleInvalid] whose [errors] list is
    [errors] and whose [path] attribute is [p]. *)
Inductive invalid : Type :=
| Inv (c : inv_class) (message : string) (p : path)
| Multi (errors : list invalid) (p : path).

Definition inv_path (e : invalid) : path :=
  match e with
  | Inv _ _ p => p
  | Multi _ p => p
  end.

(** [Invalid.__init__]: [self.path = path or []]. *)
Definition new_Invalid (c : inv_class) (message : string) (p : option path) : invalid :=
  Inv c message (match p with Some q => q | None => [] end).

(** [MultipleInvalid.__init__]:
    [self.path = self.errors[0].path if self.errors else []]. *)
Definition new_MultipleInvalid (errors : list invalid) : invalid :=
  Multi errors (match errors with e :: _ => inv_path e | [] => [] end).

Definition is_MultipleInvalid (e : invalid) : bool :=
  match e with
  | Multi _ _ => true
  | Inv _ _ _ => false
  end.

(** What a call can raise: an [Invalid], or a [SchemaError]. *)
Inductive exc : Type :=
| EInvalid (e : invalid)
| ESchemaError (message : string).

Inductive res : Type :=
| Ret (v : obj)
| Raise (e : exc).

Definition validator := path -> obj -> res.

(** ** Built-ins *)

Definition PREVENT_EXTRA : Z := 0.
Definition ALLOW_EXTRA : Z := 1.
Definition REMOVE_EXTRA : Z := 2.

(** [Extra(_)] returns [ALLOW_EXTRA]. *)
Definition Extra (_ : obj) : obj := OInt ALLOW_EXTRA.

Definition cls_eqb (a b : cls) : bool :=
  match a, b with
  | CBool, CBool | CInt, CInt | CFloat, CFloat | CStr, CStr | CList, CList
  | CTuple, CTuple | CSet, CSet | CDict, CDict | CRemove, CRemove => true
  | _, _ => false
  end.

(** [isinstance(o, c)]; [bool] is a subclass of [int]. *)
Definition isinstance (o : obj) (c : cls) : bool :=
  match c, o with
  | CBool, OBool _ => true
  | CInt, OBool _ => true
  | CInt, OInt _ => true
  | CFloat, OFloat _ => true
  | CStr, OStr _ => true
  | CList, OList _ => true
  | CTuple, OTuple _ => true
  | CSet, OSet _ => true
  | CDict, ODict _ => true
  | CRemove, OMarker KRemove _ _ _ => true
  | _, _ => false
  end.

(** The numeric value of a [bool], [int] or [float]. *)
Definition num_of (o : obj) : option Z :=
  match o with
  | OBool b => Some (if b then 1 else 0)%Z
  | OInt z => Some z
  | OFloat n => Some n
  | _ => None
  end.

(** [Marker.__eq__] is [self.schema == other], also when the marker is the
    right operand (the left operand's [__eq__] returns [NotImplemented] and
    Python reflects the comparison).  So [==] never sees a marker: [unmark]
    replaces every marker by its [schema]. *)
Fixpoint unmark (o : obj) : obj :=
  match o with
  | OList l => OList (map unmark l)
  | OTuple l => OTuple (map unmark l)
  | OSet l => OSet (map unmark l)
  | ODict items => ODict (map (fun '(k, v) => (unmark k, unmark v)) items)
  | OMarker _ schema_ _ _ => unmark schema_
  | _ => o
  end.

(** [==] on objects without markers. *)
Fixpoint eq_plain (a b : obj) {struct a} : bool :=
  match a, b with
  | ONone, ONone => true
  | OUndefined, OUndefined => true
  | OStr s, OStr t => String.eqb s t
  | OClass c, OClass d => cls_eqb c d
  | OExtra, OExtra => true
  | OList l, OList m =>
      (fix go (l m : list obj) {struct l} : bool :=
         match l, m with
         | [], [] => true
         | x :: l', y :: m' => eq_plain x y && go l' m'
         | _, _ => false
         end) l m
  | OTuple l, OTuple m =>
      (fix go (l m : list obj) {struct l} : bool :=
         match l, m with
         | [], [] => true
         | x :: l', y :: m' => eq_plain x y && go l' m'
         | _, _ => false
         end) l m
  | OSet l, OSet m =>
      Nat.eqb (List.length l) (List.length m)
      && forallb (fun x => existsb (fun y => eq_plain x y) m) l
  | ODict l, ODict m =>
      Nat.eqb (List.length l) (List.length m)
      && forallb (fun '(k, v) =>
                    existsb (fun '(k', v') => eq_plain k k' && eq_plain v v') m) l
  | _, _ =>
      match num_of a, num_of b with
      | Some x, Some y => Z.eqb x y
      | _, _ => false
      end
  end.

(** Python's [a == b]. *)
Definition py_eq (a b : obj) : bool := eq_plain (unmark a) (unmark b).

Definition str_of_Z (z : Z) : string := NilZero.string_of_int (Z.to_int z).

Fixpoint join (sep : string) (l : list string) : string :=
  match l with
  | [] => ""
  | [s] => s
  | s :: l' => s ++ sep ++ join sep l'
  end.

(** [c.__name__]. *)
Definition cls_name (c : cls) : string :=
  match c with
  | CBool => "bool" | CInt => "int" | CFloat => "float" | CStr => "str"
  | CList => "list" | CTuple => "tuple" | CSet => "set" | CDict => "dict"
  | CRemove => "Remove"
  end.

Definition cls_repr (c : cls) : string :=
  match c with
  | CRemove => "<class 'voluptuous.schema_builder.Remove'>"
  | _ => "<class '" ++ cls_name c ++ "'>"
  end.

(** [repr(o)].  A string is rendered between single quotes, which is
    Python's rendering of a string of printable characters without quote or
    backslash; a function's address is left out.  [Marker.__repr__] is
    [repr(self.schema)], [Remove.__repr__] is ['Remove(%r)']. *)
Fixpoint py_repr (o : obj) : string :=
  match o with
  | ONone => "None"
  | OUndefined => "..."
  | OBool b => if b then "True" else "False"
  | OInt z => str_of_Z z
  | OFloat n => str_of_Z n ++ ".0"
  | OStr s => "'" ++ s ++ "'"
  | OList l => "[" ++ join ", " (map py_repr l) ++ "]"
  | OTuple l =>
      match l with
      | [x] => "(" ++ py_repr x ++ ",)"
      | _ => "(" ++ join ", " (map py_repr l) ++ ")"
      end
  | OSet l =>
      match l with
      | [] => "set()"
      | _ => "{" ++ join ", " (map py_repr l) ++ "}"
      end
  | ODict items =>
      "{" ++ join ", " (map (fun '(k, v) => py_repr k ++ ": " ++ py_repr v) items) ++ "}"
  | OClass c => cls_repr c
  | OExtra => "<function Extra>"
  | OMarker KRemove schema_ _ _ => "Remove(" ++ py_repr schema_ ++ ")"
  | OMarker _ schema_ _ _ => py_repr schema_
  end.

(** [str(o)]: [Marker.__str__] is [str(self.schema)]; a string is itself;
    the other objects have no [__str__] of their own. *)
Fixpoint py_str (o : obj) : string :=
  match o with
  | OStr s => s
  | OMarker _ schema_ _ _ => py_str schema_
  | _ => py_repr o
  end.

(** ** dicts and sets

    A key is looked up with [==] ([py_eq]), as CPython does among keys of
    equal hash; equal objects of this universe hash alike, but for [Remove]
    markers, which hash by identity. *)

Definition dict := list (obj * obj).

Fixpoint dict_get (d : dict) (key : obj) : option obj :=
  match d with
  | [] => None
  | (k, v) :: d' => if py_eq k key then Some v else dict_get d' key
  end.

(** [key in d]. *)
Definition dict_mem (d : dict) (key : obj) : bool :=
  match dict_get d key with
  | Some _ => true
  | None => false
  end.

(** [d[key] = value]: an equal key keeps its place and its key object. *)
Fixpoint dict_set (d : dict) (key value : obj) : dict :=
  match d with
  | [] => [(key, value)]
  | (k, v) :: d' =>
      if py_eq k key then (k, value) :: d' else (k, v) :: dict_set d' key value
  end.

(** [key in s]. *)
Definition set_mem (s : list obj) (key : obj) : bool :=
  existsb (fun k => py_eq k key) s.

(** [s.add(key)]. *)
Definition set_add (s : list obj) (key : obj) : list obj :=
  if set_mem s key then s else (s ++ [key])%list.

(** [set(l)]. *)
Definition mk_set (l : list obj) : list obj := fold_left set_add l [].

(** [len(set(names))] for a list of strings. *)
Definition count_distinct (names : list string) : nat :=
  List.length (nodup string_dec names).

(** ** Ordering of the schema's items *)

Definition is_Marker (o : obj) : bool :=
  match o with
  | OMarker _ _ _ _ => true
  | _ => false
  end.

Definition is_Required (o : obj) : bool :=
  match o with
  | OMarker KRequired _ _ _ => true
  | _ => false
  end.

(** [_compile_itemsort()]'s [sort_item]. *)
Definition _sort_item {A : Type} (item : obj * A) : nat * string :=
  let '(key, _) := item in
  if is_Marker key then ((if is_Required key then 0 else 1)%nat, py_str key)
  else (2%nat, py_str key).

(** [<=] on the sort keys, tuples of an [int] and a [str]. *)
Definition sort_key_le (a b : nat * string) : bool :=
  (fst a <? fst b)%nat || ((fst a =? fst b)%nat && String.leb (snd a) (snd b)).

(** [sorted(l, key=key)], a stable sort: an item is placed before the first
    sorted item that is not below it. *)
Fixpoint sorted_insert {A K : Type} (le : K -> K -> bool) (key : A -> K)
  (x : A) (l : list A) : list A :=
  match l with
  | [] => [x]
  | y :: l' =>
      if le (key x) (key y) then x :: y :: l'
      else y :: sorted_insert le key x l'
  end.

Fixpoint sorted {A K : Type} (le : K -> K -> bool) (key : A -> K) (l : list A)
  : list A :=
  match l with
  | [] => []
  | x :: l' => sorted_insert le key x (sorted le key l')
  end.

(** [_iterate_mapping_candidates(schema)]. *)
Definition _iterate_mapping_candidates {A : Type} (schema : list (obj * A))
  : list (obj * A) :=
  sorted sort_key_le _sort_item schema.

(** ** Calling a class on one of its instances

    [skey(key)] in [validate_dict], reached only when
    [isinstance(key, skey)]: [int(True)] is [1]; [Remove(key)] builds a new
    [Remove] marker around [key]; the other classes give back an equal
    object of the same class. *)
Definition call_cls (c : cls) (key : obj) : obj :=
  match c, key with
  | CInt, OBool b => OInt (if b then 1 else 0)
  | CRemove, _ => OMarker KRemove key None OUndefined
  | _, _ => key
  end.

(** ** The scalar compiler *)

(** [_path_string(path)]. *)
Definition _path_string (p : path) : string :=
  match p with
  | [] => ""
  | _ => " @ data[" ++ join "][" (map py_repr p) ++ "]"
  end.

Definition raise_Invalid (c : inv_class) (message : string) (p : option path) : res :=
  Raise (EInvalid (new_Invalid c message p)).

(** [validate_instance] of [_compile_scalar], for a schema that is a class. *)
Definition validate_instance (schema : cls) : validator :=
  fun path data =>
    if isinstance data schema then Ret data
    else
      let msg := "expected " ++ cls_name schema ++ " for " ++ _path_string path in
      raise_Invalid TypeInvalid msg None.

(** [e.path = path + e.path]. *)
Definition prepend_path (p : path) (e : invalid) : invalid :=
  match e with
  | Inv c m q => Inv c m (p ++ q)%list
  | Multi errors q => Multi errors (p ++ q)%list
  end.

(** [validate_callable] of [_compile_scalar]; [schema] is the callable's
    behaviour.  No callable of this universe raises [ValueError]. *)
Definition validate_callable (schema : obj -> res) : validator :=
  fun path data =>
    match schema data with
    | Raise (EInvalid e) => Raise (EInvalid (prepend_path path e))
    | r => r
    end.

(** [validate_value] of [_compile_scalar], for a literal. *)
Definition validate_value (schema : obj) : validator :=
  fun path data =>
    if negb (py_eq data schema) then raise_Invalid ScalarInvalid "not a valid value" None
    else Ret data.

(** ** [Schema.__call__] and [Marker.__call__] *)

(** [Schema.__call__], given [self._compiled]. *)
Definition Schema_call_compiled (_compiled : validator) (data : obj) : res :=
  match _compiled [] data with
  | Raise (EInvalid e) =>
      if is_MultipleInvalid e then Raise (EInvalid e)
      else Raise (EInvalid (new_MultipleInvalid [e]))
  | r => r
  end.

(** [not self.msg]. *)
Definition msg_falsy (msg : option string) : bool :=
  match msg with
  | None => true
  | Some s => String.eqb s ""
  end.

(** [Marker.__call__], given [self._schema._compiled]. *)
Definition Marker_call (msg : option string) (_compiled : validator) (v : obj) : res :=
  match Schema_call_compiled _compiled v with
  | Raise (EInvalid e) =>
      if msg_falsy msg || (1 <? List.length (inv_path e))%nat then Raise (EInvalid e)
      else raise_Invalid Invalid (match msg with Some s => s | None => "" end) None
  | r => r
  end.

(** [Remove.__call__]: the marker's check, then [return self.__class__]. *)
Definition Remove_call (msg : option string) (_compiled : validator) (v : obj) : res :=
  match Marker_call msg _compiled v with
  | Ret _ => Ret (OClass CRemove)
  | r => r
  end.

(** ** The mapping compiler *)

(** A sub-schema paired with the validator [self._compile(sub)] (applied when
    the validator runs: the source compiles sub-schemas at validation time). *)
Definition value_schema_t := list (obj * validator).

(** The locals [out], [errors] and [seen_keys] of [validate_dict]. *)
Record dstate : Type := mk_dstate {
  out : dict;
  errors : list invalid;
  seen_keys : list obj
}.

(** [key.msg] of a marker. *)
Definition marker_msg (key : obj) : option string :=
  match key with
  | OMarker _ _ msg _ => msg
  | _ => None
  end.

(** [key.msg or 'required key not provided']. *)
Definition required_msg (key : obj) : string :=
  match marker_msg key with
  | Some s => if String.eqb s "" then "required key not provided" else s
  | None => "required key not provided"
  end.

(** One iteration of [for key in required_keys].  [svalue] is
    [self._compile(value_schema[key])].  An exception that is not an
    [Invalid] leaves the loop. *)
Definition required_step (path : path) (data : dict) (st : dstate)
  (key : obj) (svalue : validator) : exc + dstate :=
  match dict_get data key with
  | None =>
      inr (mk_dstate (out st)
             (errors st ++ [new_Invalid RequiredFieldInvalid (required_msg key)
                              (Some (path ++ [key]))])
             (seen_keys st))%list
  | Some value =>
      match svalue (path ++ [key])%list value with
      | Ret v =>
          inr (mk_dstate (dict_set (out st) key v) (errors st)
                 (set_add (seen_keys st) key))
      | Raise (EInvalid e) =>
          inr (mk_dstate (out st) (errors st ++ [e])%list
                 (set_add (seen_keys st) key))
      | Raise e => inl e
      end
  end.

Fixpoint required_loop (path : path) (data : dict)
  (required_keys : value_schema_t) (st : dstate) : exc + dstate :=
  match required_keys with
  | [] => inr st
  | (key, svalue) :: rest =>
      match required_step path data st key svalue with
      | inl e => inl e
      | inr st' => required_loop path data rest st'
      end
  end.

(** The search [for skey, svalue in value_schema.items()]: the schema found
    and the key, replaced by [skey(key)] when a class matched. *)
Fixpoint find_key_schema (value_schema : value_schema_t) (key : obj)
  : option (validator * obj) :=
  match value_schema with
  | [] => None
  | (skey, svalue) :: rest =>
      if py_eq skey key then Some (svalue, key)
      else
        match skey with
        | OClass c =>
            if isinstance key c then Some (svalue, call_cls c key)
            else find_key_schema rest key
        | _ => find_key_schema rest key
        end
  end.

(** One iteration of [for key, value in data.items()]. *)
Definition rest_step (extra : Z) (value_schema : value_schema_t) (path : path)
  (st : dstate) (key value : obj) : exc + dstate :=
  if set_mem (seen_keys st) key then inr st
  else
    match find_key_schema value_schema key with
    | None =>
        if (extra =? PREVENT_EXTRA)%Z then
          inr (mk_dstate (out st)
                 (errors st ++ [new_Invalid Invalid "extra keys not allowed"
                                  (Some (path ++ [key]))])
                 (seen_keys st))%list
        else if (extra =? ALLOW_EXTRA)%Z then
          inr (mk_dstate (dict_set (out st) key value) (errors st) (seen_keys st))
        else inr st
    | Some (found_key_schema, key') =>
        match found_key_schema (path ++ [key'])%list value with
        | Ret v => inr (mk_dstate (dict_set (out st) key' v) (errors st) (seen_keys st))
        | Raise (EInvalid e) =>
            inr (mk_dstate (out st) (errors st ++ [e])%list (seen_keys st))
        | Raise e => inl e
        end
    end.

Fixpoint rest_loop (extra : Z) (value_schema : value_schema_t) (path : path)
  (items : dict) (st : dstate) : exc + dstate :=
  match items with
  | [] => inr st
  | (key, value) :: rest =>
      match rest_step extra value_schema path st key value with
      | inl e => inl e
      | inr st' => rest_loop extra value_schema path rest st'
      end
  end.

(** [validate_dict] of [Schema._compile_dict_with_schema]; [extra] is
    [self.extra].  [required_keys] holds each required key with its entry of
    [value_schema]. *)
Definition validate_dict (extra : Z) (required_keys value_schema : value_schema_t)
  : validator :=
  fun path data =>
    match data with
    | ODict items =>
        match required_loop path items required_keys (mk_dstate [] [] []) with
        | inl e => Raise e
        | inr st1 =>
            match rest_loop extra value_schema path items st1 with
            | inl e => Raise e
            | inr st2 =>
                match errors st2 with
                | [] => Ret (ODict (out st2))
                | errs => Raise (EInvalid (new_MultipleInvalid errs))
                end
            end
        end
    | _ => raise_Invalid DictInvalid "expected a dictionary" None
    end.

(** [Schema._compile_mapping]: [inl] is the [SchemaError] it raises.  The
    keys of a dict are pairwise distinct objects, so [key_schema] and
    [value_schema] keep them all; the sets [key_schema] and [required_keys]
    are iterated in the order of the sorted candidates. *)
Definition _compile_mapping (extra : Z) (schema : value_schema_t)
  : string + validator :=
  let value_schema := _iterate_mapping_candidates schema in
  let key_schema := filter is_Marker (map fst value_schema) in
  let required_keys := filter (fun item => is_Required (fst item)) value_schema in
  let key_names := map py_str key_schema in
  if negb (count_distinct key_names =? List.length key_names)%nat then
    inl ("duplicate keys found: " ++ py_repr (OList (map OStr key_names)))
  else inr (validate_dict extra required_keys value_schema).

(** ** The sequence compiler *)

(** The elements of a list, tuple or set. *)
Definition elements (data : obj) : list obj :=
  match data with
  | OList l | OTuple l | OSet l => l
  | _ => []
  end.

(** [seq_type(result)]. *)
Definition make_seq (seq_type : cls) (result : list obj) : obj :=
  match seq_type with
  | CTuple => OTuple result
  | CSet => OSet (mk_set result)
  | _ => OList result
  end.

(** [for validator in schema]: the first validator that does not raise an
    [Invalid] decides; [None] when every one raised an [Invalid]. *)
Fixpoint try_validators (schema : list validator) (p : path) (value : obj)
  : option res :=
  match schema with
  | [] => None
  | validator :: rest =>
      match validator p value with
      | Raise (EInvalid _) => try_validators rest p value
      | r => Some r
      end
  end.

(** [for i, value in enumerate(data)], from index [i] on, with [result] so
    far. *)
Fixpoint sequence_loop (schema : list validator) (path : path) (i : Z)
  (data : list obj) (result : list obj) : exc + list obj :=
  match data with
  | [] => inr result
  | value :: rest =>
      match try_validators schema (OInt i :: path) value with
      | Some (Ret v) => sequence_loop schema path (i + 1) rest (result ++ [v])%list
      | Some (Raise e) => inl e
      | None =>
          inl (EInvalid (new_Invalid Invalid "not a valid value for sequence item" None))
      end
  end.

(** [validate_sequence] of [Schema._compile_sequence]; [schema] holds
    [self._compile(validator)] for each element of the schema. *)
Definition validate_sequence (schema : list validator) (seq_type : cls) : validator :=
  fun path data =>
    if negb (isinstance data seq_type) then
      raise_Invalid SequenceTypeInvalid ("expected a " ++ cls_name seq_type) None
    else
      match schema, elements data with
      | [], _ :: _ => raise_Invalid Invalid "not a valid value" None
      | _, _ =>
          match sequence_loop schema path 0 (elements data) [] with
          | inl e => Raise e
          | inr result => Ret (make_seq seq_type result)
          end
      end.

(** ** [Schema._compile] *)

(** [self._compile(schema)(path, data)]: a [SchemaError] of the compilation
    is raised when the validator is asked for. *)
Definition run (compiled : string + validator) : validator :=
  fun path data =>
    match compiled with
    | inl message => Raise (ESchemaError message)
    | inr validate => validate path data
    end.

(** [Schema._compile] for a schema whose [extra] attribute is [extra];
    [inl] is the [SchemaError] raised by the compilation.  No object has a
    [__voluptuous_compile__] attribute, and [Object] is out of this universe.
    A marker is a callable, compiled by [_compile_scalar]; its own [_schema]
    is [Schema(schema_)], with the default [extra]. *)
Fixpoint _compile (extra : Z) (schema : obj) {struct schema} : string + validator :=
  match schema with
  | ODict items =>
      _compile_mapping extra
        (map (fun '(key, value) => (key, run (_compile extra value))) items)
  | OList l => inr (validate_sequence (map (fun s => run (_compile extra s)) l) CList)
  | OTuple l => inr (validate_sequence (map (fun s => run (_compile extra s)) l) CTuple)
  | OSet l => inr (validate_sequence (map (fun s => run (_compile extra s)) l) CSet)
  | OClass c => inr (validate_instance c)
  | OExtra => inr (validate_callable (fun v => Ret (Extra v)))
  | OMarker KRemove schema_ msg _ =>
      inr (validate_callable (Remove_call msg (run (_compile PREVENT_EXTRA schema_))))
  | OMarker _ schema_ msg _ =>
      inr (validate_callable (Marker_call msg (run (_compile PREVENT_EXTRA schema_))))
  | _ => inr (validate_value schema)
  end.

(** ** [Schema] *)

Record Schema : Type := mk_Schema {
  schema : obj;
  required : bool;
  extra : Z;
  _compiled : validator
}.

(** [Schema.__init__]: [inl] is the [SchemaError] raised by the constructor. *)
Definition Schema_init (schema : obj) (required : bool) (extra : Z) : string + Schema :=
  match _compile extra schema with
  | inl message => inl message
  | inr compiled => inr (mk_Schema schema required extra compiled)
  end.

(** [Schema.__call__]. *)
Definition Schema_call (self : Schema) (data : obj) : res :=
  Schema_call_compiled (_compiled self) data.

(** [Schema(schema, required, extra)(data)]: construction, then the call. *)
Definition construct_and_call (schema : obj) (required : bool) (extra : Z) (data : obj) : string + res :=
  match Schema_init schema required extra with
  | inl message => inl message
  | inr s => inr (Schema_call s data)
  end.

(** ** Schemas and inputs of the docstrings *)

Module Examples.

Definition Optional (key : string) (default : obj) : obj :=
  OMarker KOptional (OStr key) None default.

Definition Required (key : string) (default : obj) : obj :=
  OMarker KRequired (OStr key) None default.

Definition Exclusive (key group : string) : obj :=
  OMarker (KExclusive group) (OStr key) None OUndefined.

Definition Inclusive (key group : string) : obj :=
  OMarker (KInclusive group) (OStr key) None OUndefined.

Definition Remove (schema_ : obj) : obj :=
  OMarker KRemove schema_ None OUndefined.

(** [{Optional('key', default='value'): str}] *)
Definition optional_default : obj :=
  ODict [(Optional "key" (OStr "value"), OClass CStr)].

(** [{Required('key', default='value'): str}] *)
Definition required_default : obj :=
  ODict [(Required "key" (OStr "value"), OClass CStr)].

(** [{Exclusive('alpha', 'angles'): int, Exclusive('beta', 'angles'): int}] *)
Definition angles : obj :=
  ODict [(Exclusive "alpha" "angles", OClass CInt);
         (Exclusive "beta" "angles", OClass CInt)].

(** [{Inclusive('filename', 'file'): str, Inclusive('mimetype', 'file'): str}] *)
Definition file : obj :=
  ODict [(Inclusive "filename" "file", OClass CStr);
         (Inclusive "mimetype" "file", OClass CStr)].

(** [{'a': [{'b': int}]}] *)
Definition nested : obj :=
  ODict [(OStr "a", OList [ODict [(OStr "b", OClass CInt)]])].

(** [{'a': str}] *)
Definition a_str : obj := ODict [(OStr "a", OClass CStr)].

(** [{'a': 'x', 'b': 1}] *)
Definition a_x_b_1 : obj := ODict [(OStr "a", OStr "x"); (OStr "b", OInt 1)].

(** [[int, Remove(float), Extra]] *)
Definition int_remove_float_extra : obj :=
  OList [OClass CInt; Remove (OClass CFloat); OExtra].

(** [[1, 2, 3, 4.0, 5, 6.0, '7']] *)
Definition one_to_seven : obj :=
  OList [OInt 1; OInt 2; OInt 3; OFloat 4; OInt 5; OFloat 6; OStr "7"].

(** [{'strfield': str, 'intfield': int}] *)
Definition two_fields : obj :=
  ODict [(OStr "strfield", OClass CStr); (OStr "intfield", OClass CInt)].

(** [{1: int, '1': int}]: two plain keys whose [str] is ['1']. *)
Definition plain_same_str : obj :=
  ODict [(OInt 1, OClass CInt); (OStr "1", OClass CInt)].

(** [{Required(1): int, Required('1'): int}]: two markers whose [str] is
    ['1']. *)
Definition marker_same_str : obj :=
  ODict [(OMarker KRequired (OInt 1) None OUndefined, OClass CInt);
         (OMarker KRequired (OStr "1") None OUndefined, OClass CInt)].

(** [[{'a': int}, {'b': int}]] *)
Definition a_or_b : obj :=
  OList [ODict [(OStr "a", OClass CInt)]; ODict [(OStr "b", OClass CInt)]].

End Examples.

(** ** Classes of schemas *)

(** A key of a mapping schema that leaves the input key as it is: not a
    class (a class key replaces the key by [skey(key)]). *)
Definition key_keeps (key : obj) : bool :=
  match key with
  | OClass _ => false
  | _ => true
  end.

(** No coercing validator in the schema: no [Extra] (which returns
    [ALLOW_EXTRA] for any value), no [Remove] marker (whose call returns the
    class [Remove]), no class used as a mapping key. *)
Fixpoint no_coercion (s : obj) : bool :=
  match s with
  | OExtra => false
  | OMarker KRemove _ _ _ => false
  | OMarker _ schema_ _ _ => no_coercion schema_
  | OList l | OTuple l | OSet l => forallb no_coercion l
  | ODict items =>
      forallb (fun '(key, value) =>
                 key_keeps key && no_coercion key && no_coercion value) items
  | _ => true
  end.

(** No object of the list is equal to a later one. *)
Fixpoint keys_distinct (keys : list obj) : bool :=
  match keys with
  | [] => true
  | k :: rest => forallb (fun k' => negb (py_eq k k')) rest && keys_distinct rest
  end.

(** The failure that [rest_step] records for an unseen input key, if any. *)
Definition rest_failure (extra : Z) (value_schema : value_schema_t) (path : path)
  (key value : obj) : option invalid :=
  match find_key_schema value_schema key with
  | None =>
      if (extra =? PREVENT_EXTRA)%Z then
        Some (new_Invalid Invalid "extra keys not allowed" (Some (path ++ [key])%list))
      else None
  | Some (found_key_schema, key') =>
      match found_key_schema (path ++ [key'])%list value with
      | Raise (EInvalid e) => Some e
      | _ => None
      end
  end.

(** The failure that [required_step] records for a required key, if any. *)
Definition required_failure (path : path) (data : dict) (key : obj)
  (svalue : validator) : option invalid :=
  match dict_get data key with
  | None =>
      Some (new_Invalid RequiredFieldInvalid (required_msg key) (Some (path ++ [key])%list))
  | Some value =>
      match svalue (path ++ [key])%list value with
      | Raise (EInvalid e) => Some e
      | _ => None
      end
  end.

(** An exception that is an aggregate holding the failure [e], or that is
    no [Invalid] at all (a [SchemaError] of a sub-schema compiled on the way). *)
Definition aggregate_with (e : invalid) (x : exc) : Prop :=
  match x with
  | EInvalid (Multi errs _) => In e errs
  | EInvalid (Inv _ _ _) => False
  | ESchemaError _ => True
  end.

(** Every item of the dict is the item [(key, value)], or its key is not
    equal to [key]. *)
Definition item_or_apart (key value : obj) (d : dict) : Prop :=
  forall k v, In (k, v) d -> (k = key /\ v = value) \/ py_eq k key = false.

(** The item is [(key, value)], or its key and [key] are not equal, either
    way round. *)
Definition item_or_other (key value : obj) (item : obj * obj) : Prop :=
  item = (key, value)
  \/ (py_eq (fst item) key = false /\ py_eq key (fst item) = false).

(** ** Induction on objects *)

Section obj_induction.

Variable P : obj -> Prop.
Hypothesis HNone : P ONone.
Hypothesis HUndefined : P OUndefined.
Hypothesis HBool : forall b, P (OBool b).
Hypothesis HInt : forall z, P (OInt z).
Hypothesis HFloat : forall n, P (OFloat n).
Hypothesis HStr : forall s, P (OStr s).
Hypothesis HList : forall l, Forall P l -> P (OList l).
Hypothesis HTuple : forall l, Forall P l -> P (OTuple l).
Hypothesis HSet : forall l, Forall P l -> P (OSet l).
Hypothesis HDict :
  forall items, Forall (fun item => P (fst item) /\ P (snd item)) items ->
                P (ODict items).
Hypothesis HClass : forall c, P (OClass c).
Hypothesis HExtra : P OExtra.
Hypothesis HMarker :
  forall k schema_ msg default, P schema_ -> P default ->
                                P (OMarker k schema_ msg default).

Fixpoint obj_induction (o : obj) : P o :=
  let all := fix all (l : list obj) : Forall P l :=
    match l with
    | [] => Forall_nil P
    | x :: l' => Forall_cons x (obj_induction x) (all l')
    end in
  match o with
  | ONone => HNone
  | OUndefined => HUndefined
  | OBool b => HBool b
  | OInt z => HInt z
  | OFloat n => HFloat n
  | OStr s => HStr s
  | OList l => HList l (all l)
  | OTuple l => HTuple l (all l)
  | OSet l => HSet l (all l)
  | ODict items =>
      HDict items
        ((fix all2 (l : list (obj * obj))
            : Forall (fun item => P (fst item) /\ P (snd item)) l :=
            match l with
            | [] => Forall_nil _
            | (k, v) :: l' =>
                Forall_cons (k, v) (conj (obj_induction k) (obj_induction v)) (all2 l')
            end) items)
  | OClass c => HClass c
  | OExtra => HExtra
  | OMarker k schema_ msg default =>
      HMarker k schema_ msg default (obj_induction schema_) (obj_induction default)
  end.

End obj_induction.

(** ** [Msg.__call__] *)

(** [Msg.__call__], given [self.schema._compiled]; [cls] is [self.cls]
    ([None] when absent), one of the subclasses of [Invalid]:
    [raise (self.cls or er.Invalid)(self.msg)]. *)
Definition Msg_call (msg : string) (cls : option inv_class) (_compiled : validator)
  (v : obj) : res :=
  match Schema_call_compiled _compiled v with
  | Raise (EInvalid e) =>
      if (1 <? List.length (inv_path e))%nat then Raise (EInvalid e)
      else raise_Invalid (match cls with Some c => c | None => Invalid end) msg None
  | r => r
  end.

(** ** [Schema.__eq__], [Schema.__ne__] and [Schema.extend] *)

(** [Schema.__eq__]; [other] is a [Schema] ([inr]) or another object. *)
Definition Schema_eq (self : Schema) (other : obj + Schema) : bool :=
  match other with
  | inr o => py_eq (schema o) (schema self)
  | inl _ => false
  end.

(** [Schema.__ne__]. *)
Definition Schema_ne (self : Schema) (other : obj + Schema) : bool :=
  negb (Schema_eq self other).

(** [for key, value in items: new_schema[key] = value]. *)
Definition dict_update (new_schema : dict) (items : dict) : dict :=
  fold_left (fun d item => dict_set d (fst item) (snd item)) items new_schema.

(** [Schema.extend]; [schema] is a [Schema] ([inr]) or another object,
    [required] and [extra] are [None] when not given; [inl] is the
    [SchemaError] raised.  [new_schema[key] = value] is [dict_set], which
    finds a stored key by [==]: that is Python's dict for keys that hash by
    value; a [Remove] marker hashes by identity, and which of two such
    markers are one object is not in this model, so what is proved about
    [extend] is about mappings without [Remove] keys, or about copies in
    which no two keys are [==]. *)
Definition Schema_extend (self : Schema) (schema_arg : obj + Schema)
  (required_arg : option bool) (extra_arg : option Z) : string + Schema :=
  match schema self with
  | ODict self_items =>
      match (match schema_arg with
             | inr s => inr s
             | inl (ODict items) => Schema_init (ODict items) false PREVENT_EXTRA
             | inl _ => inl "extension schema is not a dictionary"
             end) with
      | inl message => inl message
      | inr other =>
          match schema other with
          | ODict other_items =>
              let new_schema := dict_update (dict_update [] self_items) other_items in
              Schema_init (ODict new_schema)
                (match required_arg with Some r => r | None => required self end)
                (match extra_arg with Some e => e | None => extra self end)
          | _ => inl "extension schema is not a dictionary"
          end
      end
  | _ => inl "original schema is not a dictionary"
  end.

(** ** Objects without sets and dicts *)

(** No set and no dict in the object, also below markers: the objects on
    which [==] compares position by position. *)
Fixpoint set_free (o : obj) : bool :=
  match o with
  | OSet _ | ODict _ => false
  | OList l | OTuple l => forallb set_free l
  | OMarker _ schema_ _ _ => set_free schema_
  | _ => true
  end.

(** ** humanize.py *)

(** The exceptions that [humanize_error] lets out. *)
Inductive pyerr : Type :=
| AttributeError
| IndexError
| TypeError.

(** [hash(o)] succeeds: lists, sets and dicts have no hash; a tuple hashes
    its elements; [Marker.__hash__] is [hash(schema_)], [Remove]'s is
    [object.__hash__]. *)
Fixpoint hashable (o : obj) : bool :=
  match o with
  | OList _ | OSet _ | ODict _ => false
  | OTuple l => forallb hashable l
  | OMarker KRemove _ _ _ => true
  | OMarker _ schema_ _ _ => hashable schema_
  | _ => true
  end.

(** [value[step]] for a list or a tuple of elements [l]: [step] is an
    [int] or a [bool], counted from the end when negative. *)
Definition seq_getitem (l : list obj) (step : obj) : pyerr + obj :=
  match step with
  | OBool _ | OInt _ =>
      let i := match num_of step with Some z => z | None => 0%Z end in
      let j := if (i <? 0)%Z then (i + Z.of_nat (List.length l))%Z else i in
      if (j <? 0)%Z then inl IndexError
      else
        match nth_error l (Z.to_nat j) with
        | Some x => inr x
        | None => inl IndexError
        end
  | _ => inl TypeError
  end.

(** [value.get(step, 'N/A')] for a [value] that is no list and no tuple: a
    dict looks [step] up; the class [dict] has the method as a descriptor,
    which takes [step] as the dict and ['N/A'] as the key; the other objects
    have no attribute [get]. *)
Definition get_or_NA (value step : obj) : pyerr + obj :=
  match value with
  | ODict items =>
      if hashable step then
        inr (match dict_get items step with Some x => x | None => OStr "N/A" end)
      else inl TypeError
  | OClass CDict =>
      match step with
      | ODict items =>
          inr (match dict_get items (OStr "N/A") with Some x => x | None => ONone end)
      | _ => inl TypeError
      end
  | _ => inl AttributeError
  end.

(** [for step in path], from [value] on. *)
Fixpoint walk (value : obj) (p : path) : pyerr + obj :=
  match p with
  | [] => inr value
  | step :: rest =>
      match (match value with
             | OList l | OTuple l => seq_getitem l step
             | _ => get_or_NA value step
             end) with
      | inl e => inl e
      | inr value' => walk value' rest
      end
  end.

(** [str_value[:n] + '...'] when [len(str_value) > n]. *)
Definition truncate (str_value : string) (n : nat) : string :=
  if (n <? String.length str_value)%nat then String.substring 0 n str_value ++ "..."
  else str_value.

(** [sorted(l)] for a list of strings. *)
Definition sorted_strings (l : list string) : list string :=
  sorted String.leb (fun s => s) l.

(** [humanize_error] on a failure that is no [MultipleInvalid]: the walk
    along the path and the truncation, then the message, for which
    [validation_error.error_message] is read: [Invalid.__init__] sets
    [_error_message], [error_type] and [path], and no attribute
    [error_message], so reading it raises [AttributeError]. *)
Definition humanize_leaf (data : obj) (p : path) (max_sub_error_length : nat)
  : pyerr + string :=
  match walk data p with
  | inl e => inl e
  | inr value =>
      let str_value := truncate (py_str value) max_sub_error_length in
      let path_str := match p with
                      | [] => ""
                      | _ => " @ data[" ++ join "][" (map py_repr p) ++ "]"
                      end in
      let error_type := "" in
      inl AttributeError
  end.

(** [humanize_error]: for a [MultipleInvalid], the lines of its [errors],
    sorted and joined by a newline; the first exception raised for one of
    them leaves the call. *)
Fixpoint humanize_error (data : obj) (validation_error : invalid)
  (max_sub_error_length : nat) {struct validation_error} : pyerr + string :=
  match validation_error with
  | Multi errors _ =>
      match (fix lines (l : list invalid) : pyerr + list string :=
               match l with
               | [] => inr []
               | sub_error :: l' =>
                   match humanize_error data sub_error max_sub_error_length with
                   | inl e => inl e
                   | inr line =>
                       match lines l' with
                       | inl e => inl e
                       | inr rest => inr (line :: rest)
                       end
                   end
               end) errors with
      | inl e => inl e
      | inr ls => inr (join (String (ascii_of_nat 10) "") (sorted_strings ls))
      end
  | Inv _ _ p => humanize_leaf data p max_sub_error_length
  end.

(** The failures of an aggregate that are no aggregates themselves. *)
Fixpoint leaves (e : invalid) : list invalid :=
  match e with
  | Inv _ _ _ => [e]
  | Multi errors _ => flat_map leaves errors
  end.

(** ** Induction on failures *)

Section invalid_induction.

Variable P : invalid -> Prop.
Hypothesis HInv : forall c message p, P (Inv c message p).
Hypothesis HMulti : forall errors p, Forall P errors -> P (Multi errors p).

Fixpoint invalid_induction (e : invalid) : P e :=
  match e with
  | Inv c message p => HInv c message p
  | Multi errors p =>
      HMulti errors p
        ((fix all (l : list invalid) : Forall P l :=
            match l with
            | [] => Forall_nil P
            | x :: l' => Forall_cons x (invalid_induction x) (all l')
            end) errors)
  end.

End invalid_induction.

(** ** Keys with the same role in a mapping schema *)

(** The same key, or two markers that are no [Required] markers and wrap
    the same schema (whatever their classes, messages, groups and
    defaults). *)
Definition same_key_role (k k' : obj) : Prop :=
  k = k'
  \/ exists kd kd' s m m' d d',
       k = OMarker kd s m d /\ k' = OMarker kd' s m' d'
       /\ kd <> KRequired /\ kd' <> KRequired.

(** Two mapping schemas, item by item: keys of the same role, and the same
    value. *)
Definition same_roles (items items' : list (obj * obj)) : Prop :=
  Forall2 (fun item item' =>
             same_key_role (fst item) (fst item') /\ snd item = snd item')
    items items'.

(** A validator whose failures hold a failure that is no aggregate. *)
Definition fails_with_leaf (f : validator) : Prop :=
  forall p x e, f p x = Raise (EInvalid e) -> leaves e <> [].

(** An aggregate with at least one failure, whose path is the path of the
    first. *)
Definition headed (e : invalid) : Prop :=
  exists e0 l, e = Multi (e0 :: l) (inv_path e0).

(** A validator whose aggregates, raised at the empty path, are headed. *)
Definition raises_headed (f : validator) : Prop :=
  forall x e, f [] x = Raise (EInvalid e) -> is_MultipleInvalid e = true -> headed e.

(** ** Keys that hash by value *)

(** An object that Python can use as a key and that hashes by its value: no
    list, set or dict in it, and no [Remove] marker, whose hash is
    [object.__hash__].  On such keys a dict finds a key exactly when it is
    [==] to a stored one, as [dict_get] and [dict_set] do. *)
Fixpoint key_like (o : obj) : bool :=
  match o with
  | OList _ | OSet _ | ODict _ => false
  | OTuple l => forallb key_like l
  | OMarker KRemove _ _ _ => false
  | OMarker _ schema_ _ _ => key_like schema_
  | _ => true
  end.

(** ** Schemas that do not read [self.extra] *)

(** No mapping in the schema outside the markers: the sub-schema of a marker
    is compiled by the marker's own [Schema], whose [extra] is the default. *)
Fixpoint policy_free (s : obj) : bool :=
  match s with
  | ODict _ => false
  | OList l | OTuple l | OSet l => forallb policy_free l
  | _ => true
  end.

(** ** Objects as Python builds them, and objects alike up to their keys *)

(** The keys of every dict, and the elements of every set, hash by value
    and are pairwise different under [==]. *)
Fixpoint proper (o : obj) : bool :=
  match o with
  | OList l | OTuple l => forallb proper l
  | OSet l => forallb key_like l && keys_distinct l
  | ODict items =>
      forallb (fun '(key, value) => key_like key && proper value) items
      && keys_distinct (map fst items)
  | OMarker _ schema_ _ _ => proper schema_
  | _ => true
  end.

(** Two objects that differ only in their dicts, below lists and tuples: the
    dicts have as many items, and each item of one has an item of the other
    with an [==] key and an alike value (whatever the order of the items,
    and whether a key is a marker or the key it wraps). *)
Fixpoint alike (x y : obj) {struct x} : Prop :=
  match x, y with
  | OList l, OList m =>
      (fix all2 (l m : list obj) {struct l} : Prop :=
         match l, m with
         | [], [] => True
         | a :: l', b :: m' => alike a b /\ all2 l' m'
         | _, _ => False
         end) l m
  | OTuple l, OTuple m =>
      (fix all2 (l m : list obj) {struct l} : Prop :=
         match l, m with
         | [], [] => True
         | a :: l', b :: m' => alike a b /\ all2 l' m'
         | _, _ => False
         end) l m
  | ODict l, ODict m =>
      List.length l = List.length m
      /\ (fix each (l : dict) : Prop :=
            match l with
            | [] => True
            | (k, v) :: l' =>
                (exists k' v', In (k', v') m /\ py_eq k k' = true /\ alike v v')
                /\ each l'
            end) l
      /\ (forall k' v',
            In (k', v') m ->
            (fix some (l : dict) : Prop :=
               match l with
               | [] => False
               | (k, v) :: l' => (py_eq k k' = true /\ alike v v') \/ some l'
               end) l)
  | _, _ => x = y
  end.

(** Two results of the same kind: two values that are alike, two
    [Invalid], or two [SchemaError]. *)
Definition same_outcome (r r' : res) : Prop :=
  match r, r' with
  | Ret y, Ret y' => alike y y'
  | Raise (EInvalid _), Raise (EInvalid _) => True
  | Raise (ESchemaError _), Raise (ESchemaError _) => True
  | _, _ => False
  end.

(** A validator whose output is alike its input, and proper when the input
    is. *)
Definition keeps_alike (f : validator) : Prop :=
  forall p x y, proper x = true -> f p x = Ret y -> alike x y /\ proper y = true.

(** A validator that does not tell alike inputs apart, at any paths. *)
Definition respects_alike (f : validator) : Prop :=
  forall p p' x x',
    proper x = true -> proper x' = true -> alike x x' ->
    same_outcome (f p x) (f p' x').

(** ** The loops of [validate_dict], item by item *)

(** What one iteration does: [out[key] = value], [errors.append(e)],
    nothing, or an exception that leaves the loop. *)
Inductive item_result : Type :=
| ItemOut (key value : obj)
| ItemErr (e : invalid)
| ItemSkip
| ItemExc (e : exc).

Definition classify (key : obj) (r : res) : item_result :=
  match r with
  | Ret v => ItemOut key v
  | Raise (EInvalid e) => ItemErr e
  | Raise e => ItemExc e
  end.

(** The iteration of [for key in required_keys] for [key]. *)
Definition required_item (p : path) (data : dict) (item : obj * validator)
  : item_result :=
  match dict_get data (fst item) with
  | None =>
      ItemErr (new_Invalid RequiredFieldInvalid (required_msg (fst item))
                 (Some (p ++ [fst item])%list))
  | Some value => classify (fst item) (snd item (p ++ [fst item])%list value)
  end.

(** The iteration of [for key, value in data.items()] for an item, with
    the [seen_keys] of the first loop. *)
Definition rest_item (extra : Z) (value_schema : value_schema_t) (p : path)
  (seen : list obj) (item : obj * obj) : item_result :=
  if set_mem seen (fst item) then ItemSkip
  else
    match find_key_schema value_schema (fst item) with
    | None =>
        if (extra =? PREVENT_EXTRA)%Z then
          ItemErr (new_Invalid Invalid "extra keys not allowed"
                     (Some (p ++ [fst item])%list))
        else if (extra =? ALLOW_EXTRA)%Z then ItemOut (fst item) (snd item)
        else ItemSkip
    | Some (found_key_schema, key') =>
        classify key' (found_key_schema (p ++ [key'])%list (snd item))
    end.

(** The items put into [out], the failures, and the first exception of a
    list of iterations. *)
Fixpoint outs (rs : list item_result) : dict :=
  match rs with
  | [] => []
  | ItemOut k v :: rs' => (k, v) :: outs rs'
  | _ :: rs' => outs rs'
  end.

Fixpoint errs (rs : list item_result) : list invalid :=
  match rs with
  | [] => []
  | ItemErr e :: rs' => e :: errs rs'
  | _ :: rs' => errs rs'
  end.

Fixpoint first_exc (rs : list item_result) : option exc :=
  match rs with
  | [] => None
  | ItemExc e :: _ => Some e
  | _ :: rs' => first_exc rs'
  end.

(** The iterations of the two loops of [validate_dict] on [data]: the
    required keys, then the items of [data], with the [seen_keys] that the
    first loop leaves. *)
Definition dict_results (extra : Z) (required_keys value_schema : value_schema_t)
  (p : path) (data : dict) : list item_result :=
  (map (required_item p data) required_keys
   ++ map (rest_item extra value_schema p
             (map fst (filter (fun item => dict_mem data (fst item)) required_keys)))
        data)%list.

(** What [validate_dict] makes of its iterations. *)
Definition dict_outcome (rs : list item_result) : res :=
  match first_exc rs with
  | Some e => Raise e
  | None =>
      match errs rs with
      | [] => Ret (ODict (outs rs))
      | l => Raise (EInvalid (new_MultipleInvalid l))
      end
  end.

(** Two iterations, or two results, of the same kind. *)
Definition same_item (r r' : item_result) : Prop :=
  match r, r' with
  | ItemOut _ _, ItemOut _ _ => True
  | ItemErr _, ItemErr _ => True
  | ItemSkip, ItemSkip => True
  | ItemExc (ESchemaError _), ItemExc (ESchemaError _) => True
  | _, _ => False
  end.

Definition same_class (r r' : res) : Prop :=
  match r, r' with
  | Ret _, Ret _ => True
  | Raise (EInvalid _), Raise (EInvalid _) => True
  | Raise (ESchemaError _), Raise (ESchemaError _) => True
  | _, _ => False
  end.

(** * Properties *)

(** ** Defaults (C1) *)

(** C1: the docstring of [Optional] gives
    [Schema({Optional('key', default='value'): str})({})] as
    [{'key': 'value'}]; [validate_dict] never reads a marker's [default], and
    the call returns [{}]. *)
Theorem optional_default_not_inserted :
  construct_and_call Examples.optional_default false PREVENT_EXTRA (ODict [])
  = inr (Ret (ODict [])).
Proof. vm_compute. reflexivity. Qed.

(** The docstring of [Required] gives
    [Schema({Required('key', default='value'): str})({})] as
    [{'key': 'value'}]; the call raises "required key not provided". *)
Lemma required_default_not_inserted :
  construct_and_call Examples.required_default false PREVENT_EXTRA (ODict [])
  = inr (Raise (EInvalid (new_MultipleInvalid
        [Inv RequiredFieldInvalid "required key not provided"
           [Examples.Required "key" (OStr "value")]]))).
Proof. vm_compute. reflexivity. Qed.

(** Whatever the defaults of its keys, a mapping validator without required
    keys returns [{}] on [{}]. *)
Lemma validate_dict_empty_input :
  forall extra value_schema p,
    validate_dict extra [] value_schema p (ODict []) = Ret (ODict []).
Proof. intros. reflexivity. Qed.

(** ** Groups of exclusion and of inclusion (C2) *)

(** C2: the docstring of [Exclusive] has [schema({'alpha': 30, 'beta': 45})]
    raise "two or more values in the same group of exclusion"; no group is
    evaluated by [validate_dict], and the call returns the input. *)
Theorem exclusion_group_not_evaluated :
  construct_and_call Examples.angles false PREVENT_EXTRA
    (ODict [(OStr "alpha", OInt 30); (OStr "beta", OInt 45)])
  = inr (Ret (ODict [(OStr "alpha", OInt 30); (OStr "beta", OInt 45)])).
Proof. vm_compute. reflexivity. Qed.

(** The two inputs of the claim that pass do pass. *)
Lemma exclusion_group_passing_inputs :
  construct_and_call Examples.angles false PREVENT_EXTRA (ODict [(OStr "alpha", OInt 30)])
  = inr (Ret (ODict [(OStr "alpha", OInt 30)]))
  /\ construct_and_call Examples.angles false PREVENT_EXTRA (ODict [])
     = inr (Ret (ODict [])).
Proof. split; vm_compute; reflexivity. Qed.

(** The docstring of [Inclusive] has [schema({'filename': 'dog.jpg'})] raise
    "some but not all values in the same group of inclusion"; the call
    returns the input. *)
Lemma inclusion_group_not_evaluated :
  construct_and_call Examples.file false PREVENT_EXTRA
    (ODict [(OStr "filename", OStr "dog.jpg")])
  = inr (Ret (ODict [(OStr "filename", OStr "dog.jpg")])).
Proof. vm_compute. reflexivity. Qed.

(** ** Paths of failures (C3) *)

(** C3: [Schema({'a': [{'b': int}]})({'a': [{'b': 'x'}]})] raises an
    aggregate whose path, and whose only failure's path, is [[]], not
    [['a', 0, 'b']]: [validate_instance] raises without a path and
    [validate_sequence] replaces the failure of its candidates by one without
    a path. *)
Theorem nested_failure_path_is_empty :
  construct_and_call Examples.nested false PREVENT_EXTRA
    (ODict [(OStr "a", OList [ODict [(OStr "b", OStr "x")]])])
  = inr (Raise (EInvalid
      (Multi [Inv Invalid "not a valid value for sequence item" []] []))).
Proof. vm_compute. reflexivity. Qed.

(** The docstring of [_compile_dict] locates the failures of
    [{'strfield': 123, 'intfield': 'one'}] at [data['adict']['intfield']] and
    [data['adict']['strfield']]; one level suffices to lose the path. *)
Lemma dict_value_failure_path_is_empty :
  construct_and_call Examples.two_fields false PREVENT_EXTRA
    (ODict [(OStr "strfield", OInt 123); (OStr "intfield", OStr "one")])
  = inr (Raise (EInvalid
      (Multi [Inv TypeInvalid "expected str for  @ data['strfield']" [];
              Inv TypeInvalid "expected int for  @ data['intfield']" []] []))).
Proof. vm_compute. reflexivity. Qed.

(** ** [Remove] in a sequence (C7) *)

(** C7: the docstring of [Remove] gives
    [Schema([int, Remove(float), Extra])([1, 2, 3, 4.0, 5, 6.0, '7'])] as
    [[1, 2, 3, 5, '7']]; [validate_sequence] appends what [Remove.__call__]
    returns, the class [Remove], and what [Extra] returns, [1]. *)
Theorem remove_not_excluded_from_sequence :
  construct_and_call Examples.int_remove_float_extra false PREVENT_EXTRA
    Examples.one_to_seven
  = inr (Ret (OList [OInt 1; OInt 2; OInt 3; OClass CRemove; OInt 5;
                     OClass CRemove; OInt 1])).
Proof. vm_compute. reflexivity. Qed.

(** ** The empty sequence schema (C10) *)

(** C10: the schema built from an empty list, tuple or set accepts the empty
    container of its kind, returning it, and raises "not a valid value" on
    every non-empty container of its kind. *)
Theorem empty_sequence_schema :
  forall required extra,
    construct_and_call (OList []) required extra (OList []) = inr (Ret (OList []))
    /\ construct_and_call (OTuple []) required extra (OTuple []) = inr (Ret (OTuple []))
    /\ construct_and_call (OSet []) required extra (OSet []) = inr (Ret (OSet []))
    /\ (forall x l,
          construct_and_call (OList []) required extra (OList (x :: l))
          = inr (Raise (EInvalid (new_MultipleInvalid [Inv Invalid "not a valid value" []])))
          /\ construct_and_call (OTuple []) required extra (OTuple (x :: l))
             = inr (Raise (EInvalid (new_MultipleInvalid [Inv Invalid "not a valid value" []])))
          /\ construct_and_call (OSet []) required extra (OSet (x :: l))
             = inr (Raise (EInvalid (new_MultipleInvalid [Inv Invalid "not a valid value" []])))).
Proof.
  intros required extra. repeat split; reflexivity.
Qed.

(** ** [Schema.__call__] (C4) *)



(** ** The loops of [validate_dict] *)

Lemma set_add_In : forall s key k, In k (set_add s key) -> In k s \/ k = key.
Proof.
  intros s key k H. unfold set_add in H.
  destruct (set_mem s key); [left; exact H |].
  apply in_app_or in H. destruct H as [H | [H | []]]; auto.
Qed.

Lemma set_mem_false_iff :
  forall s key, set_mem s key = false <-> (forall k, In k s -> py_eq k key = false).
Proof.
  intros s key. unfold set_mem. induction s as [| x s IH]; simpl.
  - split; [intros _ k [] | reflexivity].
  - rewrite orb_false_iff, IH. split.
    + intros [Hx Hs] k [<- | Hk]; auto.
    + intros H. split; [apply H; left; reflexivity | intros k Hk; apply H; right; exact Hk].
Qed.

(** A step gives up only on an exception that is no [Invalid]. *)
Lemma required_step_inl :
  forall p data st key sv x,
    required_step p data st key sv = inl x -> exists m, x = ESchemaError m.
Proof.
  intros p data st key sv x. unfold required_step.
  destruct (dict_get data key) as [value |]; [| discriminate].
  destruct (sv (p ++ [key])%list value) as [v | [e | m]]; try discriminate.
  intros [= <-]. eauto.
Qed.

Lemma rest_step_inl :
  forall extra vs p st key value x,
    rest_step extra vs p st key value = inl x -> exists m, x = ESchemaError m.
Proof.
  intros extra vs p st key value x. unfold rest_step.
  destruct (set_mem (seen_keys st) key); [discriminate |].
  destruct (find_key_schema vs key) as [[f key'] |].
  - destruct (f (p ++ [key'])%list value) as [v | [e | m]]; try discriminate.
    intros [= <-]. eauto.
  - destruct (extra =? PREVENT_EXTRA)%Z; [discriminate |].
    destruct (extra =? ALLOW_EXTRA)%Z; discriminate.
Qed.

(** A step only appends to [errors], and only adds the required key to
    [seen_keys]. *)
Lemma required_step_inr :
  forall p data st key sv st',
    required_step p data st key sv = inr st' ->
    (errors st' = errors st
     \/ exists e, required_failure p data key sv = Some e
                  /\ errors st' = (errors st ++ [e])%list)
    /\ (forall k, In k (seen_keys st') -> In k (seen_keys st) \/ k = key).
Proof.
  intros p data st key sv st'. unfold required_step, required_failure.
  destruct (dict_get data key) as [value |].
  - destruct (sv (p ++ [key])%list value) as [v | [e | m]]; intros [= <-]; simpl;
      (split; [eauto | apply set_add_In]).
  - intros [= <-]; simpl. split; [eauto | auto].
Qed.

Lemma rest_step_inr :
  forall extra vs p st key value st',
    rest_step extra vs p st key value = inr st' ->
    seen_keys st' = seen_keys st
    /\ exists l, errors st' = (errors st ++ l)%list.
Proof.
  intros extra vs p st key value st'. unfold rest_step.
  destruct (set_mem (seen_keys st) key).
  { intros [= <-]. split; [reflexivity | exists []; symmetry; apply app_nil_r]. }
  destruct (find_key_schema vs key) as [[f key'] |].
  - destruct (f (p ++ [key'])%list value) as [v | [e | m]]; intros [= <-]; simpl;
      (split; [reflexivity |]).
    + exists []. symmetry; apply app_nil_r.
    + exists [e]. reflexivity.
  - destruct (extra =? PREVENT_EXTRA)%Z.
    { intros [= <-]; simpl. split; [reflexivity | eauto]. }
    destruct (extra =? ALLOW_EXTRA)%Z; intros [= <-]; simpl;
      (split; [reflexivity | exists []; symmetry; apply app_nil_r]).
Qed.

(** The failure of an unseen key is appended. *)
Lemma rest_step_failure :
  forall extra vs p st key value e,
    set_mem (seen_keys st) key = false ->
    rest_failure extra vs p key value = Some e ->
    rest_step extra vs p st key value
    = inr (mk_dstate (out st) (errors st ++ [e])%list (seen_keys st)).
Proof.
  intros extra vs p st key value e Hseen. unfold rest_failure, rest_step.
  rewrite Hseen.
  destruct (find_key_schema vs key) as [[f key'] |].
  - destruct (f (p ++ [key'])%list value) as [v | [e' | m]]; try discriminate.
    intros [= <-]. reflexivity.
  - destruct (extra =? PREVENT_EXTRA)%Z; [| discriminate].
    intros [= <-]. reflexivity.
Qed.

Lemma required_loop_inl :
  forall p data rk st x,
    required_loop p data rk st = inl x -> exists m, x = ESchemaError m.
Proof.
  intros p data rk. induction rk as [| [key sv] rk IH]; simpl; intros st x H.
  - discriminate.
  - destruct (required_step p data st key sv) as [y | st'] eqn:E.
    + injection H as <-. eapply required_step_inl; eauto.
    + eapply IH; eauto.
Qed.

Lemma rest_loop_inl :
  forall extra vs p items st x,
    rest_loop extra vs p items st = inl x -> exists m, x = ESchemaError m.
Proof.
  intros extra vs p items. induction items as [| [key value] items IH]; simpl; intros st x H.
  - discriminate.
  - destruct (rest_step extra vs p st key value) as [y | st'] eqn:E.
    + injection H as <-. eapply rest_step_inl; eauto.
    + eapply IH; eauto.
Qed.

Lemma required_loop_inr :
  forall p data rk st st',
    required_loop p data rk st = inr st' ->
    (forall e, In e (errors st) -> In e (errors st'))
    /\ (forall key sv e, In (key, sv) rk -> required_failure p data key sv = Some e ->
                         In e (errors st'))
    /\ (forall k, In k (seen_keys st') -> In k (seen_keys st) \/ In k (map fst rk)).
Proof.
  intros p data rk. induction rk as [| [key sv] rk IH]; simpl; intros st st' H.
  - injection H as <-. repeat split; auto. intros key sv e [].
  - destruct (required_step p data st key sv) as [y | st1] eqn:E; [discriminate |].
    destruct (IH _ _ H) as (Hmono & Hfail & Hseen).
    destruct (required_step_inr _ _ _ _ _ _ E) as (Herr & Hs1).
    assert (Hmono1 : forall e, In e (errors st) -> In e (errors st1)).
    { intros e He. destruct Herr as [-> | (e' & _ & ->)]; auto using in_or_app. }
    repeat split.
    + auto.
    + intros key0 sv0 e [[= <- <-] | Hin] Hf; [| eauto].
      apply Hmono. destruct Herr as [Heq | (e' & Hf' & ->)].
      * exfalso. revert E Hf Heq. unfold required_step, required_failure.
        destruct (dict_get data key) as [value |].
        -- destruct (sv (p ++ [key])%list value) as [v | [e1 | m]]; try discriminate.
           intros [= <-] _; simpl. intro Hl.
           apply (f_equal (@List.length invalid)) in Hl. rewrite length_app in Hl.
           simpl in Hl. lia.
        -- intros [= <-] _; simpl. intro Hl.
           apply (f_equal (@List.length invalid)) in Hl. rewrite length_app in Hl.
           simpl in Hl. lia.
      * rewrite Hf in Hf'. injection Hf' as <-. apply in_or_app. right. left. reflexivity.
    + intros k Hk. destruct (Hseen k Hk) as [H1 | H1]; [| auto].
      destruct (Hs1 k H1) as [H2 | ->]; auto.
Qed.

Lemma rest_loop_inr :
  forall extra vs p items st st',
    rest_loop extra vs p items st = inr st' ->
    seen_keys st' = seen_keys st
    /\ (forall e, In e (errors st) -> In e (errors st'))
    /\ (forall key value e, In (key, value) items ->
                            set_mem (seen_keys st) key = false ->
                            rest_failure extra vs p key value = Some e ->
                            In e (errors st')).
Proof.
  intros extra vs p items. induction items as [| [key value] items IH]; simpl; intros st st' H.
  - injection H as <-. repeat split; auto. intros key value e [].
  - destruct (rest_step extra vs p st key value) as [y | st1] eqn:E; [discriminate |].
    destruct (IH _ _ H) as (Hseen & Hmono & Hfail).
    destruct (rest_step_inr _ _ _ _ _ _ _ E) as (Hs1 & l & Hl).
    assert (Hmono1 : forall e, In e (errors st) -> In e (errors st1)).
    { intros e He. rewrite Hl. apply in_or_app. auto. }
    repeat split.
    + congruence.
    + auto.
    + intros key0 value0 e [[= <- <-] | Hin] Hun Hf.
      * apply Hmono. rewrite (rest_step_failure _ _ _ _ _ _ _ Hun Hf) in E.
        injection E as <-. simpl. apply in_or_app. right. left. reflexivity.
      * apply (Hfail key0 value0); auto. rewrite Hs1. exact Hun.
Qed.

Lemma find_key_schema_None :
  forall vs key,
    find_key_schema vs key = None ->
    forall skey, In skey (map fst vs) -> py_eq skey key = false.
Proof.
  intros vs key. induction vs as [| [sk sv] vs IH]; simpl; intros H skey Hin.
  - destruct Hin.
  - destruct (py_eq sk key) eqn:E; [discriminate |].
    assert (Hrest : find_key_schema vs key = None).
    { destruct sk; auto. destruct (isinstance key c); [discriminate | exact H]. }
    destruct Hin as [<- | Hin]; auto.
Qed.

(** Every failure of a required key, and of an input key that is no
    required key, is in the aggregate that [validate_dict] raises. *)
Lemma validate_dict_reports :
  forall extra rk vs p items e,
    (exists key sv, In (key, sv) rk /\ required_failure p items key sv = Some e)
    \/ (exists key value,
          In (key, value) items
          /\ (forall r, In r (map fst rk) -> py_eq r key = false)
          /\ rest_failure extra vs p key value = Some e) ->
    exists x, validate_dict extra rk vs p (ODict items) = Raise x /\ aggregate_with e x.
Proof.
  intros extra rk vs p items e H. unfold validate_dict.
  destruct (required_loop p items rk (mk_dstate [] [] [])) as [x | st1] eqn:E1.
  { destruct (required_loop_inl _ _ _ _ _ E1) as [m ->]. exists (ESchemaError m).
    split; [reflexivity | exact I]. }
  destruct (rest_loop extra vs p items st1) as [x | st2] eqn:E2.
  { destruct (rest_loop_inl _ _ _ _ _ _ E2) as [m ->]. exists (ESchemaError m).
    split; [reflexivity | exact I]. }
  destruct (required_loop_inr _ _ _ _ _ E1) as (_ & Hreq & Hseen).
  destruct (rest_loop_inr _ _ _ _ _ _ E2) as (_ & Hmono & Hrest).
  assert (Hin : In e (errors st2)).
  { destruct H as [(key & sv & Hk & Hf) | (key & value & Hk & Hnot & Hf)].
    - apply Hmono. eapply Hreq; eauto.
    - apply (Hrest key value); auto.
      apply set_mem_false_iff. intros k Hk1.
      destruct (Hseen k Hk1) as [[] | Hk2]. auto. }
  destruct (errors st2) as [| e0 l]; [destruct Hin |].
  eexists. split; [reflexivity | exact Hin].
Qed.

(** ** [==] is reflexive *)

Lemma eq_plain_refl : forall o, eq_plain (unmark o) (unmark o) = true.
Proof.
  induction o using obj_induction; simpl; auto.
  - destruct b; reflexivity.
  - apply Z.eqb_refl.
  - apply Z.eqb_refl.
  - apply String.eqb_refl.
  - induction H as [| x l Hx _ IH]; simpl; [reflexivity |].
    rewrite Hx. exact IH.
  - induction H as [| x l Hx _ IH]; simpl; [reflexivity |].
    rewrite Hx. exact IH.
  - rewrite Nat.eqb_refl. simpl. apply forallb_forall. intros x Hx.
    apply existsb_exists. exists x. split; [exact Hx |].
    apply in_map_iff in Hx. destruct Hx as (o & <- & Ho).
    rewrite Forall_forall in H. auto.
  - rewrite Nat.eqb_refl. simpl. apply forallb_forall. intros [k v] Hx.
    apply existsb_exists. exists (k, v). split; [exact Hx |].
    apply in_map_iff in Hx. destruct Hx as ([k0 v0] & [= <- <-] & Ho).
    rewrite Forall_forall in H. destruct (H _ Ho) as [Hk Hv]. simpl in Hk, Hv.
    rewrite Hk, Hv. reflexivity.
  - destruct c; reflexivity.
Qed.

Lemma py_eq_refl : forall o, py_eq o o = true.
Proof. intro o. apply eq_plain_refl. Qed.

(** ** What the loops put into [out] *)

Lemma dict_set_keys :
  forall (d : dict) key value k,
    In k (map fst (dict_set d key value)) -> In k (map fst d) \/ k = key.
Proof.
  induction d as [| [k0 v0] d IH]; simpl; intros key value k H.
  - destruct H as [<- | []]. auto.
  - destruct (py_eq k0 key); simpl in H.
    + auto.
    + destruct H as [<- | H]; auto. destruct (IH _ _ _ H); auto.
Qed.

(** An item whose key does not answer to [key] survives [d[key] = value]. *)
Lemma dict_set_preserves :
  forall (d : dict) key value k v,
    In (k, v) d -> py_eq k key = false -> In (k, v) (dict_set d key value).
Proof.
  induction d as [| [k0 v0] d IH]; simpl; intros key value k v H Hk.
  - destruct H.
  - destruct (py_eq k0 key) eqn:E.
    + destruct H as [[= -> ->] | H]; [congruence | right; exact H].
    + destruct H as [H | H]; [left; exact H | right; auto].
Qed.

(** After [d[key] = value], [value] is stored under [key] or under the
    stored key that is equal to [key]. *)
Lemma dict_set_stores :
  forall (d : dict) key value,
    exists k, In (k, value) (dict_set d key value)
              /\ (k = key \/ (In k (map fst d) /\ py_eq k key = true)).
Proof.
  induction d as [| [k0 v0] d IH]; simpl; intros key value.
  - exists key. auto.
  - destruct (py_eq k0 key) eqn:E.
    + exists k0. simpl. auto.
    + destruct (IH key value) as (k & Hin & Hk). exists k. simpl.
      split; [auto | tauto].
Qed.

(** The items of [d[key] = value]: those of [d], but for [value] under
    [key] or under the stored key that is equal to [key]. *)
Lemma dict_set_items :
  forall (d : dict) key value k v,
    In (k, v) (dict_set d key value) ->
    In (k, v) d
    \/ (v = value /\ (k = key \/ (In k (map fst d) /\ py_eq k key = true))).
Proof.
  induction d as [| [k0 v0] d IH]; simpl; intros key value k v H.
  - destruct H as [[= <- <-] | []]. auto.
  - destruct (py_eq k0 key) eqn:E; simpl in H.
    + destruct H as [[= <- <-] | H]; [| auto].
      right. split; [reflexivity |]. right. split; [left; reflexivity | exact E].
    + destruct H as [H | H]; [auto |].
      destruct (IH _ _ _ _ H) as [H1 | (-> & [-> | [H1 H2]])]; auto.
      right. split; [reflexivity |]. right. split; [right; exact H1 | exact H2].
Qed.

Lemma dict_get_None :
  forall (d : dict) key,
    (forall k, In k (map fst d) -> py_eq k key = false) -> dict_get d key = None.
Proof.
  induction d as [| [k0 v0] d IH]; simpl; intros key H; [reflexivity |].
  rewrite (H k0) by auto. apply IH. auto.
Qed.

(** [skey(key)] is equal to what [key] is equal to. *)
Lemma py_eq_call_cls :
  forall c k x,
    isinstance k c = true ->
    py_eq (call_cls c k) x = py_eq k x /\ py_eq x (call_cls c k) = py_eq x k.
Proof.
  intros c k x H. unfold py_eq.
  destruct c, k; try discriminate H; simpl; try (split; reflexivity).
  split; destruct (unmark x); reflexivity.
Qed.

Lemma find_key_schema_key :
  forall vs key f key',
    find_key_schema vs key = Some (f, key') ->
    forall x, py_eq key' x = py_eq key x /\ py_eq x key' = py_eq x key.
Proof.
  induction vs as [| [sk sv] vs IH]; simpl; intros key f key' H x.
  - discriminate.
  - destruct (py_eq sk key).
    + injection H as <- <-. auto.
    + destruct sk; eauto.
      destruct (isinstance key c) eqn:E; eauto.
      injection H as <- <-. apply py_eq_call_cls. exact E.
Qed.

Lemma required_loop_out_keys :
  forall p data rk st st',
    required_loop p data rk st = inr st' ->
    forall k, In k (map fst (out st')) -> In k (map fst (out st)) \/ In k (map fst rk).
Proof.
  intros p data rk. induction rk as [| [key sv] rk IH]; simpl; intros st st' H k Hk.
  - injection H as <-. auto.
  - destruct (required_step p data st key sv) as [y | st1] eqn:E; [discriminate |].
    destruct (IH _ _ H k Hk) as [H1 | H1]; [| auto].
    revert E H1. unfold required_step.
    destruct (dict_get data key) as [value |].
    + destruct (sv (p ++ [key])%list value) as [v | [e | m]]; intros [= <-]; simpl; auto.
      intro H1. destruct (dict_set_keys _ _ _ _ H1); auto.
    + intros [= <-]; simpl; auto.
Qed.

Section extra_key.

(** An input key [key] that no schema key matches, with its value. *)
Variables (vs : value_schema_t) (p : path) (key value : obj).
Hypothesis unmatched : find_key_schema vs key = None.

Let extra_or_apart := item_or_apart key value.
Let extra_or_other := item_or_other key value.

Lemma extra_or_apart_set :
  forall d k' v',
    extra_or_apart d ->
    (k' = key /\ v' = value) \/ (py_eq k' key = false /\ py_eq key k' = false) ->
    extra_or_apart (dict_set d k' v').
Proof.
  intros d k' v' Hd Hk k v H.
  destruct (dict_set_items _ _ _ _ _ H) as [H1 | (-> & [-> | [H1 H2]])]; auto.
  - tauto.
  - apply in_map_iff in H1. destruct H1 as ([k0 v0] & Hf & Hkv). simpl in Hf. subst k0.
    destruct (Hd _ _ Hkv) as [[-> _] | Hne]; [| auto].
    destruct Hk as [[_ ->] | [_ Hk]]; [auto | congruence].
Qed.

Lemma allow_step :
  forall st st' k2 v2,
    extra_or_apart (out st) ->
    extra_or_other (k2, v2) ->
    rest_step ALLOW_EXTRA vs p st k2 v2 = inr st' ->
    extra_or_apart (out st')
    /\ (In (key, value) (out st) -> In (key, value) (out st'))
    /\ ((k2, v2) = (key, value) -> set_mem (seen_keys st) key = false ->
        In (key, value) (out st')).
Proof.
  intros st st' k2 v2 Hclean Hitem. unfold rest_step.
  destruct Hitem as [[= -> ->] | [Hk2 Hk2']]; simpl in *.
  - destruct (set_mem (seen_keys st) key) eqn:Hseen.
    { intros [= <-]. repeat split; auto. discriminate. }
    rewrite unmatched. simpl. intros [= <-]. simpl.
    destruct (dict_set_stores (out st) key value) as (k & Hin & Hk).
    assert (Hkk : k = key).
    { destruct Hk as [-> | [Hk Heq]]; [reflexivity |].
      apply in_map_iff in Hk. destruct Hk as ([k0 v0] & Hf & Hkv). simpl in Hf. subst k0.
      destruct (Hclean _ _ Hkv) as [[-> _] | Hne]; [reflexivity | congruence]. }
    subst k. repeat split; auto.
    apply extra_or_apart_set; auto.
  - destruct (set_mem (seen_keys st) k2).
    { intros [= <-]. repeat split; auto. intros [= -> ->]. rewrite py_eq_refl in Hk2. discriminate Hk2. }
    destruct (find_key_schema vs k2) as [[f key'] |] eqn:Ef.
    + destruct (find_key_schema_key _ _ _ _ Ef key) as [H1 H2].
      destruct (f (p ++ [key'])%list v2) as [v | [e | m]]; intros [= <-]; simpl.
      * repeat split.
        -- apply extra_or_apart_set; auto. right. split; congruence.
        -- intro H. apply dict_set_preserves; [exact H | congruence].
        -- intros [= -> ->]. rewrite py_eq_refl in Hk2. discriminate Hk2.
      * repeat split; auto. intros [= -> ->]. rewrite py_eq_refl in Hk2. discriminate Hk2.
    + simpl. intros [= <-]; simpl. repeat split.
      * apply extra_or_apart_set; auto.
      * intro H. apply dict_set_preserves; auto.
      * intros [= -> ->]. rewrite py_eq_refl in Hk2. discriminate Hk2.
Qed.

Lemma allow_loop :
  forall items st st',
    extra_or_apart (out st) ->
    Forall extra_or_other items ->
    rest_loop ALLOW_EXTRA vs p items st = inr st' ->
    (In (key, value) (out st) -> In (key, value) (out st'))
    /\ (In (key, value) items -> set_mem (seen_keys st) key = false ->
        In (key, value) (out st')).
Proof.
  induction items as [| [k2 v2] items IH]; simpl; intros st st' Hclean Hitems H.
  - injection H as <-. split; [auto | intros []].
  - destruct (rest_step ALLOW_EXTRA vs p st k2 v2) as [x | st1] eqn:E; [discriminate |].
    inversion Hitems as [| ? ? Hitem Hrest]; subst.
    destruct (allow_step _ _ _ _ Hclean Hitem E) as (Hclean1 & Hkeep & Hput).
    destruct (rest_step_inr _ _ _ _ _ _ _ E) as [Hseen _].
    destruct (IH _ _ Hclean1 Hrest H) as [Hkeep' Hput'].
    split; [auto |].
    intros [Hin | Hin] Hun; [auto |].
    apply Hput'; [exact Hin | congruence].
Qed.

(** Under [REMOVE_EXTRA] no key equal to [key] enters [out]. *)
Lemma remove_loop :
  forall items st st',
    (forall k, In k (map fst (out st)) -> py_eq k key = false) ->
    (forall k, In k (map fst items) -> k = key \/ py_eq k key = false) ->
    rest_loop REMOVE_EXTRA vs p items st = inr st' ->
    forall k, In k (map fst (out st')) -> py_eq k key = false.
Proof.
  induction items as [| [k2 v2] items IH]; simpl; intros st st' Hclean Hitems H.
  - injection H as <-. exact Hclean.
  - destruct (rest_step REMOVE_EXTRA vs p st k2 v2) as [x | st1] eqn:E; [discriminate |].
    apply (IH st1 st'); auto.
    revert E. unfold rest_step.
    destruct (set_mem (seen_keys st) k2); [intros [= <-]; exact Hclean |].
    destruct (find_key_schema vs k2) as [[f key'] |] eqn:Ef.
    + destruct (Hitems k2 (or_introl eq_refl)) as [-> | Hk2]; [congruence |].
      destruct (find_key_schema_key _ _ _ _ Ef key) as [H1 _].
      destruct (f (p ++ [key'])%list v2) as [v | [e | m]]; intros [= <-]; simpl; auto.
      intros k Hk. destruct (dict_set_keys _ _ _ _ Hk) as [Hk' | ->]; [auto | congruence].
    + simpl. intros [= <-]. exact Hclean.
Qed.

End extra_key.

(** After the loop over the required keys, no key of [out] and no seen key
    is equal to an input key that no schema key matches. *)
Lemma required_loop_apart :
  forall vs p items key st1,
    find_key_schema vs key = None ->
    required_loop p items (filter (fun item => is_Required (fst item)) vs)
      (mk_dstate [] [] []) = inr st1 ->
    (forall k, In k (map fst (out st1)) -> py_eq k key = false)
    /\ set_mem (seen_keys st1) key = false.
Proof.
  intros vs p items key st1 Hnone E1.
  assert (Hrk : forall r,
             In r (map fst (filter (fun item : obj * validator => is_Required (fst item)) vs)) ->
             py_eq r key = false).
  { intros r Hr. apply (find_key_schema_None _ _ Hnone).
    apply in_map_iff in Hr. destruct Hr as (item & <- & Hitem).
    apply filter_In in Hitem. apply in_map. tauto. }
  split.
  - intros k Hk. destruct (required_loop_out_keys _ _ _ _ _ E1 k Hk) as [[] | Hr]. auto.
  - destruct (required_loop_inr _ _ _ _ _ E1) as (_ & _ & Hseen).
    apply set_mem_false_iff. intros k Hk. destruct (Hseen k Hk) as [[] | Hr]. auto.
Qed.

(** ** The extra-key policy (C5) *)

(** C5: an input key that no schema key matches (none is equal to it, and it
    is an instance of no class among them) is treated as [extra] says: under
    [PREVENT_EXTRA] the failure "extra keys not allowed" is recorded at
    [path + [key]], and is in the aggregate that the mapping validator
    raises; under [ALLOW_EXTRA] [out[key] = value] is done, and the item is
    in the output of an accepted input whose other keys are not equal to
    [key]; under [REMOVE_EXTRA] nothing is done, and [key] is not in the
    output.  The schema [{'a': str}] on [{'a': 'x', 'b': 1}] fails at
    [['b']], returns [{'a': 'x', 'b': 1}] and returns [{'a': 'x'}]. *)
Theorem extra_key_policy :
  forall value_schema p key value,
    find_key_schema value_schema key = None ->
    (forall st,
       set_mem (seen_keys st) key = false ->
       rest_step PREVENT_EXTRA value_schema p st key value
       = inr (mk_dstate (out st)
                (errors st ++ [Inv Invalid "extra keys not allowed" (p ++ [key])])
                (seen_keys st))%list
       /\ rest_step ALLOW_EXTRA value_schema p st key value
          = inr (mk_dstate (dict_set (out st) key value) (errors st) (seen_keys st))
       /\ rest_step REMOVE_EXTRA value_schema p st key value = inr st)
    /\ (forall items,
          In (key, value) items ->
          exists x,
            validate_dict PREVENT_EXTRA
              (filter (fun item => is_Required (fst item)) value_schema)
              value_schema p (ODict items) = Raise x
            /\ aggregate_with (Inv Invalid "extra keys not allowed" (p ++ [key])%list) x)
    /\ (forall items o,
          In (key, value) items ->
          Forall (item_or_other key value) items ->
          validate_dict ALLOW_EXTRA
            (filter (fun item => is_Required (fst item)) value_schema)
            value_schema p (ODict items) = Ret (ODict o) ->
          In (key, value) o)
    /\ (forall items o,
          (forall k, In k (map fst items) -> k = key \/ py_eq k key = false) ->
          validate_dict REMOVE_EXTRA
            (filter (fun item => is_Required (fst item)) value_schema)
            value_schema p (ODict items) = Ret (ODict o) ->
          dict_mem o key = false)
    /\ construct_and_call Examples.a_str false PREVENT_EXTRA Examples.a_x_b_1
       = inr (Raise (EInvalid (new_MultipleInvalid
               [Inv Invalid "extra keys not allowed" [OStr "b"]])))
    /\ construct_and_call Examples.a_str false ALLOW_EXTRA Examples.a_x_b_1
       = inr (Ret (ODict [(OStr "a", OStr "x"); (OStr "b", OInt 1)]))
    /\ construct_and_call Examples.a_str false REMOVE_EXTRA Examples.a_x_b_1
       = inr (Ret (ODict [(OStr "a", OStr "x")])).
Proof.
  intros vs p key value Hnone. split; [| split; [| split; [| split]]].
  - intros st Hseen. unfold rest_step. rewrite Hseen, Hnone. simpl.
    repeat split; reflexivity.
  - intros items Hin. apply validate_dict_reports. right.
    exists key, value. split; [exact Hin | split].
    + intros r Hr. apply (find_key_schema_None _ _ Hnone).
      apply in_map_iff in Hr. destruct Hr as (item & <- & Hitem).
      apply filter_In in Hitem. apply in_map. tauto.
    + unfold rest_failure. rewrite Hnone. reflexivity.
  - intros items o Hin Hitems. unfold validate_dict.
    destruct (required_loop p items _ (mk_dstate [] [] [])) as [x | st1] eqn:E1;
      [discriminate |].
    destruct (rest_loop ALLOW_EXTRA vs p items st1) as [x | st2] eqn:E2; [discriminate |].
    destruct (errors st2); [| discriminate]. intros [= <-].
    destruct (required_loop_apart _ _ _ _ _ Hnone E1) as [Hout Hseen].
    apply (allow_loop vs p key value Hnone items st1 st2); auto.
    intros k v Hkv. right. apply Hout. apply in_map_iff. exists (k, v). auto.
  - intros items o Hitems. unfold validate_dict.
    destruct (required_loop p items _ (mk_dstate [] [] [])) as [x | st1] eqn:E1;
      [discriminate |].
    destruct (rest_loop REMOVE_EXTRA vs p items st1) as [x | st2] eqn:E2; [discriminate |].
    destruct (errors st2); [| discriminate]. intros [= <-].
    destruct (required_loop_apart _ _ _ _ _ Hnone E1) as [Hout _].
    unfold dict_mem. rewrite dict_get_None; [reflexivity |].
    apply (remove_loop vs p key Hnone items st1 st2); auto.
  - repeat split; vm_compute; reflexivity.
Qed.

Lemma extra_key_policy_witness :
  find_key_schema [(OStr "a", validate_instance CStr)] (OStr "b") = None
  /\ rest_step ALLOW_EXTRA [(OStr "a", validate_instance CStr)] []
       (mk_dstate [(OStr "a", OStr "x")] [] []) (OStr "b") (OInt 1)
     = inr (mk_dstate [(OStr "a", OStr "x"); (OStr "b", OInt 1)] [] []).
Proof.
  split; [reflexivity |].
  apply (proj1 (extra_key_policy [(OStr "a", validate_instance CStr)] []
                  (OStr "b") (OInt 1) eq_refl)
           (mk_dstate [(OStr "a", OStr "x")] [] []) eq_refl).
Defined.

(** ** Aggregation in mappings, fail-fast in sequences (C6) *)

Lemma sequence_loop_app :
  forall schema p pre l i r,
    sequence_loop schema p i (pre ++ l)%list r
    = match sequence_loop schema p i pre r with
      | inl e => inl e
      | inr r' => sequence_loop schema p (i + Z.of_nat (List.length pre)) l r'
      end.
Proof.
  intros schema p pre l. induction pre as [| x pre IH]; intros i r.
  - simpl. rewrite Z.add_0_r. reflexivity.
  - cbn [app sequence_loop List.length].
    destruct (try_validators schema (OInt i :: p) x) as [[v | e] |]; try reflexivity.
    rewrite IH. replace (i + 1 + Z.of_nat (List.length pre))%Z
      with (i + Z.of_nat (S (List.length pre)))%Z by lia.
    reflexivity.
Qed.

(** C6: [validate_dict] goes through all the required keys and all the
    items of the input and raises one aggregate, which holds the failure of
    every required key and of every other input key that has one; two bad
    keys give an aggregate of two failures.  [validate_sequence] raises at
    the first element that every candidate rejects, whatever the elements
    after it. *)
Theorem mapping_collects_sequence_fails_fast :
  (forall extra rk vs p items e,
     (exists key sv, In (key, sv) rk /\ required_failure p items key sv = Some e)
     \/ (exists key value,
           In (key, value) items
           /\ (forall r, In r (map fst rk) -> py_eq r key = false)
           /\ rest_failure extra vs p key value = Some e) ->
     exists x, validate_dict extra rk vs p (ODict items) = Raise x /\ aggregate_with e x)
  /\ (forall schema seq_type p data pre bad rest result,
        schema <> [] ->
        isinstance data seq_type = true ->
        elements data = (pre ++ bad :: rest)%list ->
        sequence_loop schema p 0 pre [] = inr result ->
        try_validators schema (OInt (Z.of_nat (List.length pre)) :: p) bad = None ->
        validate_sequence schema seq_type p data
        = raise_Invalid Invalid "not a valid value for sequence item" None)
  /\ construct_and_call Examples.two_fields false PREVENT_EXTRA
       (ODict [(OStr "strfield", OInt 123); (OStr "intfield", OStr "one")])
     = inr (Raise (EInvalid (new_MultipleInvalid
             [Inv TypeInvalid "expected str for  @ data['strfield']" [];
              Inv TypeInvalid "expected int for  @ data['intfield']" []])))
  /\ construct_and_call (OList [OClass CInt]) false PREVENT_EXTRA
       (OList [OInt 1; OStr "x"; OStr "y"])
     = inr (Raise (EInvalid (new_MultipleInvalid
             [Inv Invalid "not a valid value for sequence item" []]))).
Proof.
  split; [exact validate_dict_reports | split; [| split; vm_compute; reflexivity]].
  intros schema seq_type p data pre bad rest result Hne Hinst Hel Hpre Hbad.
  unfold validate_sequence. rewrite Hinst, Hel. simpl negb. cbv iota.
  destruct schema as [| f schema]; [congruence |].
  rewrite sequence_loop_app, Hpre. cbn [sequence_loop Z.add]. rewrite Hbad.
  reflexivity.
Qed.

Lemma mapping_collects_sequence_fails_fast_witness :
  (exists x, validate_dict PREVENT_EXTRA [] [(OStr "a", validate_instance CInt)] []
               (ODict [(OStr "a", OStr "x"); (OStr "b", OInt 1)]) = Raise x
             /\ aggregate_with (Inv Invalid "extra keys not allowed" [OStr "b"]) x)
  /\ validate_sequence [validate_instance CInt] CList []
       (OList [OInt 1; OStr "x"; OInt 2])
     = raise_Invalid Invalid "not a valid value for sequence item" None.
Proof.
  split.
  - apply (proj1 mapping_collects_sequence_fails_fast). right.
    exists (OStr "b"), (OInt 1). split; [right; left; reflexivity | split].
    + intros r [].
    + reflexivity.
  - apply (proj1 (proj2 mapping_collects_sequence_fails_fast)
             [validate_instance CInt] CList [] (OList [OInt 1; OStr "x"; OInt 2])
             [OInt 1] (OStr "x") [OInt 2] [OInt 1]).
    + discriminate.
    + reflexivity.
    + reflexivity.
    + reflexivity.
    + reflexivity.
Defined.

(** ** The check for duplicate keys (C8) *)

Lemma sorted_insert_perm :
  forall (A K : Type) (le : K -> K -> bool) (key : A -> K) x l,
    Permutation (sorted_insert le key x l) (x :: l).
Proof.
  intros A K le key x l. induction l as [| y l IH]; simpl.
  - apply Permutation_refl.
  - destruct (le (key x) (key y)).
    + apply Permutation_refl.
    + eapply perm_trans; [apply perm_skip, IH | apply perm_swap].
Qed.

Lemma sorted_perm :
  forall (A K : Type) (le : K -> K -> bool) (key : A -> K) l,
    Permutation (sorted le key l) l.
Proof.
  intros A K le key l. induction l as [| x l IH]; simpl.
  - apply perm_nil.
  - eapply perm_trans; [apply sorted_insert_perm | apply perm_skip, IH].
Qed.

Lemma filter_perm :
  forall (A : Type) (f : A -> bool) l l',
    Permutation l l' -> Permutation (filter f l) (filter f l').
Proof.
  intros A f l l' H. induction H; simpl.
  - apply perm_nil.
  - destruct (f x); [apply perm_skip |]; assumption.
  - destruct (f x), (f y); try apply Permutation_refl. apply perm_swap.
  - eapply perm_trans; eassumption.
Qed.

Lemma nodup_length_le :
  forall l : list string, (List.length (nodup string_dec l) <= List.length l)%nat.
Proof.
  induction l as [| x l IH]; simpl; [lia |].
  destruct (in_dec string_dec x l); simpl; lia.
Qed.

Lemma count_distinct_NoDup :
  forall names, count_distinct names = List.length names <-> NoDup names.
Proof.
  unfold count_distinct. induction names as [| x l IH]; simpl.
  - split; [constructor | reflexivity].
  - destruct (in_dec string_dec x l) as [Hin | Hnin]; simpl.
    + split.
      * intro H. pose proof (nodup_length_le l). lia.
      * intro H. inversion H; contradiction.
    + split.
      * intro H. constructor; [exact Hnin | apply IH; lia].
      * intro H. inversion H; subst. f_equal. apply IH. assumption.
Qed.

Lemma map_fst_compiled :
  forall (f : obj -> validator) items,
    map (@fst obj validator) (map (fun '(key, value) => (key, f value)) items)
    = map (@fst obj obj) items.
Proof.
  intros f items. induction items as [| [k v] items IH]; simpl; congruence.
Qed.

(** [_compile_mapping] raises exactly when two marker keys of the schema
    have the same [str]. *)
Lemma _compile_mapping_SchemaError :
  forall extra schema,
    (exists m, _compile_mapping extra schema = inl m)
    <-> ~ NoDup (map py_str (filter is_Marker (map fst schema))).
Proof.
  intros extra schema. unfold _compile_mapping.
  set (names := map py_str (filter is_Marker
                  (map fst (_iterate_mapping_candidates schema)))).
  assert (Hperm : Permutation names (map py_str (filter is_Marker (map fst schema)))).
  { apply Permutation_map, filter_perm, Permutation_map, sorted_perm. }
  destruct (count_distinct names =? List.length names)%nat eqn:E; simpl.
  - apply Nat.eqb_eq, count_distinct_NoDup in E. split.
    + intros [m Hm]. discriminate Hm.
    + intro H. exfalso. apply H. eapply Permutation_NoDup; eassumption.
  - apply Nat.eqb_neq in E. split.
    + intros _ H. apply E, count_distinct_NoDup.
      eapply Permutation_NoDup; [apply Permutation_sym |]; eassumption.
    + intros _. eauto.
Qed.

(** C8 (as amended): when two marker keys of the schema's mapping have the
    same [str], [Schema.__init__] raises [SchemaError], and when no two have,
    it does not, whatever the [str] of the plain keys; a [SchemaError] that
    the compiled validator raises leaves [Schema.__call__] as it is, not
    wrapped in an aggregate, as for a mapping with such keys nested in
    [{'a': ...}], which is compiled when [{'a': {}}] is validated. *)
Theorem duplicate_marker_keys_rejected :
  forall items required extra,
    ((exists m, Schema_init (ODict items) required extra = inl m)
     <-> ~ NoDup (map py_str (filter is_Marker (map fst items))))
    /\ (forall (self : Schema) data m,
          _compiled self [] data = Raise (ESchemaError m) ->
          Schema_call self data = Raise (ESchemaError m))
    /\ construct_and_call (ODict [(OStr "a", Examples.marker_same_str)]) required
         PREVENT_EXTRA (ODict [(OStr "a", ODict [])])
       = inr (Raise (ESchemaError "duplicate keys found: ['1', '1']")).
Proof.
  intros items required extra. split; [| split].
  - unfold Schema_init. cbn [_compile].
    rewrite <- (map_fst_compiled (fun value => run (_compile extra value)) items).
    rewrite <- _compile_mapping_SchemaError with (extra := extra).
    destruct (_compile_mapping extra _) as [m | f]; split; intros [m' H]; eauto; discriminate H.
  - intros self data m H. unfold Schema_call, Schema_call_compiled. rewrite H. reflexivity.
  - vm_compute. reflexivity.
Qed.

Lemma duplicate_marker_keys_rejected_witness :
  ~ NoDup (map py_str (filter is_Marker
             (map fst [(OMarker KRequired (OInt 1) None OUndefined, OClass CInt);
                       (OMarker KRequired (OStr "1") None OUndefined, OClass CInt)])))
  /\ exists m, Schema_init Examples.marker_same_str false PREVENT_EXTRA = inl m.
Proof.
  assert (H : ~ NoDup (map py_str (filter is_Marker
             (map fst [(OMarker KRequired (OInt 1) None OUndefined, OClass CInt);
                       (OMarker KRequired (OStr "1") None OUndefined, OClass CInt)])))).
  { intro H. inversion H as [| x l Hnin _]; subst. apply Hnin. left. reflexivity. }
  split; [exact H |].
  apply (proj2 (proj1 (duplicate_marker_keys_rejected _ false PREVENT_EXTRA)) H).
Defined.

(** C8, as stated, fails: the keys [1] and ['1'] of [{1: int, '1': int}]
    have the same [str], and the schema is constructed. *)
Lemma plain_keys_not_checked :
  ~ (forall items required extra,
       ~ NoDup (map py_str (map fst items)) ->
       exists m, Schema_init (ODict items) required extra = inl m).
Proof.
  intro H.
  destruct (H [(OInt 1, OClass CInt); (OStr "1", OClass CInt)] false PREVENT_EXTRA)
    as [m Hm].
  - intro Hnd. inversion Hnd as [| x l Hnin _]; subst. apply Hnin. left. reflexivity.
  - vm_compute in Hm. discriminate Hm.
Qed.

(** ** Keys that are new to a dict or a set *)

Lemma dict_set_fresh :
  forall (d : dict) key value,
    (forall k, In k (map fst d) -> py_eq k key = false) ->
    dict_set d key value = (d ++ [(key, value)])%list.
Proof.
  induction d as [| [k v] d IH]; simpl; intros key value H.
  - reflexivity.
  - rewrite (H k) by (left; reflexivity). f_equal. apply IH. auto.
Qed.

Lemma fold_set_add_fresh :
  forall l s,
    (forall k k', In k s -> In k' l -> py_eq k k' = false) ->
    keys_distinct l = true ->
    fold_left set_add l s = (s ++ l)%list.
Proof.
  induction l as [| x l IH]; simpl; intros s Hs Hd.
  - symmetry. apply app_nil_r.
  - apply andb_true_iff in Hd. destruct Hd as [Hx Hd].
    rewrite forallb_forall in Hx.
    assert (Hadd : set_add s x = (s ++ [x])%list).
    { unfold set_add.
      replace (set_mem s x) with false; [reflexivity |].
      symmetry. apply set_mem_false_iff. intros k Hk. apply Hs; simpl; auto. }
    rewrite Hadd, IH; auto.
    + rewrite <- app_assoc. reflexivity.
    + intros k k' Hk Hk'. apply in_app_or in Hk. destruct Hk as [Hk | [<- | []]].
      * apply Hs; simpl; auto.
      * specialize (Hx k' Hk'). apply negb_true_iff in Hx. exact Hx.
Qed.

Lemma mk_set_distinct : forall l, keys_distinct l = true -> mk_set l = l.
Proof.
  intros l H. unfold mk_set. rewrite fold_set_add_fresh; auto.
  intros k k' [].
Qed.

Lemma find_key_schema_keeps :
  forall vs key f key',
    (forall sk, In sk (map fst vs) -> key_keeps sk = true) ->
    find_key_schema vs key = Some (f, key') ->
    key' = key /\ In f (map snd vs).
Proof.
  induction vs as [| [sk sv] vs IH]; simpl; intros key f key' Hk H.
  - discriminate.
  - destruct (py_eq sk key).
    + injection H as <- <-. auto.
    + assert (Hrest : find_key_schema vs key = Some (f, key')).
      { destruct sk; auto. specialize (Hk (OClass c) (or_introl eq_refl)). discriminate. }
      destruct (IH _ _ _ (fun sk' H' => Hk sk' (or_intror H')) Hrest). auto.
Qed.

(** * Further properties of the compiler *)

(** ** The order of the candidates *)

Lemma sort_key_le_total :
  forall a b, sort_key_le a b = false -> sort_key_le b a = true.
Proof.
  intros [r1 s1] [r2 s2]. unfold sort_key_le. simpl. intro H.
  apply orb_false_iff in H. destruct H as [Hlt H].
  apply Nat.ltb_ge in Hlt.
  destruct (Nat.eq_dec r1 r2) as [-> | Hne].
  - rewrite Nat.eqb_refl in *. simpl in H.
    destruct (String.leb_total s1 s2) as [H' | H']; [congruence |].
    rewrite H'. apply orb_true_r.
  - assert (Hlt' : (r2 <? r1)%nat = true) by (apply Nat.ltb_lt; lia).
    rewrite Hlt'. reflexivity.
Qed.

Lemma sort_key_le_rank :
  forall a b, sort_key_le a b = true -> (fst a <= fst b)%nat.
Proof.
  intros [r1 s1] [r2 s2]. unfold sort_key_le. simpl. intro H.
  apply orb_true_iff in H. destruct H as [H | H].
  - apply Nat.ltb_lt in H. lia.
  - apply andb_true_iff in H. destruct H as [H _]. apply Nat.eqb_eq in H. lia.
Qed.

Lemma sorted_insert_Sorted :
  forall (A : Type) (key : A -> nat * string) x l,
    Sorted (fun a b => sort_key_le (key a) (key b) = true) l ->
    Sorted (fun a b => sort_key_le (key a) (key b) = true)
      (sorted_insert sort_key_le key x l).
Proof.
  intros A key x l. induction l as [| y l IH]; simpl; intro H.
  - constructor; constructor.
  - destruct (sort_key_le (key x) (key y)) eqn:E.
    + constructor; [exact H | constructor; exact E].
    + inversion H as [| ? ? Hl Hhd]; subst.
      constructor; [apply IH; exact Hl |].
      destruct l as [| z l]; simpl.
      * constructor. apply sort_key_le_total. exact E.
      * destruct (sort_key_le (key x) (key z)).
        -- constructor. apply sort_key_le_total. exact E.
        -- inversion Hhd; subst. constructor. assumption.
Qed.

Lemma sorted_Sorted :
  forall (A : Type) (key : A -> nat * string) l,
    Sorted (fun a b => sort_key_le (key a) (key b) = true) (sorted sort_key_le key l).
Proof.
  intros A key l. induction l as [| x l IH]; simpl.
  - constructor.
  - apply sorted_insert_Sorted. exact IH.
Qed.

Lemma StronglySorted_later :
  forall (A : Type) (R : A -> A -> Prop) l1 a l2,
    StronglySorted R (l1 ++ a :: l2)%list -> Forall (R a) l2.
Proof.
  intros A R l1 a l2. induction l1 as [| x l1 IH]; simpl; intro H.
  - inversion H; assumption.
  - inversion H; auto.
Qed.

(** [_iterate_mapping_candidates] keeps the items of the schema and puts
    them in the order of [_sort_item]: each item is below or equal to the
    next, so only [Required] markers come before a [Required] marker, and
    only markers come before a marker. *)
Theorem candidates_in_order :
  forall (A : Type) (items : list (obj * A)),
    Permutation (_iterate_mapping_candidates items) items
    /\ Sorted (fun a b => sort_key_le (_sort_item a) (_sort_item b) = true)
         (_iterate_mapping_candidates items)
    /\ (forall l1 a l2 b l3,
          _iterate_mapping_candidates items = (l1 ++ a :: l2 ++ b :: l3)%list ->
          (is_Required (fst b) = true -> is_Required (fst a) = true)
          /\ (is_Marker (fst b) = true -> is_Marker (fst a) = true)).
Proof.
  intros A items. unfold _iterate_mapping_candidates.
  split; [apply sorted_perm | split; [apply sorted_Sorted |]].
  intros l1 a l2 b l3 E.
  assert (Hrank : (fst (_sort_item a) <= fst (_sort_item b))%nat).
  { pose proof (sorted_Sorted (obj * A) (@_sort_item A) items) as Hs.
    assert (Hss : StronglySorted
                    (fun a b : obj * A => (fst (_sort_item a) <= fst (_sort_item b))%nat)
                    (sorted sort_key_le _sort_item items)).
    { apply Sorted_StronglySorted.
      - intros x y z Hxy Hyz. lia.
      - clear E. induction Hs as [| x l Hl IH Hhd]; constructor; auto.
        destruct Hhd; constructor. apply sort_key_le_rank. assumption. }
    rewrite E in Hss. apply StronglySorted_later in Hss.
    rewrite Forall_forall in Hss. apply Hss. apply in_or_app. right. left. reflexivity. }
  revert Hrank. destruct a as [ka va], b as [kb vb]. unfold _sort_item. simpl.
  destruct ka, kb; simpl; try (intros; split; (discriminate || reflexivity || lia));
    try (destruct k; simpl; intros; split; (discriminate || reflexivity || lia)).
  destruct k, k0; simpl; intros; split; (discriminate || reflexivity || lia).
Qed.

Lemma candidates_in_order_witness :
  _iterate_mapping_candidates
    [(OStr "b", OClass CInt); (Examples.Required "a" OUndefined, OClass CStr)]
  = ([] ++ (Examples.Required "a" OUndefined, OClass CStr)
        :: [] ++ (OStr "b", OClass CInt) :: [])%list
  /\ (is_Marker (OStr "b") = true -> is_Marker (Examples.Required "a" OUndefined) = true).
Proof.
  split; [reflexivity |].
  apply (proj2 (proj2 (candidates_in_order obj
           [(OStr "b", OClass CInt); (Examples.Required "a" OUndefined, OClass CStr)]))
           [] (Examples.Required "a" OUndefined, OClass CStr) []
           (OStr "b", OClass CInt) [] eq_refl).
Defined.

(** ** Required keys *)

Lemma compiled_items_In :
  forall (f : obj -> validator) items key value,
    In (key, value) items ->
    In (key, f value)
      (map (fun '(key, value) => (key, f value) : obj * validator)
         (items : list (obj * obj))).
Proof.
  intros f items key value H. apply in_map_iff. exists (key, value). auto.
Qed.

(** A mapping schema with a [Required] key, on a dict without a key equal
    to it, raises an aggregate that holds the failure [RequiredFieldInvalid]
    with the marker's [msg] (or "required key not provided") at
    [path + [key]], unless a sub-schema raises [SchemaError] first. *)
Theorem missing_required_key_reported :
  forall extra items validate p data key value,
    _compile extra (ODict items) = inr validate ->
    In (key, value) items ->
    is_Required key = true ->
    dict_mem data key = false ->
    exists x,
      validate p (ODict data) = Raise x
      /\ aggregate_with
           (Inv RequiredFieldInvalid (required_msg key) (p ++ [key])%list) x.
Proof.
  intros extra items validate p data key value Hc Hin Hreq Hmem.
  cbn [_compile] in Hc. unfold _compile_mapping in Hc.
  match type of Hc with
  | (if ?b then _ else _) = _ => destruct b; [discriminate |]
  end.
  injection Hc as <-. apply validate_dict_reports. left.
  exists key, (run (_compile extra value)). split.
  - apply filter_In. split; [| exact Hreq].
    eapply Permutation_in; [apply Permutation_sym, sorted_perm |].
    apply (compiled_items_In (fun value => run (_compile extra value))). exact Hin.
  - unfold required_failure. unfold dict_mem in Hmem.
    destruct (dict_get data key); [discriminate | reflexivity].
Qed.

Lemma missing_required_key_reported_witness :
  exists x,
    validate_dict PREVENT_EXTRA
      [(Examples.Required "key" OUndefined, run (inr (validate_instance CStr)))]
      [(Examples.Required "key" OUndefined, run (inr (validate_instance CStr)))]
      [] (ODict [(OStr "other", OInt 1)]) = Raise x
    /\ aggregate_with
         (Inv RequiredFieldInvalid "required key not provided"
            [Examples.Required "key" OUndefined]) x.
Proof.
  apply (missing_required_key_reported PREVENT_EXTRA
           [(Examples.Required "key" OUndefined, OClass CStr)] _ []
           [(OStr "other", OInt 1)] (Examples.Required "key" OUndefined) (OClass CStr)
           eq_refl (or_introl eq_refl) eq_refl eq_refl).
Defined.

(** ** The keys of the output *)

Lemma dict_mem_In :
  forall (d : dict) k v x,
    In (k, v) d -> py_eq k x = true -> dict_mem d x = true.
Proof.
  unfold dict_mem. induction d as [| [k0 v0] d IH]; simpl; intros k v x H Hk.
  - destruct H.
  - destruct (py_eq k0 x) eqn:E; [reflexivity |].
    destruct H as [[= -> ->] | H]; [congruence | eapply IH; eauto].
Qed.

Lemma required_loop_out_from_data :
  forall p data rk st st',
    (forall k, In k (map fst (out st)) -> dict_mem data k = true) ->
    required_loop p data rk st = inr st' ->
    forall k, In k (map fst (out st')) -> dict_mem data k = true.
Proof.
  intros p data rk. induction rk as [| [key sv] rk IH]; simpl; intros st st' Hst H.
  - injection H as <-. exact Hst.
  - destruct (required_step p data st key sv) as [y | st1] eqn:E; [discriminate |].
    apply (IH st1 st'); [| exact H].
    revert E. unfold required_step.
    destruct (dict_get data key) as [value |] eqn:Eg.
    + destruct (sv (p ++ [key])%list value) as [v | [e | m]]; intros [= <-]; simpl; auto.
      intros k Hk. destruct (dict_set_keys _ _ _ _ Hk) as [Hk' | ->]; [auto |].
      unfold dict_mem. rewrite Eg. reflexivity.
    + intros [= <-]; simpl; auto.
Qed.

Lemma rest_loop_out_from_data :
  forall extra vs p data items st st',
    (forall item, In item items -> In item data) ->
    (forall k, In k (map fst (out st)) -> dict_mem data k = true) ->
    rest_loop extra vs p items st = inr st' ->
    forall k, In k (map fst (out st')) -> dict_mem data k = true.
Proof.
  intros extra vs p data. induction items as [| [k2 v2] items IH]; simpl;
    intros st st' Hsub Hst H.
  - injection H as <-. exact Hst.
  - destruct (rest_step extra vs p st k2 v2) as [y | st1] eqn:E; [discriminate |].
    apply (IH st1 st'); [auto | | exact H].
    assert (Hset : forall k' v',
               py_eq k2 k' = true ->
               forall k, In k (map fst (dict_set (out st) k' v')) -> dict_mem data k = true).
    { intros k' v' Hk' k Hk. destruct (dict_set_keys _ _ _ _ Hk) as [Hk1 | ->]; [auto |].
      apply (dict_mem_In data k2 v2); auto. }
    revert E. unfold rest_step.
    destruct (set_mem (seen_keys st) k2); [intros [= <-]; exact Hst |].
    destruct (find_key_schema vs k2) as [[f key'] |] eqn:Ef.
    + destruct (find_key_schema_key _ _ _ _ Ef k2) as [_ H2].
      destruct (f (p ++ [key'])%list v2) as [v | [e | m]]; intros [= <-]; simpl; auto.
      apply Hset. rewrite H2. apply py_eq_refl.
    + destruct (extra =? PREVENT_EXTRA)%Z; [intros [= <-]; exact Hst |].
      destruct (extra =? ALLOW_EXTRA)%Z; intros [= <-]; simpl; auto.
      apply Hset. apply py_eq_refl.
Qed.



(** ** The elements of the output of a sequence *)

Lemma sequence_loop_elementwise :
  forall validators p data i result result',
    sequence_loop validators p i data result = inr result' ->
    exists ys,
      result' = (result ++ ys)%list
      /\ List.length ys = List.length data
      /\ forall j x,
           nth_error data j = Some x ->
           exists y, nth_error ys j = Some y
                     /\ try_validators validators (OInt (i + Z.of_nat j) :: p) x
                        = Some (Ret y).
Proof.
  intros validators p. induction data as [| value data IH]; simpl; intros i result result' H.
  - injection H as <-. exists []. rewrite app_nil_r. repeat split.
    intros [| j] x Hx; discriminate Hx.
  - destruct (try_validators validators (OInt i :: p) value) as [[v | e] |] eqn:E;
      try discriminate.
    destruct (IH _ _ _ H) as (ys & -> & Hlen & Hnth).
    exists (v :: ys). rewrite <- app_assoc. simpl. repeat split; [congruence |].
    intros [| j] x Hx; simpl in Hx.
    + injection Hx as <-. exists v. rewrite Z.add_0_r. auto.
    + destruct (Hnth j x Hx) as (y & Hy & Ht). exists y. split; [exact Hy |].
      replace (i + Z.of_nat (S j))%Z with (i + 1 + Z.of_nat j)%Z by lia. exact Ht.
Qed.

(** A list or tuple validator returns only on an input of its kind, and
    returns a sequence of the same kind and of the same length: the element
    at index [i] of the output is what the first candidate that raises no
    [Invalid] returns for the element at index [i] of the input, validated at
    the path [[i] + path]. *)
Theorem sequence_output_elementwise :
  forall validators seq_type p data result,
    seq_type = CList \/ seq_type = CTuple ->
    validate_sequence validators seq_type p data = Ret result ->
    isinstance data seq_type = true
    /\ isinstance result seq_type = true
    /\ List.length (elements result) = List.length (elements data)
    /\ forall i x,
         nth_error (elements data) i = Some x ->
         exists y, nth_error (elements result) i = Some y
                   /\ try_validators validators (OInt (Z.of_nat i) :: p) x = Some (Ret y).
Proof.
  intros validators seq_type p data result Hkind. unfold validate_sequence.
  destruct (isinstance data seq_type) eqn:Hinst; simpl; [| discriminate].
  assert (Hloop : match sequence_loop validators p 0 (elements data) [] with
                  | inl e => Raise e
                  | inr result0 => Ret (make_seq seq_type result0)
                  end = Ret result ->
                  true = true
                  /\ isinstance result seq_type = true
                  /\ List.length (elements result) = List.length (elements data)
                  /\ forall i x,
                       nth_error (elements data) i = Some x ->
                       exists y, nth_error (elements result) i = Some y
                                 /\ try_validators validators (OInt (Z.of_nat i) :: p) x
                                    = Some (Ret y)).
  { destruct (sequence_loop validators p 0 (elements data) []) as [e | ys] eqn:E;
      [discriminate |].
    intros [= <-].
    destruct (sequence_loop_elementwise _ _ _ _ _ _ E) as (ys' & -> & Hlen & Hnth).
    simpl app. split; [reflexivity |].
    destruct Hkind as [-> | ->]; simpl; auto. }
  destruct validators as [| f validators]; [| exact Hloop].
  destruct (elements data); [exact Hloop | discriminate].
Qed.

Lemma sequence_output_elementwise_witness :
  validate_sequence [validate_instance CStr; validate_instance CInt] CList []
    (OList [OInt 1; OStr "x"]) = Ret (OList [OInt 1; OStr "x"])
  /\ List.length (elements (OList [OInt 1; OStr "x"]))
     = List.length (elements (OList [OInt 1; OStr "x"])).
Proof.
  split; [reflexivity |].
  apply (sequence_output_elementwise
           [validate_instance CStr; validate_instance CInt] CList []
           (OList [OInt 1; OStr "x"]) (OList [OInt 1; OStr "x"])
           (or_introl eq_refl) eq_refl).
Defined.

(** ** [==] on objects without sets and dicts *)

Lemma cls_eqb_eq : forall c d, cls_eqb c d = true -> c = d.
Proof. intros c d. destruct c, d; simpl; congruence. Qed.

Lemma eq_plain_sym :
  forall a, set_free a = true -> forall o, eq_plain a o = eq_plain o a.
Proof.
  induction a using obj_induction; intros Hfree o; try discriminate Hfree;
    try (destruct o; simpl; try reflexivity; apply Z.eqb_sym).
  - destruct o; simpl; try reflexivity. apply String.eqb_sym.
  - destruct o as [| | | | | | m | | | | | |]; try reflexivity. simpl in Hfree |- *.
    revert m. induction H as [| x l Hx _ IH]; intros [| y m]; try reflexivity.
    simpl in Hfree. apply andb_true_iff in Hfree. destruct Hfree as [Hfx Hfl].
    rewrite (Hx Hfx y), (IH Hfl m). reflexivity.
  - destruct o as [| | | | | | | m | | | | |]; try reflexivity. simpl in Hfree |- *.
    revert m. induction H as [| x l Hx _ IH]; intros [| y m]; try reflexivity.
    simpl in Hfree. apply andb_true_iff in Hfree. destruct Hfree as [Hfx Hfl].
    rewrite (Hx Hfx y), (IH Hfl m). reflexivity.
  - destruct o as [| | | | | | | | | | d | |]; simpl; try reflexivity.
    destruct c, d; reflexivity.
Qed.

Lemma eq_plain_trans :
  forall a, set_free a = true ->
            forall o q, eq_plain a o = true -> eq_plain o q = true -> eq_plain a q = true.
Proof.
  induction a using obj_induction; intros Hfree o q Hab Hbc; try discriminate Hfree;
    try (destruct o; try discriminate Hab; destruct q; try discriminate Hbc;
         simpl in *; try reflexivity;
         apply Z.eqb_eq in Hab; apply Z.eqb_eq in Hbc; apply Z.eqb_eq; congruence).
  - destruct o; try discriminate Hab; destruct q; try discriminate Hbc. simpl in *.
    apply String.eqb_eq in Hab, Hbc. apply String.eqb_eq. congruence.
  - destruct o as [| | | | | | m | | | | | |]; try discriminate Hab.
    destruct q as [| | | | | | n | | | | | |]; try discriminate Hbc.
    simpl in Hfree, Hab, Hbc |- *.
    revert m n Hab Hbc. induction H as [| x l Hx _ IH]; intros [| y m] [| z n] Hab Hbc;
      try discriminate; try reflexivity.
    simpl in Hfree. apply andb_true_iff in Hfree. destruct Hfree as [Hfx Hfl].
    apply andb_true_iff in Hab. destruct Hab as [Hxy Hlm].
    apply andb_true_iff in Hbc. destruct Hbc as [Hyz Hmn].
    rewrite (Hx Hfx y z Hxy Hyz), (IH Hfl m n Hlm Hmn). reflexivity.
  - destruct o as [| | | | | | | m | | | | |]; try discriminate Hab.
    destruct q as [| | | | | | | n | | | | |]; try discriminate Hbc.
    simpl in Hfree, Hab, Hbc |- *.
    revert m n Hab Hbc. induction H as [| x l Hx _ IH]; intros [| y m] [| z n] Hab Hbc;
      try discriminate; try reflexivity.
    simpl in Hfree. apply andb_true_iff in Hfree. destruct Hfree as [Hfx Hfl].
    apply andb_true_iff in Hab. destruct Hab as [Hxy Hlm].
    apply andb_true_iff in Hbc. destruct Hbc as [Hyz Hmn].
    rewrite (Hx Hfx y z Hxy Hyz), (IH Hfl m n Hlm Hmn). reflexivity.
  - destruct o as [| | | | | | | | | | d | |]; try discriminate Hab.
    destruct q as [| | | | | | | | | | e | |]; try discriminate Hbc. simpl in *.
    apply cls_eqb_eq in Hab, Hbc. subst. destruct e; reflexivity.
Qed.

Lemma set_free_unmark : forall o, set_free o = true -> set_free (unmark o) = true.
Proof.
  induction o using obj_induction; simpl; intro Hfree; auto.
  - rewrite forallb_forall in *. intros x Hx. apply in_map_iff in Hx.
    destruct Hx as (y & <- & Hy). rewrite Forall_forall in H. auto.
  - rewrite forallb_forall in *. intros x Hx. apply in_map_iff in Hx.
    destruct Hx as (y & <- & Hy). rewrite Forall_forall in H. auto.
Qed.

Lemma py_eq_sym : forall a o, set_free a = true -> py_eq a o = py_eq o a.
Proof.
  intros a o Hfree. unfold py_eq. apply eq_plain_sym, set_free_unmark, Hfree.
Qed.

Lemma py_eq_trans :
  forall a o q,
    set_free a = true -> py_eq a o = true -> py_eq o q = true -> py_eq a q = true.
Proof.
  intros a o q Hfree. unfold py_eq. apply eq_plain_trans, set_free_unmark, Hfree.
Qed.



(** ** [Schema.extend] *)

Lemma dict_get_set_same :
  forall (d : dict) key value, dict_get (dict_set d key value) key = Some value.
Proof.
  induction d as [| [k v] d IH]; simpl; intros key value.
  - rewrite py_eq_refl. reflexivity.
  - destruct (py_eq k key) eqn:E; simpl; rewrite E; auto.
Qed.

Lemma dict_get_set_other :
  forall (d : dict) key value k,
    set_free key = true ->
    py_eq key k = false ->
    dict_get (dict_set d key value) k = dict_get d k.
Proof.
  intros d key value k Hfree Hne.
  assert (Hstored : forall ks, py_eq ks key = true -> py_eq ks k = false).
  { intros ks H1. destruct (py_eq ks k) eqn:H2; [| reflexivity].
    rewrite (py_eq_trans key ks k Hfree) in Hne; [discriminate | | exact H2].
    rewrite (py_eq_sym key ks Hfree). exact H1. }
  induction d as [| [k0 v0] d IH]; simpl.
  - rewrite Hne. reflexivity.
  - destruct (py_eq k0 key) eqn:E; simpl.
    + rewrite (Hstored k0 E). reflexivity.
    + destruct (py_eq k0 k); auto.
Qed.

Lemma dict_update_fresh :
  forall (items d : dict),
    (forall k k', In k (map fst d) -> In k' (map fst items) -> py_eq k k' = false) ->
    keys_distinct (map fst items) = true ->
    dict_update d items = (d ++ items)%list.
Proof.
  unfold dict_update.
  induction items as [| [k v] items IH]; simpl; intros d Hd Hdist.
  - symmetry. apply app_nil_r.
  - apply andb_true_iff in Hdist. destruct Hdist as [Hk Hdist].
    rewrite forallb_forall in Hk.
    rewrite dict_set_fresh by (intros k0 Hk0; apply Hd; simpl; auto).
    rewrite IH; auto.
    + rewrite <- app_assoc. reflexivity.
    + intros k0 k' Hk0 Hk'. rewrite map_app in Hk0. apply in_app_or in Hk0.
      destruct Hk0 as [Hk0 | [<- | []]].
      * apply Hd; simpl; auto.
      * specialize (Hk k' Hk'). apply negb_true_iff in Hk. exact Hk.
Qed.

(** Looking a key up after an update: the value of the last item of the
    update whose key is equal to it, or else what was there. *)
Lemma dict_get_update :
  forall (items d : dict),
    forallb set_free (map fst items) = true ->
    keys_distinct (map fst items) = true ->
    (forall k v, In (k, v) items -> dict_get (dict_update d items) k = Some v)
    /\ (forall k, (forall k2, In k2 (map fst items) -> py_eq k2 k = false) ->
                  dict_get (dict_update d items) k = dict_get d k).
Proof.
  unfold dict_update.
  induction items as [| [k0 v0] items IH]; simpl; intros d Hfree Hdist.
  - split; [intros k v [] | reflexivity].
  - apply andb_true_iff in Hfree. destruct Hfree as [Hf0 Hfree].
    apply andb_true_iff in Hdist. destruct Hdist as [Hk0 Hdist].
    rewrite forallb_forall in Hk0.
    destruct (IH (dict_set d k0 v0) Hfree Hdist) as [IH1 IH2].
    split.
    + intros k v [[= <- <-] | Hin]; [| auto].
      rewrite IH2; [apply dict_get_set_same |].
      intros k2 Hk2. specialize (Hk0 k2 Hk2). apply negb_true_iff in Hk0.
      rewrite <- (py_eq_sym k0 k2 Hf0). exact Hk0.
    + intros k Hk. rewrite IH2 by auto.
      apply dict_get_set_other; auto.
Qed.

Lemma key_like_set_free : forall o, key_like o = true -> set_free o = true.
Proof.
  induction o using obj_induction; simpl; intro Hk; try discriminate; auto.
  - rewrite forallb_forall in *. rewrite Forall_forall in H. auto.
  - destruct k; try discriminate; auto.
Qed.

(** [extend] gives the union of the two mappings in which the keys of the
    extension override: in the new schema a key of the extension has the
    extension's value, and a key equal to no key of the extension has the
    value it has in the receiver; [required] and [extra] are the receiver's
    unless given.  (The keys of either dict are pairwise different and hash
    by value: none is or holds a [Remove] marker.) *)
Theorem extend_overrides :
  forall self schema_arg required_arg extra_arg result self_items other_items,
    schema self = ODict self_items ->
    schema_arg = inl (ODict other_items)
    \/ (exists other, schema_arg = inr other /\ schema other = ODict other_items) ->
    keys_distinct (map fst self_items) = true ->
    keys_distinct (map fst other_items) = true ->
    forallb key_like (map fst self_items) = true ->
    forallb key_like (map fst other_items) = true ->
    Schema_extend self schema_arg required_arg extra_arg = inr result ->
    exists new_items,
      schema result = ODict new_items
      /\ (forall k v, In (k, v) other_items -> dict_get new_items k = Some v)
      /\ (forall k, (forall k2, In k2 (map fst other_items) -> py_eq k2 k = false) ->
                    dict_get new_items k = dict_get self_items k)
      /\ required result = match required_arg with Some r => r | None => required self end
      /\ extra result = match extra_arg with Some e => e | None => extra self end.
Proof.
  intros self schema_arg required_arg extra_arg result self_items other_items
         Hself Harg Hd1 Hd2 _ Hlike.
  assert (Hfree : forallb set_free (map fst other_items) = true).
  { rewrite forallb_forall in *. intros k Hk. apply key_like_set_free. auto. }
  clear Hlike. unfold Schema_extend. rewrite Hself.
  assert (Hinit : forall s r e res, Schema_init s r e = inr res ->
                                    schema res = s /\ required res = r /\ extra res = e).
  { intros s r e res. unfold Schema_init. destruct (_compile e s); [discriminate |].
    intros [= <-]. auto. }
  assert (Hmain : Schema_init
                    (ODict (dict_update (dict_update [] self_items) other_items))
                    match required_arg with Some r => r | None => required self end
                    match extra_arg with Some e => e | None => extra self end
                  = inr result ->
                  exists new_items,
                    schema result = ODict new_items
                    /\ (forall k v, In (k, v) other_items -> dict_get new_items k = Some v)
                    /\ (forall k, (forall k2, In k2 (map fst other_items) ->
                                              py_eq k2 k = false) ->
                                  dict_get new_items k = dict_get self_items k)
                    /\ required result
                       = match required_arg with Some r => r | None => required self end
                    /\ extra result
                       = match extra_arg with Some e => e | None => extra self end).
  { intro H. destruct (Hinit _ _ _ _ H) as (Hs & Hr & He).
    eexists. split; [exact Hs |].
    destruct (dict_get_update other_items (dict_update [] self_items) Hfree Hd2)
      as [H1 H2].
    repeat split; auto.
    intros k Hk. rewrite (H2 k Hk).
    rewrite dict_update_fresh; [reflexivity | intros k0 k' [] | exact Hd1]. }
  destruct Harg as [-> | (other & -> & Hother)].
  - destruct (Schema_init (ODict other_items) false PREVENT_EXTRA) as [m | other] eqn:E;
      [discriminate |].
    destruct (Hinit _ _ _ _ E) as (-> & _ & _). exact Hmain.
  - rewrite Hother. exact Hmain.
Qed.

Lemma extend_overrides_witness :
  exists result,
    Schema_extend
      (mk_Schema Examples.a_str false PREVENT_EXTRA
         (validate_dict PREVENT_EXTRA [] [(OStr "a", run (inr (validate_instance CStr)))]))
      (inl (ODict [(OStr "a", OClass CInt); (OStr "b", OClass CInt)])) None None
    = inr result
    /\ exists new_items,
         schema result = ODict new_items
         /\ dict_get new_items (OStr "a") = Some (OClass CInt).
Proof.
  eexists. split; [reflexivity |].
  destruct (extend_overrides
              (mk_Schema Examples.a_str false PREVENT_EXTRA
                 (validate_dict PREVENT_EXTRA []
                    [(OStr "a", run (inr (validate_instance CStr)))]))
              (inl (ODict [(OStr "a", OClass CInt); (OStr "b", OClass CInt)])) None None
              _ [(OStr "a", OClass CStr)]
              [(OStr "a", OClass CInt); (OStr "b", OClass CInt)]
              eq_refl (or_introl eq_refl) eq_refl eq_refl eq_refl eq_refl eq_refl)
    as (new_items & Hs & Hover & _).
  exists new_items. split; [exact Hs |]. apply Hover. left. reflexivity.
Defined.

(** Extending a mapping schema by the empty dict, with no option given,
    constructs the receiver again. *)
Theorem extend_by_empty :
  forall items r e self,
    keys_distinct (map fst items) = true ->
    Schema_init (ODict items) r e = inr self ->
    Schema_extend self (inl (ODict [])) None None = inr self.
Proof.
  intros items r e self Hd Hinit.
  assert (Hs : schema self = ODict items /\ required self = r /\ extra self = e).
  { revert Hinit. unfold Schema_init. destruct (_compile e (ODict items));
      [discriminate |]. intros [= <-]. auto. }
  destruct Hs as (Hs & Hr & He).
  unfold Schema_extend. rewrite Hs.
  change (Schema_init (ODict []) false PREVENT_EXTRA)
    with (@inr string Schema (mk_Schema (ODict []) false PREVENT_EXTRA
                                (validate_dict PREVENT_EXTRA [] []))).
  cbn [schema dict_update fold_left]. rewrite Hr, He.
  change (fold_left (fun d item => dict_set d (fst item) (snd item)) items [])
    with (dict_update [] items).
  rewrite dict_update_fresh; [exact Hinit | intros k k' [] | exact Hd].
Qed.

Lemma extend_by_empty_witness :
  keys_distinct (map fst [(OStr "a", OClass CStr)]) = true
  /\ Schema_extend
       (mk_Schema Examples.a_str true ALLOW_EXTRA
          (validate_dict ALLOW_EXTRA [] [(OStr "a", run (inr (validate_instance CStr)))]))
       (inl (ODict [])) None None
     = inr (mk_Schema Examples.a_str true ALLOW_EXTRA
              (validate_dict ALLOW_EXTRA [] [(OStr "a", run (inr (validate_instance CStr)))])).
Proof.
  split; [reflexivity |].
  apply (extend_by_empty [(OStr "a", OClass CStr)] true ALLOW_EXTRA _ eq_refl eq_refl).
Defined.

(** ** The wrappers [Marker] and [Msg] *)

(** A marker other than [Remove], and a [Msg], accept exactly the values
    that the wrapped schema accepts at the empty path, and return what it
    returns; a [SchemaError] passes; the [Invalid] that a [Msg] raises is the
    aggregate of the wrapped schema when its path is longer than one, and
    else the custom failure, with the empty path; for a marker likewise, but
    that without [msg] the aggregate is always kept. *)
Theorem wrappers_are_transparent :
  forall marker_msg msg cls compiled v,
    (forall y, Marker_call marker_msg compiled v = Ret y <-> compiled [] v = Ret y)
    /\ (forall y, Msg_call msg cls compiled v = Ret y <-> compiled [] v = Ret y)
    /\ (forall m, compiled [] v = Raise (ESchemaError m) ->
                  Marker_call marker_msg compiled v = Raise (ESchemaError m)
                  /\ Msg_call msg cls compiled v = Raise (ESchemaError m))
    /\ (forall e, Msg_call msg cls compiled v = Raise (EInvalid e) ->
                  (is_MultipleInvalid e = true /\ (1 < List.length (inv_path e))%nat)
                  \/ e = Inv (match cls with Some c => c | None => Invalid end) msg [])
    /\ (forall e, Marker_call marker_msg compiled v = Raise (EInvalid e) ->
                  is_MultipleInvalid e = true
                  \/ (msg_falsy marker_msg = false
                      /\ e = Inv Invalid (match marker_msg with Some s => s | None => "" end) [])).
Proof.
  intros marker_msg msg cls compiled v.
  unfold Marker_call, Msg_call, Schema_call_compiled.
  destruct (compiled [] v) as [y0 | [e0 | m0]] eqn:E.
  - repeat split; try (intros; congruence).
  - assert (Hagg : exists e1, (if is_MultipleInvalid e0 then Raise (EInvalid e0)
                               else Raise (EInvalid (new_MultipleInvalid [e0])))
                              = Raise (EInvalid e1) /\ is_MultipleInvalid e1 = true).
    { destruct (is_MultipleInvalid e0) eqn:Em; eauto. }
    destruct Hagg as (e1 & -> & He1).
    repeat split; try (intros; discriminate).
    + destruct (msg_falsy marker_msg || (1 <? List.length (inv_path e1))%nat); discriminate.
    + destruct ((1 <? List.length (inv_path e1))%nat); discriminate.
    + intro e. destruct ((1 <? List.length (inv_path e1))%nat) eqn:El.
      * intros [= <-]. left. split; [exact He1 | apply Nat.ltb_lt; exact El].
      * intros [= <-]. right. reflexivity.
    + intro e. destruct (msg_falsy marker_msg) eqn:Ef; simpl.
      * intros [= <-]. left. exact He1.
      * destruct ((1 <? List.length (inv_path e1))%nat).
        -- intros [= <-]. left. exact He1.
        -- intros [= <-]. right. split; reflexivity.
  - repeat split; try (intros; congruence).
Qed.

Lemma wrappers_are_transparent_witness :
  validate_instance CInt [] (OInt 3) = Ret (OInt 3)
  /\ Msg_call "not an int" None (validate_instance CInt) (OInt 3) = Ret (OInt 3).
Proof.
  split; [reflexivity |].
  apply (proj2 (proj1 (proj2 (wrappers_are_transparent
                                None "not an int" None (validate_instance CInt) (OInt 3)))
                  (OInt 3)) eq_refl).
Defined.

(** ** Equality of schemas *)



(** ** Markers as keys *)

Lemma same_key_role_facts :
  forall k k',
    same_key_role k k' ->
    is_Marker k = is_Marker k'
    /\ is_Required k = is_Required k'
    /\ py_str k = py_str k'
    /\ (forall x, py_eq k x = py_eq k' x)
    /\ (is_Required k = true -> k = k')
    /\ ((exists c, k = OClass c) \/ (exists c, k' = OClass c) -> k = k').
Proof.
  intros k k' [<- | (kd & kd' & s & m & m' & d & d' & -> & -> & Hk & Hk')].
  - repeat split; auto.
  - repeat split.
    + destruct kd, kd'; simpl; congruence.
    + intro H. destruct kd; simpl in H; congruence.
    + intros [[c H] | [c H]]; discriminate H.
Qed.

Lemma sorted_insert_same_roles :
  forall (A : Type) (R : obj * A -> obj * A -> Prop) x x' l l',
    (forall a a', R a a' -> _sort_item a = _sort_item a') ->
    R x x' -> Forall2 R l l' ->
    Forall2 R (sorted_insert sort_key_le _sort_item x l)
      (sorted_insert sort_key_le _sort_item x' l').
Proof.
  intros A R x x' l l' Hkey Hx H. induction H as [| y y' l l' Hy Hl IH]; simpl.
  - constructor; [exact Hx | constructor].
  - rewrite (Hkey _ _ Hx), (Hkey _ _ Hy).
    destruct (sort_key_le (_sort_item x') (_sort_item y')).
    + constructor; [exact Hx | constructor; assumption].
    + constructor; assumption.
Qed.

Lemma candidates_same_roles :
  forall (A : Type) (R : obj * A -> obj * A -> Prop) l l',
    (forall a a', R a a' -> _sort_item a = _sort_item a') ->
    Forall2 R l l' ->
    Forall2 R (_iterate_mapping_candidates l) (_iterate_mapping_candidates l').
Proof.
  intros A R l l' Hkey H. unfold _iterate_mapping_candidates.
  induction H; simpl; [constructor |].
  apply sorted_insert_same_roles; assumption.
Qed.

Lemma find_key_schema_same_roles :
  forall (vs vs' : value_schema_t) key,
    Forall2 (fun a a' => same_key_role (fst a) (fst a') /\ snd a = snd a') vs vs' ->
    find_key_schema vs key = find_key_schema vs' key.
Proof.
  intros vs vs' key H. induction H as [| [k f] [k' f'] vs vs' [Hk Hf] _ IH]; simpl;
    [reflexivity |].
  simpl in Hk, Hf. subst f'.
  destruct (same_key_role_facts _ _ Hk) as (_ & _ & _ & Heq & _ & Hcls).
  rewrite <- Heq. destruct (py_eq k key); [reflexivity |].
  destruct k as [| | | | | | | | | | c | |].
  11: { rewrite <- (Hcls (or_introl (ex_intro _ c eq_refl))).
        destruct (isinstance key c); [reflexivity | exact IH]. }
  all: destruct k' as [| | | | | | | | | | c' | |]; try exact IH;
    discriminate (Hcls (or_intror (ex_intro _ c' eq_refl))).
Qed.

Lemma rest_loop_same_roles :
  forall extra (vs vs' : value_schema_t) p items st,
    (forall key, find_key_schema vs key = find_key_schema vs' key) ->
    rest_loop extra vs p items st = rest_loop extra vs' p items st.
Proof.
  intros extra vs vs' p items st Hfind. revert st.
  induction items as [| [k v] items IH]; simpl; intro st; [reflexivity |].
  unfold rest_step. rewrite Hfind.
  match goal with |- match ?x with _ => _ end = _ => destruct x end; auto.
Qed.

(** A mapping validator sees of a key that is no [Required] marker only the
    schema it wraps: replacing such a marker by any other one on the same
    schema ([Optional], [Exclusive], [Inclusive], [Remove], [Marker], with any
    message, group and default) changes no result of the validator, and
    not whether the construction raises [SchemaError]. *)
Theorem marker_class_of_keys_ignored :
  forall extra items items',
    same_roles items items' ->
    (forall m, _compile extra (ODict items) = inl m <-> _compile extra (ODict items') = inl m)
    /\ forall p data,
         run (_compile extra (ODict items)) p data
         = run (_compile extra (ODict items')) p data.
Proof.
  intros extra items items' H. cbn [_compile]. unfold _compile_mapping.
  set (R := fun a a' : obj * validator =>
              same_key_role (fst a) (fst a') /\ snd a = snd a').
  assert (HR : Forall2 R
                 (map (fun '(key, value) => (key, run (_compile extra value))) items)
                 (map (fun '(key, value) => (key, run (_compile extra value))) items')).
  { induction H as [| [k v] [k' v'] l l' [Hk Hv] _ IH]; simpl; constructor; auto.
    simpl in Hk, Hv. subst v'. split; auto. }
  assert (Hkey : forall a a', R a a' -> _sort_item a = _sort_item a').
  { intros [k f] [k' f'] [Hk _]. simpl in Hk. unfold _sort_item.
    destruct (same_key_role_facts _ _ Hk) as (-> & -> & -> & _). reflexivity. }
  pose proof (candidates_same_roles _ R _ _ Hkey HR) as Hvs.
  set (vs := _iterate_mapping_candidates
               (map (fun '(key, value) => (key, run (_compile extra value))) items)) in *.
  set (vs' := _iterate_mapping_candidates
                (map (fun '(key, value) => (key, run (_compile extra value))) items')) in *.
  assert (Hnames : map py_str (filter is_Marker (map fst vs))
                   = map py_str (filter is_Marker (map fst vs'))).
  { clearbody vs vs'. induction Hvs as [| [k f] [k' f'] l l' [Hk _] _ IH]; simpl;
      [reflexivity |].
    simpl in Hk. destruct (same_key_role_facts _ _ Hk) as (Hm & _ & Hs & _).
    rewrite <- Hm. destruct (is_Marker k); simpl; [rewrite Hs |]; congruence. }
  assert (Hreq : filter (fun item : obj * validator => is_Required (fst item)) vs
                 = filter (fun item : obj * validator => is_Required (fst item)) vs').
  { clear Hnames. clearbody vs vs'.
    induction Hvs as [| [k f] [k' f'] l l' [Hk Hf] _ IH]; simpl; [reflexivity |].
    simpl in Hk, Hf. destruct (same_key_role_facts _ _ Hk) as (_ & Hr & _ & _ & Hsame & _).
    rewrite <- Hr. destruct (is_Required k) eqn:E; [| exact IH].
    rewrite <- (Hsame eq_refl), Hf, IH. reflexivity. }
  rewrite <- Hnames, <- Hreq.
  destruct (negb _).
  - split; [tauto | reflexivity].
  - split; [split; discriminate |].
    intros p data. unfold run, validate_dict.
    destruct data; try reflexivity.
    destruct (required_loop p items0 _ (mk_dstate [] [] [])) as [x | st1]; [reflexivity |].
    rewrite (rest_loop_same_roles extra vs vs'); [reflexivity |].
    intro key. apply find_key_schema_same_roles. exact Hvs.
Qed.

Lemma marker_class_of_keys_ignored_witness :
  same_roles [(Examples.Optional "key" (OStr "value"), OClass CStr)]
             [(Examples.Remove (OStr "key"), OClass CStr)]
  /\ run (_compile PREVENT_EXTRA (ODict [(Examples.Optional "key" (OStr "value"), OClass CStr)]))
       [] (ODict [(OStr "key", OStr "x")])
     = run (_compile PREVENT_EXTRA (ODict [(Examples.Remove (OStr "key"), OClass CStr)]))
         [] (ODict [(OStr "key", OStr "x")]).
Proof.
  assert (H : same_roles [(Examples.Optional "key" (OStr "value"), OClass CStr)]
                         [(Examples.Remove (OStr "key"), OClass CStr)]).
  { constructor; [| constructor]. split; [| reflexivity]. right.
    exists KOptional, KRemove, (OStr "key"), None, None, (OStr "value"), OUndefined.
    repeat split; discriminate. }
  split; [exact H |].
  apply (proj2 (marker_class_of_keys_ignored PREVENT_EXTRA _ _ H)).
Defined.

(** ** [humanize_error] *)

Lemma humanize_leaf_raises :
  forall data p n, exists x, humanize_leaf data p n = inl x.
Proof.
  intros data p n. unfold humanize_leaf. destruct (walk data p); eauto.
Qed.

(** [humanize_error] returns a text exactly for the aggregates that hold no
    failure but aggregates. *)
Lemma humanize_error_returns_iff :
  forall data n e,
    (exists s, humanize_error data e n = inr s) <-> leaves e = [].
Proof.
  intros data n. induction e as [c m p | errs p H] using invalid_induction.
  - simpl. destruct (humanize_leaf_raises data p n) as [x ->]. split.
    + intros [s H]. discriminate H.
    + discriminate.
  - cbn [humanize_error leaves].
    set (lines := fix lines (l : list invalid) : pyerr + list string :=
                    match l with
                    | [] => inr []
                    | sub_error :: l' =>
                        match humanize_error data sub_error n with
                        | inl e => inl e
                        | inr line =>
                            match lines l' with
                            | inl e => inl e
                            | inr rest => inr (line :: rest)
                            end
                        end
                    end).
    assert (Hlines : (exists ls, lines errs = inr ls) <-> flat_map leaves errs = []).
    { induction H as [| e errs He _ IH]; simpl.
      - split; eauto.
      - split.
        + intros [ls Hls].
          destruct (humanize_error data e n) as [x | line] eqn:E; [discriminate |].
          destruct (lines errs) as [x | rest]; [discriminate |].
          rewrite (proj1 He (ex_intro _ line eq_refl)).
          rewrite (proj1 IH (ex_intro _ rest eq_refl)). reflexivity.
        + intro Hnil. apply app_eq_nil in Hnil. destruct Hnil as [H1 H2].
          destruct (proj2 He H1) as [line ->]. destruct (proj2 IH H2) as [rest ->]. eauto. }
    split.
    + intros [s Hs]. apply Hlines. destruct (lines errs); [discriminate | eauto].
    + intro Hnil. destruct (proj2 Hlines Hnil) as [ls ->]. eauto.
Qed.

Lemma leaves_prepend_path :
  forall p e, leaves e <> [] -> leaves (prepend_path p e) <> [].
Proof. intros p [c m q | errs q]; simpl; [discriminate | auto]. Qed.

Lemma Schema_call_compiled_leaf :
  forall f, fails_with_leaf f ->
            forall x e, Schema_call_compiled f x = Raise (EInvalid e) -> leaves e <> [].
Proof.
  intros f Hf x e. unfold Schema_call_compiled.
  destruct (f [] x) as [v | [e0 | m]] eqn:E; try discriminate.
  pose proof (Hf _ _ _ E) as Hleaf.
  destruct (is_MultipleInvalid e0); intros [= <-]; [exact Hleaf |].
  simpl. rewrite app_nil_r. exact Hleaf.
Qed.

Lemma marker_fails_with_leaf :
  forall msg f,
    fails_with_leaf f ->
    fails_with_leaf (validate_callable (Marker_call msg f))
    /\ fails_with_leaf (validate_callable (Remove_call msg f)).
Proof.
  intros msg f Hf.
  assert (HM : forall x e, Marker_call msg f x = Raise (EInvalid e) -> leaves e <> []).
  { intros x e. unfold Marker_call.
    destruct (Schema_call_compiled f x) as [v | [e0 | m]] eqn:E; try discriminate.
    pose proof (Schema_call_compiled_leaf f Hf _ _ E) as Hleaf.
    destruct (msg_falsy msg || (1 <? List.length (inv_path e0))%nat); intros [= <-];
      [exact Hleaf | discriminate]. }
  split; intros p x e; unfold validate_callable, Remove_call.
  - destruct (Marker_call msg f x) as [v | [e0 | m]] eqn:E; try discriminate.
    intros [= <-]. apply leaves_prepend_path. eapply HM; eauto.
  - destruct (Marker_call msg f x) as [v | [e0 | m]] eqn:E; try discriminate.
    intros [= <-]. apply leaves_prepend_path. eapply HM; eauto.
Qed.

Lemma try_validators_no_Invalid :
  forall validators p x e, try_validators validators p x <> Some (Raise (EInvalid e)).
Proof.
  induction validators as [| f validators IH]; simpl; intros p x e; [discriminate |].
  destruct (f p x) as [v | [e0 | m]]; [discriminate | apply IH | discriminate].
Qed.

Lemma validate_sequence_fails_with_leaf :
  forall validators seq_type, fails_with_leaf (validate_sequence validators seq_type).
Proof.
  intros validators seq_type p x e. unfold validate_sequence.
  destruct (negb (isinstance x seq_type)); [intros [= <-]; discriminate |].
  assert (Hloop : forall data i result e0,
             sequence_loop validators p i data result = inl (EInvalid e0) ->
             leaves e0 <> []).
  { induction data as [| value data IH]; simpl; intros i result e0; [discriminate |].
    destruct (try_validators validators (OInt i :: p) value) as [[v | e1] |] eqn:E.
    - apply IH.
    - intros [= ->]. exfalso. eapply try_validators_no_Invalid; eauto.
    - intros [= <-]. discriminate. }
  assert (Hret : match sequence_loop validators p 0 (elements x) [] with
                 | inl e0 => Raise e0
                 | inr result => Ret (make_seq seq_type result)
                 end = Raise (EInvalid e) -> leaves e <> []).
  { destruct (sequence_loop validators p 0 (elements x) []) as [e0 | r] eqn:E;
      [| discriminate].
    intros [= ->]. eapply Hloop; eauto. }
  destruct validators as [| f validators]; [| exact Hret].
  destruct (elements x); [exact Hret | intros [= <-]; discriminate].
Qed.

Lemma find_key_schema_In :
  forall vs key f key',
    find_key_schema vs key = Some (f, key') -> In f (map snd vs).
Proof.
  induction vs as [| [sk sv] vs IH]; simpl; intros key f key' H; [discriminate |].
  destruct (py_eq sk key); [injection H as <- <-; auto |].
  destruct sk; eauto.
  destruct (isinstance key c); [injection H as <- <-; auto | eauto].
Qed.

Lemma validate_dict_fails_with_leaf :
  forall extra rk vs,
    (forall f, In f (map snd rk) -> fails_with_leaf f) ->
    (forall f, In f (map snd vs) -> fails_with_leaf f) ->
    fails_with_leaf (validate_dict extra rk vs).
Proof.
  intros extra rk vs Hrk Hvs p x e. unfold validate_dict.
  destruct x; try (intros [= <-]; discriminate).
  set (ok := fun st : dstate => Forall (fun e0 => leaves e0 <> []) (errors st)).
  assert (Hsnoc : forall st e0, ok st -> leaves e0 <> [] ->
                                Forall (fun e1 => leaves e1 <> []) (errors st ++ [e0])%list).
  { intros st e0 H1 H2. apply Forall_app. split; [exact H1 | constructor; auto]. }
  assert (Hreq : forall rk0 st st',
             (forall f, In f (map snd rk0) -> fails_with_leaf f) ->
             ok st -> required_loop p items rk0 st = inr st' -> ok st').
  { induction rk0 as [| [key sv] rk0 IH]; simpl; intros st st' Hf Hst H.
    - injection H as <-. exact Hst.
    - destruct (required_step p items st key sv) as [y | st1] eqn:E; [discriminate |].
      apply (IH st1 st'); auto. revert E. unfold required_step.
      destruct (dict_get items key) as [value |].
      + destruct (sv (p ++ [key])%list value) as [v | [e0 | m]] eqn:Ev;
          intros [= <-]; unfold ok; simpl; auto.
        apply Hsnoc; auto. eapply (Hf sv); eauto.
      + intros [= <-]. unfold ok; simpl. apply Hsnoc; auto. discriminate. }
  assert (Hrest : forall its st st',
             ok st -> rest_loop extra vs p its st = inr st' -> ok st').
  { induction its as [| [key value] its IH]; simpl; intros st st' Hst H.
    - injection H as <-. exact Hst.
    - destruct (rest_step extra vs p st key value) as [y | st1] eqn:E; [discriminate |].
      apply (IH st1 st'); auto. revert E. unfold rest_step.
      destruct (set_mem (seen_keys st) key); [intros [= <-]; exact Hst |].
      destruct (find_key_schema vs key) as [[f key'] |] eqn:Ef.
      + destruct (f (p ++ [key'])%list value) as [v | [e0 | m]] eqn:Ev;
          intros [= <-]; unfold ok; simpl; auto.
        apply Hsnoc; auto. eapply (Hvs f); eauto. eapply find_key_schema_In; eauto.
      + destruct (extra =? PREVENT_EXTRA)%Z.
        * intros [= <-]. unfold ok; simpl. apply Hsnoc; auto. discriminate.
        * destruct (extra =? ALLOW_EXTRA)%Z; intros [= <-]; unfold ok; simpl; auto. }
  destruct (required_loop p items rk (mk_dstate [] [] [])) as [y | st1] eqn:E1.
  { destruct (required_loop_inl _ _ _ _ _ E1) as [m ->]. discriminate. }
  destruct (rest_loop extra vs p items st1) as [y | st2] eqn:E2.
  { destruct (rest_loop_inl _ _ _ _ _ _ E2) as [m ->]. discriminate. }
  assert (Hok : ok st2).
  { eapply Hrest; [| exact E2]. eapply Hreq; [exact Hrk | | exact E1]. constructor. }
  unfold ok in Hok. destruct (errors st2) as [| e0 l]; [discriminate |].
  intros [= <-]. inversion Hok; subst. simpl.
  intro Hnil. apply app_eq_nil in Hnil. tauto.
Qed.

Lemma run_fails_with_leaf :
  forall f, fails_with_leaf f -> fails_with_leaf (run (inr f)).
Proof. intros f Hf p x e. unfold run. apply Hf. Qed.

Lemma validate_value_fails_with_leaf : forall s, fails_with_leaf (validate_value s).
Proof.
  intros s p x e. unfold validate_value.
  destruct (negb (py_eq x s)); intros [= <-]; discriminate.
Qed.

Lemma _compile_fails_with_leaf :
  forall s extra, fails_with_leaf (run (_compile extra s)).
Proof.
  induction s using obj_induction; intro extra; cbn [_compile];
    try (apply run_fails_with_leaf, validate_value_fails_with_leaf);
    try (apply run_fails_with_leaf, validate_sequence_fails_with_leaf).
  - unfold _compile_mapping.
    match goal with |- context [if ?b then _ else _] => destruct b end;
      [intros p x e; discriminate |].
    apply run_fails_with_leaf.
    assert (Hall : forall f,
               In f (map snd (_iterate_mapping_candidates
                                (map (fun '(key, value) => (key, run (_compile extra value)))
                                   items))) ->
               fails_with_leaf f).
    { intros f Hf. apply in_map_iff in Hf. destruct Hf as ([k g] & <- & Hkg).
      apply (Permutation_in _ (sorted_perm _ _ _ _ _)) in Hkg.
      apply in_map_iff in Hkg. destruct Hkg as ([k0 v] & [= <- <-] & Hkv).
      rewrite Forall_forall in H. destruct (H _ Hkv) as [_ Hv]. apply Hv. }
    apply validate_dict_fails_with_leaf; [| exact Hall].
    intros f Hf. apply Hall. apply in_map_iff in Hf. destruct Hf as (item & <- & Hitem).
    apply filter_In in Hitem. apply in_map. tauto.
  - apply run_fails_with_leaf. intros p x e. unfold validate_instance.
    destruct (isinstance x c); intros [= <-]; discriminate.
  - apply run_fails_with_leaf. intros p x e. unfold validate_callable. discriminate.
  - destruct k; apply run_fails_with_leaf;
      apply (marker_fails_with_leaf msg (run (_compile PREVENT_EXTRA s1)) (IHs1 _)).
Qed.

(** [humanize_error] returns a text only for an aggregate that holds no
    failure but aggregates (reading [error_message] of another failure
    raises [AttributeError], when the walk along its path did not raise
    before); the failure that a schema call raises always holds one, so
    [humanize_error] raises for it, whatever the data and the length. *)
Theorem humanize_error_raises :
  forall data n,
    (forall e, (exists text, humanize_error data e n = inr text) <-> leaves e = [])
    /\ (forall s r x self value e,
          Schema_init s r x = inr self ->
          Schema_call self value = Raise (EInvalid e) ->
          exists err, humanize_error data e n = inl err).
Proof.
  intros data n. split; [apply humanize_error_returns_iff |].
  intros s r x self value e Hinit Hcall.
  assert (Hleaf : leaves e <> []).
  { unfold Schema_init in Hinit.
    pose proof (_compile_fails_with_leaf s x) as Hf.
    destruct (_compile x s) as [m | f]; [discriminate |].
    injection Hinit as <-. unfold Schema_call in Hcall. simpl in Hcall.
    eapply Schema_call_compiled_leaf; eauto. }
  destruct (humanize_error data e n) as [err | text] eqn:E; [eauto |].
  exfalso. apply Hleaf. apply (humanize_error_returns_iff data n e). eauto.
Qed.

Lemma humanize_error_raises_witness :
  Schema_call
    (mk_Schema (OClass CInt) false PREVENT_EXTRA (validate_instance CInt)) (OStr "x")
  = Raise (EInvalid (new_MultipleInvalid [Inv TypeInvalid "expected int for " []]))
  /\ exists err,
       humanize_error (OStr "x")
         (new_MultipleInvalid [Inv TypeInvalid "expected int for " []]) 500 = inl err.
Proof.
  split; [reflexivity |].
  apply (proj2 (humanize_error_raises (OStr "x") 500) (OClass CInt) false PREVENT_EXTRA
           (mk_Schema (OClass CInt) false PREVENT_EXTRA (validate_instance CInt))
           (OStr "x") _ eq_refl eq_refl).
Defined.

(** ** The failures of a sequence validator *)

(** The [Invalid] that a sequence validator raises is one of three, each
    without a path: the wrong kind of container, a non-empty input for an
    empty schema, or an element that every candidate rejects; the failures
    of the candidates, and the index of the element, are not in it. *)
Theorem sequence_failures_have_no_path :
  forall validators seq_type p data e,
    validate_sequence validators seq_type p data = Raise (EInvalid e) ->
    e = Inv SequenceTypeInvalid ("expected a " ++ cls_name seq_type) []
    \/ e = Inv Invalid "not a valid value" []
    \/ e = Inv Invalid "not a valid value for sequence item" [].
Proof.
  intros validators seq_type p data e. unfold validate_sequence.
  destruct (negb (isinstance data seq_type)); [intros [= <-]; auto |].
  assert (Hloop : forall l i result e0,
             sequence_loop validators p i l result = inl (EInvalid e0) ->
             e0 = Inv Invalid "not a valid value for sequence item" []).
  { induction l as [| value l IH]; simpl; intros i result e0; [discriminate |].
    destruct (try_validators validators (OInt i :: p) value) as [[v | e1] |] eqn:E.
    - apply IH.
    - intros [= ->]. exfalso. eapply try_validators_no_Invalid; eauto.
    - intros [= <-]. reflexivity. }
  assert (Hret : match sequence_loop validators p 0 (elements data) [] with
                 | inl e0 => Raise e0
                 | inr result => Ret (make_seq seq_type result)
                 end = Raise (EInvalid e) ->
                 e = Inv Invalid "not a valid value for sequence item" []).
  { destruct (sequence_loop validators p 0 (elements data) []) as [e0 | r] eqn:E;
      [| discriminate].
    intros [= ->]. eapply Hloop; eauto. }
  destruct validators as [| f validators]; [| auto].
  destruct (elements data); [auto | intros [= <-]; auto].
Qed.

Lemma sequence_failures_have_no_path_witness :
  validate_sequence [validate_instance CInt] CList [OStr "a"] (OList [OInt 1; OStr "x"])
  = Raise (EInvalid (Inv Invalid "not a valid value for sequence item" []))
  /\ (Inv Invalid "not a valid value for sequence item" []
      = Inv SequenceTypeInvalid ("expected a " ++ cls_name CList) []
      \/ Inv Invalid "not a valid value for sequence item" []
         = Inv Invalid "not a valid value" []
      \/ Inv Invalid "not a valid value for sequence item" []
         = Inv Invalid "not a valid value for sequence item" []).
Proof.
  split; [reflexivity |].
  apply (sequence_failures_have_no_path [validate_instance CInt] CList [OStr "a"]
           (OList [OInt 1; OStr "x"]) _ eq_refl).
Defined.

(** ** The policies differ on unmatched keys only *)

Lemma rest_loop_accepted_any_policy :
  forall extra vs p items st st',
    rest_loop PREVENT_EXTRA vs p items st = inr st' ->
    errors st' = [] ->
    rest_loop extra vs p items st = inr st'.
Proof.
  intros extra vs p. induction items as [| [key value] items IH]; simpl;
    intros st st' H Herr; [exact H |].
  destruct (rest_step PREVENT_EXTRA vs p st key value) as [x | st1] eqn:E; [discriminate |].
  destruct (rest_loop_inr _ _ _ _ _ _ H) as (_ & Hmono & _).
  assert (Herr1 : errors st1 = []).
  { destruct (errors st1) as [| e l] eqn:E1; [reflexivity |].
    exfalso. specialize (Hmono e (or_introl eq_refl)). rewrite Herr in Hmono. exact Hmono. }
  assert (Hstep : rest_step extra vs p st key value = inr st1).
  { revert E. unfold rest_step.
    destruct (set_mem (seen_keys st) key); [auto |].
    destruct (find_key_schema vs key) as [[f key'] |]; [auto |].
    simpl. intros [= <-]. simpl in Herr1.
    destruct (errors st); discriminate Herr1. }
  rewrite Hstep. apply IH; assumption.
Qed.

Lemma validate_dict_accepted_any_policy :
  forall extra required_keys value_schema p data result,
    validate_dict PREVENT_EXTRA required_keys value_schema p data = Ret result ->
    validate_dict extra required_keys value_schema p data = Ret result.
Proof.
  intros extra rk vs p data result. unfold validate_dict.
  destruct data; try discriminate.
  destruct (required_loop p items rk (mk_dstate [] [] [])) as [x | st1]; [discriminate |].
  destruct (rest_loop PREVENT_EXTRA vs p items st1) as [x | st2] eqn:E; [discriminate |].
  destruct (errors st2) as [| e l] eqn:Herr; [| discriminate].
  rewrite (rest_loop_accepted_any_policy extra _ _ _ _ _ E Herr), Herr. auto.
Qed.

(** A schema without mapping outside the markers compiles to the same
    validator whatever [self.extra]. *)
Lemma _compile_policy_free :
  forall s, policy_free s = true ->
            forall extra extra', _compile extra s = _compile extra' s.
Proof.
  assert (Hmap : forall l,
             Forall (fun s => policy_free s = true ->
                              forall extra extra', _compile extra s = _compile extra' s) l ->
             forallb policy_free l = true ->
             forall extra extra',
               map (fun s => run (_compile extra s)) l
               = map (fun s => run (_compile extra' s)) l).
  { intros l H Hl extra extra'. rewrite forallb_forall in Hl. rewrite Forall_forall in H.
    apply map_ext_in. intros s Hs. rewrite (H s Hs (Hl s Hs) extra extra'). reflexivity. }
  induction s using obj_induction; simpl; intros Hfree extra extra';
    try reflexivity; try discriminate Hfree.
  - rewrite (Hmap l H Hfree extra extra'). reflexivity.
  - rewrite (Hmap l H Hfree extra extra'). reflexivity.
  - rewrite (Hmap l H Hfree extra extra'). reflexivity.
Qed.

(** A dict accepted by a mapping schema compiled for [PREVENT_EXTRA] is
    accepted by the same schema compiled for any other policy, with the same
    output, when the values of the mapping hold no mapping outside markers
    (a nested mapping is compiled with the policy, and may then accept or
    drop other keys): on such a schema the policies differ only where a key
    is matched by no schema key. *)
Theorem accepted_under_prevent_accepted_under_any :
  forall extra items p data result,
    forallb (fun item => policy_free (snd item)) items = true ->
    run (_compile PREVENT_EXTRA (ODict items)) p data = Ret result ->
    run (_compile extra (ODict items)) p data = Ret result.
Proof.
  intros extra items p data result Hfree. cbn [_compile].
  assert (Hmap : map (fun '(key, value) => (key, run (_compile PREVENT_EXTRA value))) items
                 = map (fun '(key, value) => (key, run (_compile extra value))) items).
  { rewrite forallb_forall in Hfree. apply map_ext_in. intros [k v] Hkv.
    rewrite (_compile_policy_free v (Hfree _ Hkv) PREVENT_EXTRA extra). reflexivity. }
  rewrite Hmap. unfold _compile_mapping.
  match goal with |- context [if ?b then _ else _] => destruct b end; [discriminate |].
  unfold run. apply validate_dict_accepted_any_policy.
Qed.

Lemma accepted_under_prevent_accepted_under_any_witness :
  forallb (fun item => policy_free (snd item))
    [(OStr "k", OList [OClass CInt; OClass CStr])] = true
  /\ run (_compile REMOVE_EXTRA (ODict [(OStr "k", OList [OClass CInt; OClass CStr])])) []
       (ODict [(OStr "k", OList [OStr "x"; OInt 1])])
     = Ret (ODict [(OStr "k", OList [OStr "x"; OInt 1])]).
Proof.
  split; [reflexivity |].
  apply (accepted_under_prevent_accepted_under_any REMOVE_EXTRA
           [(OStr "k", OList [OClass CInt; OClass CStr])] []
           (ODict [(OStr "k", OList [OStr "x"; OInt 1])]) _ eq_refl eq_refl).
Defined.

(** ** The aggregate raised by a call *)

Lemma validate_sequence_raises_no_aggregate :
  forall validators seq_type p x e,
    validate_sequence validators seq_type p x = Raise (EInvalid e) ->
    is_MultipleInvalid e = false.
Proof.
  intros validators seq_type p x e. unfold validate_sequence.
  destruct (negb (isinstance x seq_type)); [intros [= <-]; reflexivity |].
  assert (Hloop : forall l i result e0,
             sequence_loop validators p i l result = inl (EInvalid e0) ->
             is_MultipleInvalid e0 = false).
  { induction l as [| value l IH]; simpl; intros i result e0; [discriminate |].
    destruct (try_validators validators (OInt i :: p) value) as [[v | e1] |] eqn:E.
    - apply IH.
    - intros [= ->]. exfalso. eapply try_validators_no_Invalid; eauto.
    - intros [= <-]. reflexivity. }
  assert (Hret : match sequence_loop validators p 0 (elements x) [] with
                 | inl e0 => Raise e0
                 | inr result => Ret (make_seq seq_type result)
                 end = Raise (EInvalid e) -> is_MultipleInvalid e = false).
  { destruct (sequence_loop validators p 0 (elements x) []) as [e0 | r] eqn:E;
      [| discriminate].
    intros [= ->]. eapply Hloop; eauto. }
  destruct validators as [| f validators]; [| exact Hret].
  destruct (elements x); [exact Hret | intros [= <-]; reflexivity].
Qed.

Lemma validate_dict_raises_headed :
  forall extra rk vs p x e,
    validate_dict extra rk vs p x = Raise (EInvalid e) ->
    is_MultipleInvalid e = true -> headed e.
Proof.
  intros extra rk vs p x e. unfold validate_dict.
  destruct x; try (intros [= <-]; discriminate).
  destruct (required_loop p items rk (mk_dstate [] [] [])) as [y | st1] eqn:E1.
  { destruct (required_loop_inl _ _ _ _ _ E1) as [m ->]. discriminate. }
  destruct (rest_loop extra vs p items st1) as [y | st2] eqn:E2.
  { destruct (rest_loop_inl _ _ _ _ _ _ E2) as [m ->]. discriminate. }
  destruct (errors st2) as [| e0 l]; [discriminate |].
  intros [= <-] _. exists e0, l. reflexivity.
Qed.

Lemma Schema_call_compiled_headed :
  forall f, raises_headed f ->
            forall x e, Schema_call_compiled f x = Raise (EInvalid e) -> headed e.
Proof.
  intros f Hf x e. unfold Schema_call_compiled.
  destruct (f [] x) as [v | [e0 | m]] eqn:E; try discriminate.
  destruct (is_MultipleInvalid e0) eqn:Em; intros [= <-].
  - eapply Hf; eauto.
  - exists e0, []. reflexivity.
Qed.

Lemma marker_raises_headed :
  forall msg f,
    raises_headed f ->
    raises_headed (validate_callable (Marker_call msg f))
    /\ raises_headed (validate_callable (Remove_call msg f)).
Proof.
  intros msg f Hf.
  assert (HM : forall x e, Marker_call msg f x = Raise (EInvalid e) ->
                           is_MultipleInvalid e = true -> headed e).
  { intros x e. unfold Marker_call.
    destruct (Schema_call_compiled f x) as [v | [e0 | m]] eqn:E; try discriminate.
    pose proof (Schema_call_compiled_headed f Hf _ _ E) as Hh.
    destruct (msg_falsy msg || (1 <? List.length (inv_path e0))%nat); intros [= <-];
      [auto | discriminate]. }
  assert (Hpre : forall e, (is_MultipleInvalid e = true -> headed e) ->
                           is_MultipleInvalid (prepend_path [] e) = true ->
                           headed (prepend_path [] e)).
  { intros [c m q | errs q]; simpl; [discriminate | auto]. }
  split; intros x e; unfold validate_callable, Remove_call.
  - destruct (Marker_call msg f x) as [v | [e0 | m]] eqn:E; try discriminate.
    intros [= <-]. apply Hpre. eapply HM; eauto.
  - destruct (Marker_call msg f x) as [v | [e0 | m]] eqn:E; try discriminate.
    intros [= <-]. apply Hpre. eapply HM; eauto.
Qed.

Lemma _compile_raises_headed :
  forall s extra, raises_headed (run (_compile extra s)).
Proof.
  assert (Hrun : forall f, raises_headed f -> raises_headed (run (inr f))).
  { intros f Hf x e. unfold run. apply Hf. }
  assert (Hseq : forall validators seq_type,
             raises_headed (validate_sequence validators seq_type)).
  { intros validators seq_type x e H Hm.
    rewrite (validate_sequence_raises_no_aggregate _ _ _ _ _ H) in Hm. discriminate. }
  induction s using obj_induction; intro extra; cbn [_compile];
    try (apply Hrun; intros x e; unfold validate_value;
         destruct (negb (py_eq x _)); intros [= <-]; discriminate);
    try (apply Hrun, Hseq).
  - unfold _compile_mapping.
    match goal with |- context [if ?b then _ else _] => destruct b end;
      [intros x e; discriminate |].
    apply Hrun. intros x e. apply validate_dict_raises_headed.
  - apply Hrun. intros x e. unfold validate_instance.
    destruct (isinstance x c); intros [= <-]; discriminate.
  - apply Hrun. intros x e. unfold validate_callable. discriminate.
  - destruct k; apply Hrun;
      apply (marker_raises_headed msg (run (_compile PREVENT_EXTRA s1)) (IHs1 _)).
Qed.

(** The [Invalid] that a schema call raises is an aggregate with at least
    one failure, and its [path] is the path of its first failure, also when
    the schema is a marker, whose call prepends the path it is given. *)
Theorem raised_aggregate_is_headed :
  forall s r x self data e,
    Schema_init s r x = inr self ->
    Schema_call self data = Raise (EInvalid e) ->
    exists first others, e = Multi (first :: others) (inv_path first).
Proof.
  intros s r x self data e Hinit Hcall. unfold Schema_init in Hinit.
  pose proof (_compile_raises_headed s x) as Hf.
  destruct (_compile x s) as [m | f]; [discriminate |].
  injection Hinit as <-. unfold Schema_call in Hcall. simpl in Hcall.
  apply (Schema_call_compiled_headed f Hf _ _ Hcall).
Qed.

Lemma raised_aggregate_is_headed_witness :
  Schema_call
    (mk_Schema (OClass CInt) false PREVENT_EXTRA (validate_instance CInt)) (OStr "x")
  = Raise (EInvalid (new_MultipleInvalid [Inv TypeInvalid "expected int for " []]))
  /\ exists first others,
       new_MultipleInvalid [Inv TypeInvalid "expected int for " []]
       = Multi (first :: others) (inv_path first).
Proof.
  split; [reflexivity |].
  apply (raised_aggregate_is_headed (OClass CInt) false PREVENT_EXTRA
           (mk_Schema (OClass CInt) false PREVENT_EXTRA (validate_instance CInt))
           (OStr "x") _ eq_refl eq_refl).
Defined.

(** * Idempotence under [==] (C9) *)

(** ** Objects alike *)

Lemma alike_all2 :
  forall l m,
    (fix all2 (l m : list obj) {struct l} : Prop :=
       match l, m with
       | [], [] => True
       | a :: l', b :: m' => alike a b /\ all2 l' m'
       | _, _ => False
       end) l m
    <-> Forall2 alike l m.
Proof.
  induction l as [| a l IH]; intros [| b m].
  - split; [constructor | exact (fun _ => I)].
  - split; [intros [] | intro H; inversion H].
  - split; [intros [] | intro H; inversion H].
  - rewrite IH. split.
    + intros [H1 H2]. constructor; assumption.
    + intro H. inversion H; subst. split; assumption.
Qed.

Lemma alike_list :
  forall l m, alike (OList l) (OList m) <-> Forall2 alike l m.
Proof. intros l m. apply alike_all2. Qed.

Lemma alike_tuple :
  forall l m, alike (OTuple l) (OTuple m) <-> Forall2 alike l m.
Proof. intros l m. apply alike_all2. Qed.

Lemma alike_dict :
  forall l m,
    alike (ODict l) (ODict m)
    <-> (List.length l = List.length m
         /\ (forall k v, In (k, v) l ->
                         exists k' v', In (k', v') m /\ py_eq k k' = true /\ alike v v')
         /\ (forall k' v', In (k', v') m ->
                           exists k v, In (k, v) l /\ py_eq k k' = true /\ alike v v')).
Proof.
  intros l m. cbn [alike].
  assert (Heach : forall l0 : dict,
             (fix each (l1 : dict) : Prop :=
                match l1 with
                | [] => True
                | (k, v) :: l' =>
                    (exists k' v', In (k', v') m /\ py_eq k k' = true /\ alike v v')
                    /\ each l'
                end) l0
             <-> (forall k v, In (k, v) l0 ->
                              exists k' v', In (k', v') m /\ py_eq k k' = true /\ alike v v')).
  { induction l0 as [| [k v] l0 IH]; simpl.
    - split; [intros _ k v [] | auto].
    - rewrite IH. split.
      + intros [H1 H2] k0 v0 [[= <- <-] | Hin]; auto.
      + intro H. split; [apply H; auto | intros k0 v0 Hin; apply H; auto]. }
  assert (Hsome : forall (l0 : dict) k' v',
             (fix some (l1 : dict) : Prop :=
                match l1 with
                | [] => False
                | (k, v) :: l' => (py_eq k k' = true /\ alike v v') \/ some l'
                end) l0
             <-> (exists k v, In (k, v) l0 /\ py_eq k k' = true /\ alike v v')).
  { induction l0 as [| [k v] l0 IH]; intros k' v'; simpl.
    - split; [intros [] | intros (k & v & [] & _)].
    - rewrite IH. split.
      + intros [[H1 H2] | (k0 & v0 & Hin & H1 & H2)]; [exists k, v | exists k0, v0]; auto.
      + intros (k0 & v0 & [Heq | Hin] & H1 & H2).
        * injection Heq as <- <-. left. auto.
        * right. exists k0, v0. auto. }
  rewrite Heach. split.
  - intros (H1 & H2 & H3). split; [exact H1 | split; [exact H2 |]].
    intros k' v' Hin. apply (proj1 (Hsome l k' v')), H3, Hin.
  - intros (H1 & H2 & H3). split; [exact H1 | split; [exact H2 |]].
    intros k' v' Hin. apply (proj2 (Hsome l k' v')), H3, Hin.
Qed.

(** Apart from lists, tuples and dicts, alike objects are equal. *)
Lemma alike_other :
  forall x y,
    match x with OList _ | OTuple _ | ODict _ => False | _ => True end ->
    alike x y -> y = x.
Proof. intros x y Hx H. destruct x; try contradiction; simpl in H; congruence. Qed.

Lemma alike_kind :
  forall x y, alike x y ->
              match x, y with
              | OList _, OList _ | OTuple _, OTuple _ | ODict _, ODict _ => True
              | OList _, _ | OTuple _, _ | ODict _, _ => False
              | _, _ => y = x
              end.
Proof.
  intros x y H. destruct x; try (simpl in H; subst; reflexivity);
    destruct y; try exact I; simpl in H; try discriminate H.
Qed.

Lemma alike_refl : forall x, alike x x.
Proof.
  induction x using obj_induction; try reflexivity.
  - apply alike_list. induction H; constructor; auto.
  - apply alike_tuple. induction H; constructor; auto.
  - apply alike_dict. rewrite Forall_forall in H. repeat split.
    + intros k v Hin. exists k, v. destruct (H _ Hin) as [_ Hv].
      repeat split; auto. apply py_eq_refl.
    + intros k v Hin. exists k, v. destruct (H _ Hin) as [_ Hv].
      repeat split; auto. apply py_eq_refl.
Qed.

(** An object that hashes by value is alike itself only. *)
Lemma alike_key_like : forall x y, key_like x = true -> alike x y -> y = x.
Proof.
  induction x using obj_induction; intros y Hk Ha; try discriminate Hk;
    try (simpl in Ha; congruence).
  destruct y; try (simpl in Ha; discriminate Ha). apply alike_tuple in Ha.
  f_equal. simpl in Hk. revert l0 Ha.
  induction H as [| x l Hx _ IH]; intros m Ha; inversion Ha; subst; [reflexivity |].
  simpl in Hk. apply andb_true_iff in Hk. destruct Hk as [Hkx Hkl].
  f_equal; auto.
Qed.

(** ** Keys that hash by value *)

(** Two keys that are [==] are [==] to the same objects. *)
Lemma py_eq_same_behaviour :
  forall k k',
    key_like k = true -> key_like k' = true -> py_eq k k' = true ->
    forall z, py_eq k z = py_eq k' z /\ py_eq z k = py_eq z k'.
Proof.
  intros k k' Hk Hk' Heq z.
  apply key_like_set_free in Hk. apply key_like_set_free in Hk'.
  assert (Heq' : py_eq k' k = true) by (rewrite (py_eq_sym k' k Hk'); exact Heq).
  assert (H1 : py_eq k z = py_eq k' z).
  { destruct (py_eq k z) eqn:E1, (py_eq k' z) eqn:E2; try reflexivity.
    - rewrite (py_eq_trans k' k z Hk' Heq' E1) in E2. discriminate.
    - rewrite (py_eq_trans k k' z Hk Heq E2) in E1. discriminate. }
  split; [exact H1 |].
  rewrite <- (py_eq_sym k z Hk), <- (py_eq_sym k' z Hk'). exact H1.
Qed.

Lemma keys_distinct_In :
  forall l a b,
    keys_distinct l = true -> forallb key_like l = true ->
    In a l -> In b l -> py_eq a b = true -> a = b.
Proof.
  induction l as [| x l IH]; simpl; intros a b Hd Hk Ha Hb Heq; [destruct Ha |].
  apply andb_true_iff in Hd. destruct Hd as [Hx Hd].
  apply andb_true_iff in Hk. destruct Hk as [Hkx Hk].
  rewrite forallb_forall in Hx.
  destruct Ha as [<- | Ha], Hb as [<- | Hb]; auto.
  - specialize (Hx b Hb). rewrite Heq in Hx. discriminate.
  - specialize (Hx a Ha). rewrite (py_eq_sym x a (key_like_set_free _ Hkx)), Heq in Hx.
    discriminate.
Qed.

Lemma keys_distinct_value :
  forall (d : dict) k v1 v2,
    keys_distinct (map fst d) = true ->
    In (k, v1) d -> In (k, v2) d -> v1 = v2.
Proof.
  induction d as [| [k0 v0] d IH]; simpl; intros k v1 v2 Hd H1 H2; [destruct H1 |].
  apply andb_true_iff in Hd. destruct Hd as [Hx Hd]. rewrite forallb_forall in Hx.
  assert (Hno : forall v, In (k0, v) d -> False).
  { intros v Hin. specialize (Hx k0 (in_map fst _ _ Hin)).
    rewrite py_eq_refl in Hx. discriminate. }
  destruct H1 as [H1 | H1], H2 as [H2 | H2].
  - congruence.
  - exfalso. injection H1 as -> ->. eapply Hno; eauto.
  - exfalso. injection H2 as -> ->. eapply Hno; eauto.
  - eapply IH; eauto.
Qed.

Lemma dict_get_Some_In :
  forall (d : dict) r v,
    dict_get d r = Some v -> exists k, In (k, v) d /\ py_eq k r = true.
Proof.
  induction d as [| [k0 v0] d IH]; simpl; intros r v H; [discriminate |].
  destruct (py_eq k0 r) eqn:E.
  - injection H as <-. exists k0. auto.
  - destruct (IH _ _ H) as (k & Hin & Hk). exists k. auto.
Qed.

Lemma dict_get_In :
  forall (d : dict) k v r,
    keys_distinct (map fst d) = true ->
    forallb key_like (map fst d) = true ->
    In (k, v) d -> py_eq k r = true ->
    dict_get d r = Some v.
Proof.
  intros d k v r Hd Hk Hin Heq.
  destruct (dict_get d r) as [v0 |] eqn:E.
  - destruct (dict_get_Some_In _ _ _ E) as (k0 & Hin0 & Heq0).
    assert (Hkk : key_like k = true /\ key_like k0 = true).
    { rewrite forallb_forall in Hk. split; apply Hk; apply in_map_iff;
        [exists (k, v) | exists (k0, v0)]; auto. }
    destruct Hkk as [Hk1 Hk0].
    assert (k0 = k).
    { apply (keys_distinct_In (map fst d)); auto.
      - apply in_map_iff. exists (k0, v0). auto.
      - apply in_map_iff. exists (k, v). auto.
      - apply (py_eq_trans k0 r k (key_like_set_free _ Hk0) Heq0).
        rewrite <- (py_eq_sym k r (key_like_set_free _ Hk1)). exact Heq. }
    subst k0. f_equal. eapply keys_distinct_value; eauto.
  - exfalso. revert E. clear - Hin Heq. induction d as [| [k0 v0] d IH]; simpl; [destruct Hin |].
    destruct Hin as [[= -> ->] | Hin].
    + rewrite Heq. discriminate.
    + destruct (py_eq k0 r); [discriminate | auto].
Qed.

Lemma proper_dict :
  forall items,
    proper (ODict items) = true
    <-> ((forall k v, In (k, v) items -> key_like k = true /\ proper v = true)
         /\ keys_distinct (map fst items) = true).
Proof.
  intro items. simpl. rewrite andb_true_iff, forallb_forall. split.
  - intros [H Hd]. split; [| exact Hd]. intros k v Hin.
    specialize (H _ Hin). simpl in H. apply andb_true_iff in H. exact H.
  - intros [H Hd]. split; [| exact Hd]. intros [k v] Hin.
    destruct (H _ _ Hin) as [H1 H2]. rewrite H1, H2. reflexivity.
Qed.

Lemma proper_dict_keys :
  forall items, proper (ODict items) = true -> forallb key_like (map fst items) = true.
Proof.
  intros items H. apply proper_dict in H. destruct H as [H _].
  apply forallb_forall. intros k Hk. apply in_map_iff in Hk.
  destruct Hk as ([k0 v] & <- & Hin). apply (H _ _ Hin).
Qed.

(** ** The loops in closed form *)

Lemma outs_app : forall rs rs', outs (rs ++ rs') = (outs rs ++ outs rs')%list.
Proof.
  induction rs as [| [k v | e | | e] rs IH]; simpl; intro rs'; rewrite ?IH; reflexivity.
Qed.

Lemma required_loop_closed :
  forall p data rk st,
    keys_distinct (map fst rk) = true ->
    (forall k r, In k (map fst (out st)) -> In r (map fst rk) -> py_eq k r = false) ->
    (forall k r, In k (seen_keys st) -> In r (map fst rk) -> py_eq k r = false) ->
    required_loop p data rk st
    = match first_exc (map (required_item p data) rk) with
      | Some e => inl e
      | None =>
          inr (mk_dstate
                 (out st ++ outs (map (required_item p data) rk))
                 (errors st ++ errs (map (required_item p data) rk))
                 (seen_keys st
                  ++ map fst (filter (fun item => dict_mem data (fst item)) rk)))%list
      end.
Proof.
  intros p data. induction rk as [| [key sv] rk IH]; simpl; intros st Hd Hout Hseen.
  - rewrite !app_nil_r. destruct st; reflexivity.
  - apply andb_true_iff in Hd. destruct Hd as [Hkey Hd]. rewrite forallb_forall in Hkey.
    assert (Hset : forall v, dict_set (out st) key v = (out st ++ [(key, v)])%list).
    { intro v. apply dict_set_fresh. intros k Hk. apply Hout; simpl; auto. }
    assert (Hadd : set_add (seen_keys st) key = (seen_keys st ++ [key])%list).
    { unfold set_add. replace (set_mem (seen_keys st) key) with false; [reflexivity |].
      symmetry. apply set_mem_false_iff. intros k Hk. apply Hseen; simpl; auto. }
    assert (Hlater : forall r, In r (map fst rk) -> py_eq key r = false).
    { intros r Hr. specialize (Hkey r Hr). apply negb_true_iff in Hkey. exact Hkey. }
    unfold required_step, required_item, dict_mem. simpl.
    destruct (dict_get data key) as [value |]; simpl.
    + destruct (sv (p ++ [key])%list value) as [v | [e | m]]; simpl.
      * rewrite IH; simpl; auto.
        -- rewrite Hset, Hadd. destruct (first_exc _); [reflexivity |].
           rewrite <- !app_assoc. reflexivity.
        -- rewrite Hset. intros k r Hk Hr. rewrite map_app in Hk.
           apply in_app_or in Hk. destruct Hk as [Hk | [<- | []]]; auto.
        -- rewrite Hadd. intros k r Hk Hr.
           apply in_app_or in Hk. destruct Hk as [Hk | [<- | []]]; auto.
      * rewrite IH; simpl; auto.
        -- rewrite Hadd. destruct (first_exc _); [reflexivity |].
           rewrite <- !app_assoc. reflexivity.
        -- rewrite Hadd. intros k r Hk Hr.
           apply in_app_or in Hk. destruct Hk as [Hk | [<- | []]]; auto.
      * reflexivity.
    + rewrite IH; simpl; auto.
      destruct (first_exc _); [reflexivity |].
      rewrite <- !app_assoc. reflexivity.
Qed.

Lemma rest_step_item :
  forall extra vs p st key value,
    match rest_item extra vs p (seen_keys st) (key, value) with
    | ItemOut k v =>
        rest_step extra vs p st key value
        = inr (mk_dstate (dict_set (out st) k v) (errors st) (seen_keys st))
    | ItemErr e =>
        rest_step extra vs p st key value
        = inr (mk_dstate (out st) (errors st ++ [e])%list (seen_keys st))
    | ItemSkip => rest_step extra vs p st key value = inr st
    | ItemExc e => rest_step extra vs p st key value = inl e
    end.
Proof.
  intros extra vs p st key value. unfold rest_item, rest_step. simpl.
  destruct (set_mem (seen_keys st) key); [reflexivity |].
  destruct (find_key_schema vs key) as [[f key'] |].
  - destruct (f (p ++ [key'])%list value) as [v | [e | m]]; reflexivity.
  - destruct (extra =? PREVENT_EXTRA)%Z; [reflexivity |].
    destruct (extra =? ALLOW_EXTRA)%Z; reflexivity.
Qed.

Lemma rest_item_out_key :
  forall extra vs p seen key value k v,
    (forall sk, In sk (map fst vs) -> key_keeps sk = true) ->
    rest_item extra vs p seen (key, value) = ItemOut k v ->
    k = key /\ set_mem seen key = false.
Proof.
  intros extra vs p seen key value k v Hkeeps. unfold rest_item. simpl.
  destruct (set_mem seen key); [discriminate |].
  destruct (find_key_schema vs key) as [[f key'] |] eqn:Ef.
  - destruct (find_key_schema_keeps _ _ _ _ Hkeeps Ef) as [-> _].
    destruct (f (p ++ [key])%list value) as [v' | [e | m]]; simpl; try discriminate.
    intros [= <- _]. auto.
  - destruct (extra =? PREVENT_EXTRA)%Z; [discriminate |].
    destruct (extra =? ALLOW_EXTRA)%Z; [| discriminate].
    intros [= <- _]. auto.
Qed.

Lemma rest_loop_closed :
  forall extra vs p items st,
    (forall sk, In sk (map fst vs) -> key_keeps sk = true) ->
    keys_distinct (map fst items) = true ->
    (forall k k', In k (map fst (out st)) -> In k' (map fst items) ->
                  set_mem (seen_keys st) k' = false -> py_eq k k' = false) ->
    rest_loop extra vs p items st
    = match first_exc (map (rest_item extra vs p (seen_keys st)) items) with
      | Some e => inl e
      | None =>
          inr (mk_dstate
                 (out st ++ outs (map (rest_item extra vs p (seen_keys st)) items))
                 (errors st ++ errs (map (rest_item extra vs p (seen_keys st)) items))
                 (seen_keys st))%list
      end.
Proof.
  intros extra vs p. induction items as [| [key value] items IH]; simpl;
    intros st Hkeeps Hd Hout.
  - rewrite !app_nil_r. destruct st; reflexivity.
  - apply andb_true_iff in Hd. destruct Hd as [Hkey Hd]. rewrite forallb_forall in Hkey.
    assert (Hlater : forall r, In r (map fst items) -> py_eq key r = false).
    { intros r Hr. specialize (Hkey r Hr). apply negb_true_iff in Hkey. exact Hkey. }
    assert (Hsame : forall k k',
               In k (map fst (out st)) -> In k' (map fst items) ->
               set_mem (seen_keys st) k' = false -> py_eq k k' = false).
    { intros k k' Hk Hk'. apply Hout; simpl; auto. }
    pose proof (rest_step_item extra vs p st key value) as Hstep.
    destruct (rest_item extra vs p (seen_keys st) (key, value)) as [k v | e | | e] eqn:Ei;
      rewrite Hstep; simpl.
    + destruct (rest_item_out_key _ _ _ _ _ _ _ _ Hkeeps Ei) as [-> Eseen].
      assert (Hset : dict_set (out st) key v = (out st ++ [(key, v)])%list).
      { apply dict_set_fresh. intros k Hk. apply Hout; simpl; auto. }
      rewrite IH; [| exact Hkeeps | exact Hd |]; simpl.
      * rewrite Hset. destruct (first_exc _); [reflexivity |].
        rewrite <- !app_assoc. reflexivity.
      * rewrite Hset. intros k k' Hk Hk' Hs. rewrite map_app in Hk.
        apply in_app_or in Hk. destruct Hk as [Hk | [<- | []]]; auto.
    + rewrite IH; [| exact Hkeeps | exact Hd | exact Hsame]; simpl.
      destruct (first_exc _); [reflexivity |]. rewrite <- !app_assoc. reflexivity.
    + rewrite IH; [reflexivity | exact Hkeeps | exact Hd | exact Hsame].
    + reflexivity.
Qed.

(** ** [alike] is an equivalence on proper objects, within [==] *)

Lemma proper_list : forall l, proper (OList l) = true -> Forall (fun x => proper x = true) l.
Proof. intros l H. simpl in H. apply Forall_forall. apply forallb_forall. exact H. Qed.

Lemma proper_tuple : forall l, proper (OTuple l) = true -> Forall (fun x => proper x = true) l.
Proof. intros l H. simpl in H. apply Forall_forall. apply forallb_forall. exact H. Qed.

Lemma Forall2_alike_sym :
  forall l m,
    Forall (fun x => forall y, proper x = true -> alike x y -> alike y x) l ->
    Forall (fun x => proper x = true) l ->
    Forall2 alike l m -> Forall2 alike m l.
Proof.
  intros l m IH Hp Ha. induction Ha as [| x y l m Hxy _ IHa]; constructor.
  - inversion IH; inversion Hp; subst; auto.
  - inversion IH; inversion Hp; subst; auto.
Qed.

Lemma alike_sym : forall x y, proper x = true -> alike x y -> alike y x.
Proof.
  induction x using obj_induction; intros y Hp Ha;
    try (apply alike_other in Ha; [subst y; apply alike_refl | exact I]).
  - pose proof (alike_kind _ _ Ha) as Hk. destruct y; try contradiction.
    apply alike_list. apply alike_list in Ha.
    apply Forall2_alike_sym with (l := l); auto using proper_list.
  - pose proof (alike_kind _ _ Ha) as Hk. destruct y; try contradiction.
    apply alike_tuple. apply alike_tuple in Ha.
    apply Forall2_alike_sym with (l := l); auto using proper_tuple.
  - pose proof (alike_kind _ _ Ha) as Hk. destruct y; try contradiction.
    apply alike_dict in Ha. destruct Ha as (Hlen & H1 & H2).
    apply proper_dict in Hp. destruct Hp as [Hp _].
    rewrite Forall_forall in H.
    apply alike_dict. split; [auto |]. split.
    + intros k' v' Hin. destruct (H2 _ _ Hin) as (k & v & Hin' & Hk' & Hv).
      destruct (Hp _ _ Hin') as [Hkl Hpv].
      exists k, v. repeat split; auto.
      * rewrite <- (py_eq_sym k k' (key_like_set_free _ Hkl)). exact Hk'.
      * apply (proj2 (H _ Hin')); auto.
    + intros k v Hin. destruct (H1 _ _ Hin) as (k' & v' & Hin' & Hk' & Hv).
      destruct (Hp _ _ Hin) as [Hkl Hpv].
      exists k', v'. repeat split; auto.
      * rewrite <- (py_eq_sym k k' (key_like_set_free _ Hkl)). exact Hk'.
      * apply (proj2 (H _ Hin)); auto.
Qed.

Lemma Forall2_alike_trans :
  forall l m n,
    Forall (fun x => forall y z, proper x = true -> alike x y -> alike y z -> alike x z) l ->
    Forall (fun x => proper x = true) l ->
    Forall2 alike l m -> Forall2 alike m n -> Forall2 alike l n.
Proof.
  intros l m n IH Hp Ha. revert n. induction Ha as [| x y l m Hxy _ IHa]; intros n Hb.
  - inversion Hb. constructor.
  - inversion Hb; subst. inversion IH; inversion Hp; subst. constructor; eauto.
Qed.

Lemma alike_trans :
  forall x y z, proper x = true -> alike x y -> alike y z -> alike x z.
Proof.
  induction x using obj_induction; intros u w Hp Ha Hb;
    try (apply alike_other in Ha; [subst u; exact Hb | exact I]).
  - pose proof (alike_kind _ _ Ha) as Hk. destruct u; try contradiction.
    pose proof (alike_kind _ _ Hb) as Hk'. destruct w; try contradiction.
    apply alike_list. apply alike_list in Ha. apply alike_list in Hb.
    apply Forall2_alike_trans with (m := l0); auto using proper_list.
  - pose proof (alike_kind _ _ Ha) as Hk. destruct u; try contradiction.
    pose proof (alike_kind _ _ Hb) as Hk'. destruct w; try contradiction.
    apply alike_tuple. apply alike_tuple in Ha. apply alike_tuple in Hb.
    apply Forall2_alike_trans with (m := l0); auto using proper_tuple.
  - pose proof (alike_kind _ _ Ha) as Hk. destruct u; try contradiction.
    pose proof (alike_kind _ _ Hb) as Hk'. destruct w; try contradiction.
    apply alike_dict in Ha. destruct Ha as (Hlen & H1 & H2).
    apply alike_dict in Hb. destruct Hb as (Hlen' & H1' & H2').
    apply proper_dict in Hp. destruct Hp as [Hp _].
    rewrite Forall_forall in H.
    apply alike_dict. split; [congruence |]. split.
    + intros k v Hin. destruct (H1 _ _ Hin) as (k' & v' & Hin' & Hk1 & Hv).
      destruct (H1' _ _ Hin') as (k'' & v'' & Hin'' & Hk2 & Hv').
      destruct (Hp _ _ Hin) as [Hkl Hpv].
      exists k'', v''. repeat split; auto.
      * apply (py_eq_trans k k' k'' (key_like_set_free _ Hkl)); auto.
      * apply (proj2 (H _ Hin)) with (y := v'); auto.
    + intros k'' v'' Hin''. destruct (H2' _ _ Hin'') as (k' & v' & Hin' & Hk2 & Hv').
      destruct (H2 _ _ Hin') as (k & v & Hin & Hk1 & Hv).
      destruct (Hp _ _ Hin) as [Hkl Hpv].
      exists k, v. repeat split; auto.
      * apply (py_eq_trans k k' k'' (key_like_set_free _ Hkl)); auto.
      * apply (proj2 (H _ Hin)) with (y := v'); auto.
Qed.

Lemma eq_plain_go :
  forall l m,
    (fix go (l m : list obj) {struct l} : bool :=
       match l, m with
       | [], [] => true
       | x :: l', y :: m' => eq_plain x y && go l' m'
       | _, _ => false
       end) l m = true
    <-> Forall2 (fun a b => eq_plain a b = true) l m.
Proof.
  induction l as [| x l IH]; intros [| y m]; split; intro H;
    try discriminate H; try (inversion H; fail); try constructor; auto.
  - apply andb_true_iff in H. tauto.
  - apply andb_true_iff in H. apply IH. tauto.
  - inversion H; subst. apply andb_true_iff. split; [assumption | apply IH; assumption].
Qed.

Lemma Forall2_map_unmark :
  forall l m,
    Forall2 (fun a b => eq_plain a b = true) (map unmark l) (map unmark m)
    <-> Forall2 (fun a b => py_eq a b = true) l m.
Proof.
  induction l as [| x l IH]; intros [| y m]; simpl; split; intro H;
    try (inversion H; fail); try constructor; inversion H; subst; auto;
    apply IH; auto.
Qed.

Lemma py_eq_list :
  forall l m,
    py_eq (OList l) (OList m) = true <-> Forall2 (fun a b => py_eq a b = true) l m.
Proof.
  intros l m. unfold py_eq at 1. simpl unmark.
  rewrite <- Forall2_map_unmark. apply eq_plain_go.
Qed.

Lemma py_eq_tuple :
  forall l m,
    py_eq (OTuple l) (OTuple m) = true <-> Forall2 (fun a b => py_eq a b = true) l m.
Proof.
  intros l m. unfold py_eq at 1. simpl unmark.
  rewrite <- Forall2_map_unmark. apply eq_plain_go.
Qed.

Lemma py_eq_dict_intro :
  forall l m,
    List.length l = List.length m ->
    (forall k v, In (k, v) l ->
                 exists k' v', In (k', v') m /\ py_eq k k' = true /\ py_eq v v' = true) ->
    py_eq (ODict l) (ODict m) = true.
Proof.
  intros l m Hlen H. unfold py_eq. simpl.
  rewrite !length_map. apply andb_true_iff. split; [apply Nat.eqb_eq; exact Hlen |].
  apply forallb_forall. intros [k0 v0] Hin. apply in_map_iff in Hin.
  destruct Hin as ([k v] & [= <- <-] & Hin).
  destruct (H _ _ Hin) as (k' & v' & Hin' & Hk & Hv).
  apply existsb_exists. exists (unmark k', unmark v'). split.
  - apply in_map_iff. exists (k', v'). auto.
  - apply andb_true_iff. auto.
Qed.

Lemma alike_py_eq : forall x y, proper x = true -> alike x y -> py_eq y x = true.
Proof.
  induction x using obj_induction; intros y Hp Ha;
    try (apply alike_other in Ha; [subst y; apply py_eq_refl | exact I]).
  - pose proof (alike_kind _ _ Ha) as Hk. destruct y; try contradiction.
    apply alike_list in Ha. apply py_eq_list. apply proper_list in Hp.
    induction Ha as [| a b l m Hab _ IHa]; constructor;
      inversion H; inversion Hp; subst; auto.
  - pose proof (alike_kind _ _ Ha) as Hk. destruct y; try contradiction.
    apply alike_tuple in Ha. apply py_eq_tuple. apply proper_tuple in Hp.
    induction Ha as [| a b l m Hab _ IHa]; constructor;
      inversion H; inversion Hp; subst; auto.
  - pose proof (alike_kind _ _ Ha) as Hk. destruct y; try contradiction.
    apply alike_dict in Ha. destruct Ha as (Hlen & H1 & H2).
    apply proper_dict in Hp. destruct Hp as [Hp _].
    rewrite Forall_forall in H.
    apply py_eq_dict_intro; [auto |].
    intros k' v' Hin'. destruct (H2 _ _ Hin') as (k & v & Hin & Hk' & Hv).
    destruct (Hp _ _ Hin) as [Hkl Hpv].
    exists k, v. repeat split; auto.
    + rewrite <- (py_eq_sym k k' (key_like_set_free _ Hkl)). exact Hk'.
    + apply (proj2 (H _ Hin)); auto.
Qed.

(** ** Counting keys *)

Lemma matching_keys_le :
  forall A B,
    forallb key_like A = true -> forallb key_like B = true ->
    keys_distinct A = true ->
    (forall a, In a A -> exists b, In b B /\ py_eq a b = true) ->
    (List.length A <= List.length B)%nat.
Proof.
  induction A as [| a A IH]; simpl; intros B HA HB Hd Hm; [lia |].
  apply andb_true_iff in HA. destruct HA as [Ha HA].
  apply andb_true_iff in Hd. destruct Hd as [Hfresh Hd].
  rewrite forallb_forall in Hfresh.
  destruct (Hm a (or_introl eq_refl)) as (b & Hb & Hab).
  destruct (in_split _ _ Hb) as (B1 & B2 & ->).
  rewrite length_app. simpl.
  assert (Hle : (List.length A <= List.length (B1 ++ B2))%nat).
  { apply IH; auto.
    - rewrite forallb_app in *. simpl in HB.
      apply andb_true_iff in HB. destruct HB as [HB1 HB2].
      apply andb_true_iff in HB2. destruct HB2 as [_ HB2]. rewrite HB1, HB2. reflexivity.
    - intros a' Ha'. destruct (Hm a' (or_intror Ha')) as (b' & Hb' & Hab').
      apply in_app_or in Hb'. destruct Hb' as [Hb' | [<- | Hb']].
      + exists b'. split; [apply in_or_app; auto | exact Hab'].
      + exfalso. specialize (Hfresh a' Ha'). apply negb_true_iff in Hfresh.
        assert (Ha'k : key_like a' = true).
        { rewrite forallb_forall in HA. auto. }
        rewrite (py_eq_trans a b a' (key_like_set_free _ Ha) Hab) in Hfresh;
          [discriminate |].
        rewrite <- (py_eq_sym a' b (key_like_set_free _ Ha'k)). exact Hab'.
      + exists b'. split; [apply in_or_app; auto | exact Hab']. }
  rewrite length_app in Hle. lia.
Qed.

Lemma matching_keys_length :
  forall A B,
    forallb key_like A = true -> forallb key_like B = true ->
    keys_distinct A = true -> keys_distinct B = true ->
    (forall a, In a A -> exists b, In b B /\ py_eq a b = true) ->
    (forall b, In b B -> exists a, In a A /\ py_eq a b = true) ->
    List.length A = List.length B.
Proof.
  intros A B HA HB HdA HdB H1 H2. apply Nat.le_antisymm.
  - apply matching_keys_le; auto.
  - apply matching_keys_le; auto.
    intros b Hb. destruct (H2 b Hb) as (a & Ha & Hab). exists a. split; [exact Ha |].
    rewrite forallb_forall in HA.
    rewrite <- (py_eq_sym a b (key_like_set_free _ (HA a Ha))). exact Hab.
Qed.

(** ** [validate_dict] in closed form *)

Lemma first_exc_app :
  forall rs rs',
    first_exc (rs ++ rs')
    = match first_exc rs with Some e => Some e | None => first_exc rs' end.
Proof.
  induction rs as [| [k v | e | | e] rs IH]; simpl; intro rs'; auto.
Qed.

Lemma errs_app : forall rs rs', errs (rs ++ rs') = (errs rs ++ errs rs')%list.
Proof.
  induction rs as [| [k v | e | | e] rs IH]; simpl; intro rs'; rewrite ?IH; reflexivity.
Qed.

Lemma In_outs : forall rs k v, In (k, v) (outs rs) <-> In (ItemOut k v) rs.
Proof.
  induction rs as [| [k0 v0 | e | | e] rs IH]; simpl; intros k v.
  - tauto.
  - rewrite IH. split; intros [H | H]; auto; left; congruence.
  - rewrite IH. split; [auto | intros [H | H]; [discriminate | auto]].
  - rewrite IH. split; [auto | intros [H | H]; [discriminate | auto]].
  - rewrite IH. split; [auto | intros [H | H]; [discriminate | auto]].
Qed.

Lemma first_exc_In : forall rs e, first_exc rs = Some e -> In (ItemExc e) rs.
Proof.
  induction rs as [| [k0 v0 | e0 | | e0] rs IH]; simpl; intros e H;
    try discriminate; auto.
  injection H as ->. auto.
Qed.

Lemma first_exc_None : forall rs e, first_exc rs = None -> ~ In (ItemExc e) rs.
Proof.
  induction rs as [| [k0 v0 | e0 | | e0] rs IH]; simpl; intros e H Hin;
    try discriminate; try (destruct Hin as [Hin | Hin]; [discriminate | eapply IH; eauto]).
  exact Hin.
Qed.

Lemma errs_nil : forall rs e, errs rs = [] -> ~ In (ItemErr e) rs.
Proof.
  induction rs as [| [k0 v0 | e0 | | e0] rs IH]; simpl; intros e H Hin;
    try discriminate; try (destruct Hin as [Hin | Hin]; [discriminate | eapply IH; eauto]).
  exact Hin.
Qed.

Lemma errs_In : forall rs e, In (ItemErr e) rs -> errs rs <> [].
Proof. intros rs e Hin H. exact (errs_nil _ _ H Hin). Qed.

Lemma errs_cons : forall rs, errs rs <> [] -> exists e, In (ItemErr e) rs.
Proof.
  induction rs as [| [k0 v0 | e0 | | e0] rs IH]; simpl; intro H;
    try (destruct (IH H) as [e He]; exists e; auto; fail).
  - congruence.
  - exists e0. auto.
Qed.

Lemma outs_required_keys :
  forall p data rk k,
    In k (map fst (outs (map (required_item p data) rk))) ->
    In k (map fst (filter (fun item => dict_mem data (fst item)) rk)).
Proof.
  intros p data. induction rk as [| [key sv] rk IH]; simpl; intros k H; [exact H |].
  unfold required_item, dict_mem in *. simpl in *.
  destruct (dict_get data key) as [value |]; simpl in *; [| auto].
  destruct (sv (p ++ [key])%list value) as [v | [e | m]]; simpl in *; auto.
  destruct H as [H | H]; auto.
Qed.

Lemma validate_dict_closed :
  forall extra rk vs p d,
    (forall sk, In sk (map fst vs) -> key_keeps sk = true) ->
    keys_distinct (map fst rk) = true ->
    keys_distinct (map fst d) = true ->
    validate_dict extra rk vs p (ODict d)
    = dict_outcome (dict_results extra rk vs p d).
Proof.
  intros extra rk vs p d Hkeeps Hrk Hd.
  unfold validate_dict, dict_outcome, dict_results.
  rewrite required_loop_closed; [| exact Hrk | intros k r [] | intros k r []].
  rewrite first_exc_app, errs_app, outs_app. simpl.
  destruct (first_exc (map (required_item p d) rk)); [reflexivity |].
  rewrite rest_loop_closed; [| exact Hkeeps | exact Hd |]; simpl.
  - destruct (first_exc _); reflexivity.
  - intros k k' Hk Hk' Hs. apply outs_required_keys in Hk.
    rewrite set_mem_false_iff in Hs. auto.
Qed.

(** ** Keys of the output *)

Lemma keys_distinct_snoc :
  forall l key,
    keys_distinct l = true ->
    (forall k, In k l -> py_eq k key = false) ->
    keys_distinct (l ++ [key]) = true.
Proof.
  induction l as [| x l IH]; simpl; intros key Hd Hf; [reflexivity |].
  apply andb_true_iff in Hd. destruct Hd as [Hx Hd].
  rewrite forallb_app, Hx, IH; auto. simpl. rewrite (Hf x); auto.
Qed.

Lemma dict_set_keys_distinct :
  forall (d : dict) key value,
    keys_distinct (map fst d) = true ->
    keys_distinct (map fst (dict_set d key value)) = true.
Proof.
  intros d key value Hd.
  assert (H : map fst (dict_set d key value) = map fst d
              \/ (map fst (dict_set d key value) = (map fst d ++ [key])%list
                  /\ forall k, In k (map fst d) -> py_eq k key = false)).
  { clear Hd. induction d as [| [k v] d IH]; simpl.
    - right. split; [reflexivity | intros k []].
    - destruct (py_eq k key) eqn:E; simpl; [left; reflexivity |].
      destruct IH as [-> | [-> IH]]; [left; reflexivity | right].
      split; [reflexivity |]. intros k0 [<- | Hk0]; auto. }
  destruct H as [-> | [-> H]]; [exact Hd |]. apply keys_distinct_snoc; auto.
Qed.

Lemma required_loop_keys_distinct :
  forall p data rk st st',
    required_loop p data rk st = inr st' ->
    keys_distinct (map fst (out st)) = true ->
    keys_distinct (map fst (out st')) = true.
Proof.
  intros p data. induction rk as [| [key sv] rk IH]; simpl; intros st st' H Hd.
  - injection H as <-. exact Hd.
  - destruct (required_step p data st key sv) as [e | st1] eqn:E; [discriminate |].
    apply (IH _ _ H). unfold required_step in E.
    destruct (dict_get data key) as [value |].
    + destruct (sv (p ++ [key])%list value) as [v | [e | m]];
        try discriminate; injection E as <-; simpl; auto.
      apply dict_set_keys_distinct. exact Hd.
    + injection E as <-. exact Hd.
Qed.

Lemma rest_loop_keys_distinct :
  forall extra vs p items st st',
    rest_loop extra vs p items st = inr st' ->
    keys_distinct (map fst (out st)) = true ->
    keys_distinct (map fst (out st')) = true.
Proof.
  intros extra vs p. induction items as [| [key value] items IH]; simpl;
    intros st st' H Hd.
  - injection H as <-. exact Hd.
  - destruct (rest_step extra vs p st key value) as [e | st1] eqn:E; [discriminate |].
    apply (IH _ _ H). unfold rest_step in E.
    destruct (set_mem (seen_keys st) key); [injection E as <-; exact Hd |].
    destruct (find_key_schema vs key) as [[f key'] |].
    + destruct (f (p ++ [key'])%list value) as [v | [e | m]];
        try discriminate; injection E as <-; simpl; auto.
      apply dict_set_keys_distinct. exact Hd.
    + destruct (extra =? PREVENT_EXTRA)%Z; [injection E as <-; exact Hd |].
      destruct (extra =? ALLOW_EXTRA)%Z; injection E as <-; simpl; auto.
      apply dict_set_keys_distinct. exact Hd.
Qed.

Lemma validate_dict_keys_distinct :
  forall extra rk vs p data items,
    validate_dict extra rk vs p data = Ret (ODict items) ->
    keys_distinct (map fst items) = true.
Proof.
  intros extra rk vs p data items H. unfold validate_dict in H.
  destruct data; try discriminate.
  destruct (required_loop p items0 rk {| out := []; errors := []; seen_keys := [] |})
    as [e | st1] eqn:E1; [discriminate |].
  destruct (rest_loop extra vs p items0 st1) as [e | st2] eqn:E2; [discriminate |].
  destruct (errors st2); [| discriminate]. injection H as <-.
  eapply rest_loop_keys_distinct; [exact E2 |].
  eapply required_loop_keys_distinct; [exact E1 | reflexivity].
Qed.

(** ** Lookups in alike dicts *)

Lemma key_like_proper : forall x, key_like x = true -> proper x = true.
Proof.
  induction x using obj_induction; intro Hk; try reflexivity; try discriminate Hk.
  - simpl in *. apply forallb_forall. intros x Hx.
    rewrite Forall_forall in H. rewrite forallb_forall in Hk. auto.
  - simpl in *. destruct k; auto. discriminate.
Qed.

Lemma dict_get_alike_Some :
  forall d d' r v,
    proper (ODict d) = true -> proper (ODict d') = true ->
    alike (ODict d) (ODict d') ->
    dict_get d r = Some v ->
    exists v', dict_get d' r = Some v' /\ alike v v'.
Proof.
  intros d d' r v Hp Hp' Ha Hget.
  destruct (dict_get_Some_In _ _ _ Hget) as (k & Hin & Hk).
  apply alike_dict in Ha. destruct Ha as (_ & H1 & _).
  destruct (H1 _ _ Hin) as (k' & v' & Hin' & Hkk' & Hv).
  exists v'. split; [| exact Hv].
  pose proof (proper_dict_keys _ Hp') as Hkeys'.
  apply proper_dict in Hp. destruct Hp as [Hp _].
  apply proper_dict in Hp'. destruct Hp' as [Hp' Hd'].
  destruct (Hp _ _ Hin) as [Hkl _]. destruct (Hp' _ _ Hin') as [Hkl' _].
  apply (dict_get_In d' k' v' r Hd' Hkeys' Hin').
  apply (py_eq_trans k' k r (key_like_set_free _ Hkl')); [| exact Hk].
  rewrite <- (py_eq_sym k k' (key_like_set_free _ Hkl)). exact Hkk'.
Qed.

Lemma dict_get_alike :
  forall d d' r,
    proper (ODict d) = true -> proper (ODict d') = true ->
    alike (ODict d) (ODict d') ->
    match dict_get d r, dict_get d' r with
    | Some v, Some v' => alike v v'
    | None, None => True
    | _, _ => False
    end.
Proof.
  intros d d' r Hp Hp' Ha.
  destruct (dict_get d r) as [v |] eqn:E.
  - destruct (dict_get_alike_Some _ _ _ _ Hp Hp' Ha E) as (v' & -> & Hv). exact Hv.
  - destruct (dict_get d' r) as [v' |] eqn:E'; [| exact I].
    destruct (dict_get_alike_Some _ _ _ _ Hp' Hp (alike_sym _ _ Hp Ha) E')
      as (v & Hv & _).
    congruence.
Qed.

Lemma dict_mem_alike :
  forall d d' r,
    proper (ODict d) = true -> proper (ODict d') = true ->
    alike (ODict d) (ODict d') ->
    dict_mem d r = dict_mem d' r.
Proof.
  intros d d' r Hp Hp' Ha. unfold dict_mem.
  pose proof (dict_get_alike d d' r Hp Hp' Ha) as H.
  destruct (dict_get d r), (dict_get d' r); auto; contradiction.
Qed.

Lemma set_mem_same :
  forall s k k', (forall z, py_eq z k = py_eq z k') -> set_mem s k = set_mem s k'.
Proof.
  intros s k k' H. unfold set_mem. induction s as [| x s IH]; simpl; [reflexivity |].
  rewrite H, IH. reflexivity.
Qed.

Lemma find_key_schema_same :
  forall vs k k',
    (forall sk, In sk (map fst vs) -> key_keeps sk = true) ->
    (forall z, py_eq z k = py_eq z k') ->
    match find_key_schema vs k, find_key_schema vs k' with
    | Some (f, key), Some (f', key') => f = f' /\ key = k /\ key' = k'
    | None, None => True
    | _, _ => False
    end.
Proof.
  induction vs as [| [sk sv] vs IH]; simpl; intros k k' Hkeeps H; [exact I |].
  rewrite <- H. destruct (py_eq sk k); [auto |].
  assert (Hsk : key_keeps sk = true) by auto.
  destruct sk; try discriminate Hsk; apply IH; auto.
Qed.

Lemma same_outcome_class : forall r r', same_outcome r r' -> same_class r r'.
Proof.
  intros [y | [e | m]] [y' | [e' | m']] H; simpl in *; auto.
Qed.

Lemma classify_same :
  forall k k' r r', same_class r r' -> same_item (classify k r) (classify k' r').
Proof.
  intros k k' [y | [e | m]] [y' | [e' | m']] H; simpl in *; auto.
Qed.

Lemma dict_outcome_class :
  forall A B,
    (forall it, In it A -> exists it', In it' B /\ same_item it it') ->
    (forall it', In it' B -> exists it, In it A /\ same_item it' it) ->
    same_class (dict_outcome A) (dict_outcome B).
Proof.
  assert (Hexc : forall A B,
             (forall it, In it A -> exists it', In it' B /\ same_item it it') ->
             forall e, first_exc A = Some e ->
                       (exists m, e = ESchemaError m) /\ first_exc B <> None).
  { intros A B H e He. apply first_exc_In in He.
    destruct (H _ He) as (it' & Hin' & Hs).
    destruct e as [e | m]; [destruct it'; contradiction |].
    split; [eauto |]. destruct it' as [| | | [e' | m']]; try contradiction.
    intro Hn. exact (first_exc_None _ _ Hn Hin'). }
  assert (Herr : forall A B,
             (forall it, In it A -> exists it', In it' B /\ same_item it it') ->
             errs A <> [] -> errs B <> []).
  { intros A B H Hne. destruct (errs_cons _ Hne) as [e He].
    destruct (H _ He) as (it' & Hin' & Hs).
    destruct it' as [| e' | |]; try contradiction. eapply errs_In; eauto. }
  intros A B HAB HBA. unfold dict_outcome.
  destruct (first_exc A) as [e |] eqn:EA.
  - destruct (Hexc A B HAB e EA) as [[m ->] HB].
    destruct (first_exc B) as [e' |] eqn:EB; [| congruence].
    destruct (Hexc B A HBA e' EB) as [[m' ->] _]. exact I.
  - destruct (first_exc B) as [e' |] eqn:EB.
    { destruct (Hexc B A HBA e' EB) as [_ HA]. congruence. }
    destruct (errs A) as [| a la] eqn:EeA.
    + destruct (errs B) as [| b lb] eqn:EeB; [exact I |].
      exfalso. apply (Herr B A HBA); [rewrite EeB; discriminate | exact EeA].
    + destruct (errs B) as [| b lb] eqn:EeB; [| exact I].
      exfalso. apply (Herr A B HAB); [rewrite EeA; discriminate | exact EeB].
Qed.

(** ** [validate_dict] on proper dicts *)

Section validate_dict_alike.

Variable extra : Z.
Variables rk vs : value_schema_t.

Hypothesis Hextra : extra = PREVENT_EXTRA \/ extra = ALLOW_EXTRA.
Hypothesis Hkeeps : forall sk, In sk (map fst vs) -> key_keeps sk = true.
Hypothesis Hlike : forall sk, In sk (map fst vs) -> key_like sk = true.
Hypothesis Hrk : keys_distinct (map fst rk) = true.
Hypothesis Hincl : forall item, In item rk -> In item vs.
Hypothesis Hvs :
  forall f, In f (map snd vs) -> keeps_alike f /\ respects_alike f.

Lemma required_key_like : forall r sv, In (r, sv) rk -> key_like r = true.
Proof.
  intros r sv Hin. apply Hlike. apply in_map_iff. exists (r, sv). auto.
Qed.

Lemma required_validator :
  forall r sv, In (r, sv) rk -> keeps_alike sv /\ respects_alike sv.
Proof.
  intros r sv Hin. apply Hvs. apply in_map_iff. exists (r, sv). auto.
Qed.

Lemma rest_item_out_value :
  forall p seen k v k' v',
    rest_item extra vs p seen (k, v) = ItemOut k' v' ->
    k' = k
    /\ ((exists f, In f (map snd vs) /\ f (p ++ [k])%list v = Ret v') \/ v' = v).
Proof.
  intros p seen k v k' v'. unfold rest_item. simpl.
  destruct (set_mem seen k); [discriminate |].
  destruct (find_key_schema vs k) as [[f key'] |] eqn:Ef.
  - destruct (find_key_schema_keeps _ _ _ _ Hkeeps Ef) as [-> Hf].
    destruct (f (p ++ [k])%list v) as [w | [e | m]] eqn:Efv; simpl; try discriminate.
    intros [= <- <-]. split; [reflexivity |]. left. exists f. auto.
  - destruct (extra =? PREVENT_EXTRA)%Z; [discriminate |].
    destruct (extra =? ALLOW_EXTRA)%Z; [| discriminate].
    intros [= <- <-]. auto.
Qed.

Lemma dict_results_alike :
  forall p p' d d',
    proper (ODict d) = true -> proper (ODict d') = true ->
    alike (ODict d) (ODict d') ->
    forall it, In it (dict_results extra rk vs p d) ->
               exists it', In it' (dict_results extra rk vs p' d') /\ same_item it it'.
Proof.
  intros p p' d d' Hp Hp' Ha it Hin. unfold dict_results in *.
  assert (Hseen : map fst (filter (fun item => dict_mem d (fst item)) rk)
                  = map fst (filter (fun item => dict_mem d' (fst item)) rk)).
  { f_equal. apply filter_ext. intros [r sv]. simpl. apply dict_mem_alike; auto. }
  rewrite <- Hseen. clear Hseen.
  set (seen := map fst (filter (fun item => dict_mem d (fst item)) rk)) in *.
  apply in_app_or in Hin. destruct Hin as [Hin | Hin].
  - apply in_map_iff in Hin. destruct Hin as ([r sv] & <- & Hin).
    exists (required_item p' d' (r, sv)). split.
    { apply in_or_app. left. apply in_map. exact Hin. }
    unfold required_item. simpl.
    pose proof (dict_get_alike d d' r Hp Hp' Ha) as Hget.
    destruct (dict_get d r) as [v |] eqn:E, (dict_get d' r) as [v' |] eqn:E';
      try contradiction; [| exact I].
    apply classify_same. apply same_outcome_class.
    destruct (required_validator _ _ Hin) as [_ Hr]. apply Hr; auto.
    + destruct (dict_get_Some_In _ _ _ E) as (k & Hk & _).
      apply proper_dict in Hp. apply (proj1 Hp _ _ Hk).
    + destruct (dict_get_Some_In _ _ _ E') as (k & Hk & _).
      apply proper_dict in Hp'. apply (proj1 Hp' _ _ Hk).
  - apply in_map_iff in Hin. destruct Hin as ([k v] & <- & Hin).
    pose proof Ha as Ha'. apply alike_dict in Ha'. destruct Ha' as (_ & H1 & _).
    destruct (H1 _ _ Hin) as (k' & v' & Hin' & Hkk' & Hv).
    exists (rest_item extra vs p' seen (k', v')). split.
    { apply in_or_app. right. apply in_map. exact Hin'. }
    apply proper_dict in Hp. destruct Hp as [Hp _].
    apply proper_dict in Hp'. destruct Hp' as [Hp' _].
    destruct (Hp _ _ Hin) as [Hkl Hpv]. destruct (Hp' _ _ Hin') as [Hkl' Hpv'].
    assert (Hsame : forall z, py_eq z k = py_eq z k').
    { intro z. apply (py_eq_same_behaviour k k' Hkl Hkl' Hkk'). }
    unfold rest_item. simpl.
    rewrite <- (set_mem_same seen k k' Hsame).
    destruct (set_mem seen k); [exact I |].
    pose proof (find_key_schema_same vs k k' Hkeeps Hsame) as Hfind.
    destruct (find_key_schema vs k) as [[f key] |] eqn:E,
             (find_key_schema vs k') as [[f' key'] |] eqn:E'; try contradiction.
    + destruct Hfind as (<- & -> & ->).
      apply classify_same. apply same_outcome_class.
      destruct (Hvs f (find_key_schema_In _ _ _ _ E)) as [_ Hr]. apply Hr; auto.
    + destruct (extra =? PREVENT_EXTRA)%Z; [exact I |].
      destruct (extra =? ALLOW_EXTRA)%Z; exact I.
Qed.

Lemma validate_dict_class :
  forall p p' x x',
    proper x = true -> proper x' = true -> alike x x' ->
    same_class (validate_dict extra rk vs p x) (validate_dict extra rk vs p' x').
Proof.
  intros p p' x x' Hp Hp' Ha.
  pose proof (alike_kind _ _ Ha) as Hk.
  destruct x; destruct x'; try contradiction; try discriminate Hk; try exact I.
  rewrite !validate_dict_closed; auto;
    try (apply proper_dict in Hp'; tauto); try (apply proper_dict in Hp; tauto).
  apply dict_outcome_class.
  - apply dict_results_alike; auto.
  - apply dict_results_alike; auto. apply alike_sym; auto.
Qed.

Lemma validate_dict_keeps : keeps_alike (validate_dict extra rk vs).
Proof.
  intros p x y Hp Hy.
  destruct x; try discriminate Hy. rename items into d.
  pose proof Hy as Hdistinct.
  pose proof (proper_dict_keys _ Hp) as Hdk.
  pose proof Hp as Hp0.
  apply proper_dict in Hp. destruct Hp as [Hp Hd].
  rewrite validate_dict_closed in Hy; auto.
  unfold dict_outcome in Hy.
  destruct (first_exc (dict_results extra rk vs p d)) eqn:Eexc; [discriminate |].
  destruct (errs (dict_results extra rk vs p d)) eqn:Eerr; [| discriminate].
  injection Hy as <-.
  apply validate_dict_keys_distinct in Hdistinct.
  set (seen := map fst (filter (fun item => dict_mem d (fst item)) rk)).
  assert (Hall : forall it, In it (dict_results extra rk vs p d) ->
                            (forall e, it <> ItemErr e) /\ (forall e, it <> ItemExc e)).
  { intros it Hin. split; intros e ->.
    - exact (errs_nil _ _ Eerr Hin).
    - exact (first_exc_None _ _ Eexc Hin). }
  assert (Freq : forall r sv,
             In (r, sv) rk ->
             exists v v', dict_get d r = Some v /\ sv (p ++ [r])%list v = Ret v'
                          /\ In (r, v') (outs (dict_results extra rk vs p d))).
  { intros r sv Hin.
    assert (Hit : In (required_item p d (r, sv)) (dict_results extra rk vs p d)).
    { apply in_or_app. left. apply in_map. exact Hin. }
    pose proof (Hall _ Hit) as [Hne Hnx].
    unfold required_item in *. simpl in *.
    destruct (dict_get d r) as [v |] eqn:Eget; [| exfalso; eapply Hne; reflexivity].
    destruct (sv (p ++ [r])%list v) as [v' | [e | m]] eqn:Esv; simpl in *.
    - exists v, v'. split; [reflexivity |]. split; [exact Esv |].
      apply In_outs. exact Hit.
    - exfalso; eapply Hne; reflexivity.
    - exfalso; eapply Hnx; reflexivity. }
  assert (Frest : forall k v,
             In (k, v) d -> set_mem seen k = false ->
             exists v', In (k, v') (outs (dict_results extra rk vs p d))
                        /\ alike v v' /\ proper v' = true).
  { intros k v Hin Hs.
    assert (Hit : In (rest_item extra vs p seen (k, v)) (dict_results extra rk vs p d)).
    { apply in_or_app. right. apply in_map. exact Hin. }
    pose proof (Hall _ Hit) as [Hne Hnx].
    destruct (Hp _ _ Hin) as [Hkl Hpv].
    unfold rest_item in *. simpl in *. rewrite Hs in *.
    destruct (find_key_schema vs k) as [[f key'] |] eqn:Ef.
    - destruct (find_key_schema_keeps _ _ _ _ Hkeeps Ef) as [-> Hf].
      destruct (Hvs f Hf) as [Hfk _].
      destruct (f (p ++ [k])%list v) as [v' | [e | m]] eqn:Efv; simpl in *.
      + destruct (Hfk _ _ _ Hpv Efv). exists v'. rewrite In_outs. auto.
      + exfalso; eapply Hne; reflexivity.
      + exfalso; eapply Hnx; reflexivity.
    - destruct (extra =? PREVENT_EXTRA)%Z eqn:E1; [exfalso; eapply Hne; reflexivity |].
      destruct (extra =? ALLOW_EXTRA)%Z eqn:E2.
      + exists v. rewrite In_outs. split; [exact Hit |]. split; [apply alike_refl | exact Hpv].
      + exfalso. destruct Hextra as [-> | ->]; discriminate. }
  assert (Fout : forall k' v',
             In (k', v') (outs (dict_results extra rk vs p d)) ->
             (exists k v, In (k, v) d /\ py_eq k k' = true /\ alike v v')
             /\ key_like k' = true /\ proper v' = true).
  { intros k' v' Hin. apply In_outs in Hin. apply in_app_or in Hin.
    destruct Hin as [Hin | Hin].
    - apply in_map_iff in Hin. destruct Hin as ([r sv] & Hit & Hin).
      unfold required_item in Hit. simpl in Hit.
      destruct (dict_get d r) as [v |] eqn:Eget; [| discriminate].
      destruct (sv (p ++ [r])%list v) as [w | [e | m]] eqn:Esv; try discriminate.
      simpl in Hit. injection Hit as <- <-.
      destruct (dict_get_Some_In _ _ _ Eget) as (k & Hk & Hkr).
      destruct (Hp _ _ Hk) as [_ Hpv].
      destruct (required_validator _ _ Hin) as [Hsk _].
      destruct (Hsk _ _ _ Hpv Esv) as [Hal Hpw].
      split; [exists k, v; auto |]. split; [eapply required_key_like; eauto | exact Hpw].
    - apply in_map_iff in Hin. destruct Hin as ([k v] & Hit & Hin).
      destruct (Hp _ _ Hin) as [Hkl Hpv].
      destruct (rest_item_out_value _ _ _ _ _ _ Hit) as (-> & [(f & Hf & Hfv) | ->]).
      + destruct (Hvs f Hf) as [Hfk _]. destruct (Hfk _ _ _ Hpv Hfv) as [Hal Hpw].
        split; [exists k, v; repeat split; auto; apply py_eq_refl |]. auto.
      + split; [exists k, v; repeat split; auto using py_eq_refl, alike_refl |]. auto. }
  assert (Fin : forall k v,
             In (k, v) d ->
             exists k' v', In (k', v') (outs (dict_results extra rk vs p d))
                           /\ py_eq k k' = true /\ alike v v').
  { intros k v Hin. destruct (set_mem seen k) eqn:Hs.
    - unfold set_mem in Hs. apply existsb_exists in Hs. destruct Hs as (r & Hr & Hrk').
      unfold seen in Hr. apply in_map_iff in Hr. destruct Hr as ([r0 sv] & <- & Hr).
      apply filter_In in Hr. destruct Hr as [Hr _]. simpl in Hrk'.
      destruct (Freq _ _ Hr) as (v0 & v' & Hget & Hsv & Hout).
      assert (Hkr : py_eq k r0 = true).
      { rewrite <- (py_eq_sym r0 k (key_like_set_free _ (required_key_like _ _ Hr))).
        exact Hrk'. }
      rewrite (dict_get_In d k v r0 Hd Hdk Hin Hkr) in Hget. injection Hget as <-.
      destruct (Hp _ _ Hin) as [_ Hpv].
      destruct (required_validator _ _ Hr) as [Hsk _].
      destruct (Hsk _ _ _ Hpv Hsv) as [Hal _].
      exists r0, v'. auto.
    - destruct (Frest _ _ Hin Hs) as (v' & Hout & Hal & _).
      exists k, v'. repeat split; auto. apply py_eq_refl. }
  assert (Hlk : forallb key_like (map fst (outs (dict_results extra rk vs p d))) = true).
  { apply forallb_forall. intros k Hk. apply in_map_iff in Hk.
    destruct Hk as ([k0 v0] & <- & Hk). apply (Fout _ _ Hk). }
  split.
  - apply alike_dict. split; [| split].
    + rewrite <- (length_map fst d), <- (length_map fst (outs _)).
      apply matching_keys_length; auto.
      * intros a Ha. apply in_map_iff in Ha. destruct Ha as ([k v] & <- & Hin).
        destruct (Fin _ _ Hin) as (k' & v' & Hout & Hk & _).
        exists k'. split; [apply in_map_iff; exists (k', v'); auto | exact Hk].
      * intros b Hb. apply in_map_iff in Hb. destruct Hb as ([k' v'] & <- & Hout).
        destruct (Fout _ _ Hout) as [(k & v & Hin & Hk & _) _].
        exists k. split; [apply in_map_iff; exists (k, v); auto | exact Hk].
    + exact Fin.
    + intros k' v' Hout. apply (Fout _ _ Hout).
  - apply proper_dict. split; [| exact Hdistinct].
    intros k v Hout. apply (Fout _ _ Hout).
Qed.

End validate_dict_alike.

(** ** The validators keep alike what they accept *)

Lemma respects_of_class :
  forall f,
    keeps_alike f ->
    (forall p p' x x', proper x = true -> proper x' = true -> alike x x' ->
                       same_class (f p x) (f p' x')) ->
    respects_alike f.
Proof.
  intros f Hk Hc p p' x x' Hp Hp' Ha.
  specialize (Hc p p' x x' Hp Hp' Ha). unfold same_outcome.
  destruct (f p x) as [y | [e | m]] eqn:E, (f p' x') as [y' | [e' | m']] eqn:E';
    simpl in Hc; try contradiction; auto.
  destruct (Hk _ _ _ Hp E) as [Hxy Hpy]. destruct (Hk _ _ _ Hp' E') as [Hxy' _].
  apply (alike_trans y x' y' Hpy); [| exact Hxy'].
  apply (alike_trans y x x' Hpy); [| exact Ha].
  apply alike_sym; auto.
Qed.

Lemma alike_isinstance :
  forall x x' c, alike x x' -> isinstance x c = isinstance x' c.
Proof.
  intros x x' c Ha. pose proof (alike_kind _ _ Ha) as Hk.
  destruct x; destruct x'; try contradiction; try discriminate Hk;
    try (injection Hk as <-); try reflexivity; try (rewrite Hk; reflexivity);
    try (inversion Hk; subst; reflexivity).
Qed.

Lemma alike_elements :
  forall x x',
    proper x = true -> proper x' = true -> alike x x' ->
    Forall2 alike (elements x) (elements x')
    /\ Forall (fun v => proper v = true) (elements x)
    /\ Forall (fun v => proper v = true) (elements x').
Proof.
  intros x x' Hp Hp' Ha. pose proof (alike_kind _ _ Ha) as Hk.
  destruct x; destruct x'; try contradiction; try discriminate Hk;
    try (simpl; repeat split; constructor; fail).
  - apply alike_list in Ha. repeat split; auto using proper_list.
  - apply alike_tuple in Ha. repeat split; auto using proper_tuple.
  - injection Hk as ->. simpl in *.
    apply andb_true_iff in Hp. destruct Hp as [Hp _]. rewrite forallb_forall in Hp.
    assert (Hall : Forall (fun v => proper v = true) l).
    { apply Forall_forall. intros v Hv. apply key_like_proper. auto. }
    repeat split; auto.
    clear. induction l; constructor; auto using alike_refl.
Qed.

Lemma validate_value_keeps : forall s, keeps_alike (validate_value s).
Proof.
  intros s p x y Hp H. unfold validate_value in H.
  destruct (negb (py_eq x s)); [discriminate |]. injection H as <-.
  split; [apply alike_refl | exact Hp].
Qed.

Lemma validate_value_class :
  forall s p p' x x',
    match s with
    | ONone | OUndefined | OBool _ | OInt _ | OFloat _ | OStr _ => True
    | _ => False
    end ->
    alike x x' ->
    same_class (validate_value s p x) (validate_value s p' x').
Proof.
  intros s p p' x x' Hs Ha. pose proof (alike_kind _ _ Ha) as Hk.
  assert (Hcase : x' = x
                  \/ (py_eq x s = false /\ py_eq x' s = false)).
  { destruct x; destruct x'; try contradiction; try discriminate Hk; auto;
      right; destruct s; try contradiction; split; reflexivity. }
  unfold validate_value. destruct Hcase as [-> | [-> ->]].
  - destruct (negb (py_eq x s)); exact I.
  - exact I.
Qed.

Lemma validate_instance_keeps : forall c, keeps_alike (validate_instance c).
Proof.
  intros c p x y Hp H. unfold validate_instance in H.
  destruct (isinstance x c); [| discriminate]. injection H as <-.
  split; [apply alike_refl | exact Hp].
Qed.

Lemma validate_instance_class :
  forall c p p' x x',
    alike x x' -> same_class (validate_instance c p x) (validate_instance c p' x').
Proof.
  intros c p p' x x' Ha. unfold validate_instance.
  rewrite <- (alike_isinstance x x' c Ha). destruct (isinstance x c); exact I.
Qed.

(** [Schema.__call__] and a marker's call return what the compiled
    validator returns, and raise an exception of the same class. *)
Lemma Schema_call_compiled_class :
  forall c x,
    match c [] x with
    | Ret y => Schema_call_compiled c x = Ret y
    | Raise (EInvalid _) => exists e, Schema_call_compiled c x = Raise (EInvalid e)
    | Raise (ESchemaError m) => Schema_call_compiled c x = Raise (ESchemaError m)
    end.
Proof.
  intros c x. unfold Schema_call_compiled.
  destruct (c [] x) as [y | [e | m]]; auto.
  destruct (is_MultipleInvalid e); eauto.
Qed.

Lemma Marker_validator_class :
  forall msg c p x,
    match c [] x with
    | Ret y => validate_callable (Marker_call msg c) p x = Ret y
    | Raise (EInvalid _) =>
        exists e, validate_callable (Marker_call msg c) p x = Raise (EInvalid e)
    | Raise (ESchemaError m) =>
        validate_callable (Marker_call msg c) p x = Raise (ESchemaError m)
    end.
Proof.
  intros msg c p x. unfold validate_callable, Marker_call.
  pose proof (Schema_call_compiled_class c x) as H.
  destruct (c [] x) as [y | [e | m]].
  - rewrite H. reflexivity.
  - destruct H as [e' ->].
    destruct (msg_falsy msg || (1 <? List.length (inv_path e'))%nat);
      unfold raise_Invalid; eauto.
  - rewrite H. reflexivity.
Qed.

Lemma Marker_validator_keeps :
  forall msg c, keeps_alike c -> keeps_alike (validate_callable (Marker_call msg c)).
Proof.
  intros msg c Hc p x y Hp H.
  pose proof (Marker_validator_class msg c p x) as Hm.
  destruct (c [] x) as [y' | [e | m]] eqn:E.
  - rewrite Hm in H. injection H as <-. apply (Hc _ _ _ Hp E).
  - destruct Hm as [e' Hm]. congruence.
  - congruence.
Qed.

Lemma Marker_validator_respects :
  forall msg c,
    keeps_alike c -> respects_alike c ->
    respects_alike (validate_callable (Marker_call msg c)).
Proof.
  intros msg c Hk Hr. apply respects_of_class; [apply Marker_validator_keeps; exact Hk |].
  intros p p' x x' Hp Hp' Ha.
  pose proof (Marker_validator_class msg c p x) as Hm.
  pose proof (Marker_validator_class msg c p' x') as Hm'.
  pose proof (Hr [] [] x x' Hp Hp' Ha) as Hs.
  destruct (c [] x) as [y | [e | m]], (c [] x') as [y' | [e' | m']];
    simpl in Hs; try contradiction.
  - rewrite Hm, Hm'. exact I.
  - destruct Hm as [e1 ->], Hm' as [e2 ->]. exact I.
  - rewrite Hm, Hm'. exact I.
Qed.

(** ** Sequences *)

Lemma try_validators_keeps :
  forall validators p x y,
    Forall keeps_alike validators ->
    proper x = true ->
    try_validators validators p x = Some (Ret y) ->
    alike x y /\ proper y = true.
Proof.
  induction validators as [| f validators IH]; simpl; intros p x y Hall Hp H;
    [discriminate |].
  inversion Hall as [| ? ? Hf Hrest]; subst.
  destruct (f p x) as [v | [e | m]] eqn:E.
  - injection H as <-. apply (Hf _ _ _ Hp E).
  - eapply IH; eauto.
  - discriminate.
Qed.

Lemma try_validators_class :
  forall validators p p' x x',
    Forall respects_alike validators ->
    proper x = true -> proper x' = true -> alike x x' ->
    match try_validators validators p x, try_validators validators p' x' with
    | None, None => True
    | Some r, Some r' => same_class r r'
    | _, _ => False
    end.
Proof.
  induction validators as [| f validators IH]; simpl; intros p p' x x' Hall Hp Hp' Ha;
    [exact I |].
  inversion Hall as [| ? ? Hf Hrest]; subst.
  pose proof (same_outcome_class _ _ (Hf p p' x x' Hp Hp' Ha)) as Hs.
  destruct (f p x) as [v | [e | m]], (f p' x') as [v' | [e' | m']];
    simpl in Hs; try contradiction; try exact I.
  apply IH; auto.
Qed.

Lemma sequence_loop_keeps :
  forall validators p data i result result',
    Forall keeps_alike validators ->
    Forall (fun v => proper v = true) data ->
    sequence_loop validators p i data result = inr result' ->
    exists ys, result' = (result ++ ys)%list
               /\ Forall2 alike data ys
               /\ Forall (fun v => proper v = true) ys.
Proof.
  intros validators p. induction data as [| x data IH]; simpl;
    intros i result result' Hall Hp H.
  - injection H as <-. exists []. rewrite app_nil_r. auto.
  - inversion Hp as [| ? ? Hx Hdata]; subst.
    destruct (try_validators validators (OInt i :: p) x) as [[v | e] |] eqn:E;
      try discriminate.
    destruct (try_validators_keeps _ _ _ _ Hall Hx E) as [Hxv Hpv].
    destruct (IH _ _ _ Hall Hdata H) as (ys & -> & Hys & Hpys).
    exists (v :: ys). rewrite <- app_assoc. auto.
Qed.

Lemma sequence_loop_class :
  forall validators p p' data data',
    Forall respects_alike validators ->
    Forall2 alike data data' ->
    Forall (fun v => proper v = true) data ->
    Forall (fun v => proper v = true) data' ->
    forall i i' result result',
      match sequence_loop validators p i data result,
            sequence_loop validators p' i' data' result' with
      | inr _, inr _ => True
      | inl (EInvalid _), inl (EInvalid _) => True
      | inl (ESchemaError _), inl (ESchemaError _) => True
      | _, _ => False
      end.
Proof.
  intros validators p p' data data' Hall Ha.
  induction Ha as [| x x' data data' Hx _ IH]; simpl; intros Hp Hp' i i' result result';
    [exact I |].
  inversion Hp as [| ? ? Hpx Hpd]; inversion Hp' as [| ? ? Hpx' Hpd']; subst.
  pose proof (try_validators_class validators (OInt i :: p) (OInt i' :: p') x x'
                Hall Hpx Hpx' Hx) as Ht.
  destruct (try_validators validators (OInt i :: p) x) as [[v | [e | m]] |],
           (try_validators validators (OInt i' :: p') x') as [[v' | [e' | m']] |];
    simpl in Ht; try contradiction; try exact I.
  apply IH; auto.
Qed.

Lemma validate_sequence_class :
  forall validators seq_type p p' x x',
    Forall respects_alike validators ->
    proper x = true -> proper x' = true -> alike x x' ->
    same_class (validate_sequence validators seq_type p x)
               (validate_sequence validators seq_type p' x').
Proof.
  intros validators seq_type p p' x x' Hall Hp Hp' Ha.
  unfold validate_sequence. rewrite <- (alike_isinstance x x' seq_type Ha).
  destruct (isinstance x seq_type); [| exact I]. simpl.
  destruct (alike_elements x x' Hp Hp' Ha) as (He & Hpe & Hpe').
  pose proof (sequence_loop_class validators p p' _ _ Hall He Hpe Hpe' 0%Z 0%Z [] [])
    as Hl.
  assert (Hs : same_class
                 match sequence_loop validators p 0 (elements x) [] with
                 | inl e => Raise e
                 | inr result => Ret (make_seq seq_type result)
                 end
                 match sequence_loop validators p' 0 (elements x') [] with
                 | inl e => Raise e
                 | inr result => Ret (make_seq seq_type result)
                 end).
  { destruct (sequence_loop validators p 0 (elements x) []) as [[e | m] | r],
             (sequence_loop validators p' 0 (elements x') []) as [[e' | m'] | r'];
      simpl in *; auto. }
  destruct validators as [| f validators]; [| exact Hs].
  clear Hl Hpe Hpe'. revert Hs. destruct He; intro Hs; [exact Hs | exact I].
Qed.

Lemma validate_sequence_keeps :
  forall validators seq_type,
    seq_type = CList \/ seq_type = CTuple \/ seq_type = CSet ->
    Forall keeps_alike validators ->
    keeps_alike (validate_sequence validators seq_type).
Proof.
  intros validators seq_type Hseq Hall p x y Hp H.
  unfold validate_sequence in H.
  destruct (isinstance x seq_type) eqn:Ei; [| discriminate]. simpl in H.
  destruct (alike_elements x x Hp Hp (alike_refl x)) as (_ & Hpe & _).
  assert (Hloop : exists result,
             sequence_loop validators p 0 (elements x) [] = inr result
             /\ y = make_seq seq_type result).
  { destruct validators as [| f validators]; [destruct (elements x); [| discriminate] |];
      match type of H with
      | match ?l with _ => _ end = _ =>
          destruct l as [e | result] eqn:El; [discriminate |];
          injection H as <-; exists result; auto
      end. }
  destruct Hloop as (result & Hloop & ->).
  destruct (sequence_loop_keeps _ _ _ _ _ _ Hall Hpe Hloop) as (ys & -> & Hys & Hpys).
  simpl in *.
  destruct Hseq as [-> | [-> | ->]]; destruct x; try discriminate Ei; simpl in *.
  - split; [apply alike_list; exact Hys |].
    apply forallb_forall. rewrite Forall_forall in Hpys. exact Hpys.
  - split; [apply alike_tuple; exact Hys |].
    apply forallb_forall. rewrite Forall_forall in Hpys. exact Hpys.
  - apply andb_true_iff in Hp. destruct Hp as [Hkl Hd].
    assert (ys = l).
    { clear - Hys Hkl. induction Hys as [| a b l ys Hab _ IH]; [reflexivity |].
      simpl in Hkl. apply andb_true_iff in Hkl. destruct Hkl as [Ha Hl].
      f_equal; auto. apply alike_key_like; auto. }
    subst ys. rewrite (mk_set_distinct l Hd). simpl. rewrite Hkl, Hd. auto.
Qed.

(** ** The keys of a compiled mapping *)

Lemma keys_distinct_NoDup : forall l, keys_distinct l = true -> NoDup l.
Proof.
  induction l as [| x l IH]; simpl; intro H; constructor.
  - apply andb_true_iff in H. destruct H as [H _]. rewrite forallb_forall in H.
    intro Hin. specialize (H x Hin). rewrite py_eq_refl in H. discriminate.
  - apply IH. apply andb_true_iff in H. tauto.
Qed.

Lemma keys_distinct_of_unique :
  forall l,
    NoDup l ->
    (forall a b, In a l -> In b l -> py_eq a b = true -> a = b) ->
    keys_distinct l = true.
Proof.
  induction l as [| x l IH]; simpl; intros Hn Hu; [reflexivity |].
  inversion Hn as [| ? ? Hx Hl]; subst. apply andb_true_iff. split.
  - apply forallb_forall. intros k Hk. apply negb_true_iff.
    destruct (py_eq x k) eqn:E; [| reflexivity].
    exfalso. apply Hx. rewrite (Hu x k); auto.
  - apply IH; auto.
Qed.

Lemma keys_distinct_sub :
  forall l l',
    keys_distinct l = true -> forallb key_like l = true ->
    NoDup l' -> (forall k, In k l' -> In k l) ->
    keys_distinct l' = true.
Proof.
  intros l l' Hd Hk Hn Hincl. apply keys_distinct_of_unique; [exact Hn |].
  intros a b Ha Hb. apply (keys_distinct_In l); auto.
Qed.

Lemma map_fst_filter :
  forall (A : Type) (f : obj -> bool) (l : list (obj * A)),
    map fst (filter (fun item => f (fst item)) l) = filter f (map fst l).
Proof.
  induction l as [| [k v] l IH]; simpl; [reflexivity |].
  destruct (f k); simpl; rewrite IH; reflexivity.
Qed.

Lemma candidates_keys :
  forall (f : obj -> validator) items k,
    In k (map fst (_iterate_mapping_candidates
                     (map (fun '(key, value) => (key, f value) : obj * validator) items)))
    <-> In k (map fst items).
Proof.
  intros f items k. unfold _iterate_mapping_candidates.
  rewrite <- (map_fst_compiled f items).
  split; apply Permutation_in; [| symmetry]; apply Permutation_map; apply sorted_perm.
Qed.

Lemma candidates_validators :
  forall (f : obj -> validator) items g,
    In g (map snd (_iterate_mapping_candidates
                     (map (fun '(key, value) => (key, f value) : obj * validator) items))) ->
    exists key value, In (key, value) items /\ g = f value.
Proof.
  intros f items g Hg. unfold _iterate_mapping_candidates in Hg.
  apply (Permutation_in g (Permutation_map snd (sorted_perm _ _ _ _ _))) in Hg.
  rewrite map_map in Hg. apply in_map_iff in Hg.
  destruct Hg as ([key value] & <- & Hin). exists key, value. auto.
Qed.

Lemma required_keys_distinct :
  forall (f : obj -> validator) items,
    keys_distinct (map fst items) = true ->
    forallb key_like (map fst items) = true ->
    keys_distinct
      (map fst (filter (fun item => is_Required (fst item))
                  (_iterate_mapping_candidates
                     (map (fun '(key, value) => (key, f value) : obj * validator)
                        items)))) = true.
Proof.
  intros f items Hd Hk. rewrite map_fst_filter.
  apply (keys_distinct_sub (map fst items)); auto.
  - apply NoDup_filter.
    apply (Permutation_NoDup
             (l := map fst (map (fun '(key, value) => (key, f value) : obj * validator)
                              items))).
    + symmetry. apply Permutation_map. apply sorted_perm.
    + rewrite (map_fst_compiled f items). apply keys_distinct_NoDup. exact Hd.
  - intros k Hin. apply filter_In in Hin. apply (candidates_keys f items). tauto.
Qed.

(** ** [Schema._compile] *)

Lemma run_inr : forall f, run (inr f) = f.
Proof. reflexivity. Qed.

Lemma _compile_alike :
  forall s,
    no_coercion s = true -> proper s = true ->
    forall extra,
      extra = PREVENT_EXTRA \/ extra = ALLOW_EXTRA ->
      keeps_alike (run (_compile extra s)) /\ respects_alike (run (_compile extra s)).
Proof.
  assert (Hseq : forall l,
             Forall (fun s => no_coercion s = true -> proper s = true ->
                              forall extra,
                                extra = PREVENT_EXTRA \/ extra = ALLOW_EXTRA ->
                                keeps_alike (run (_compile extra s))
                                /\ respects_alike (run (_compile extra s))) l ->
             forallb no_coercion l = true ->
             (forall s, In s l -> proper s = true) ->
             forall extra,
               extra = PREVENT_EXTRA \/ extra = ALLOW_EXTRA ->
               Forall keeps_alike (map (fun s => run (_compile extra s)) l)
               /\ Forall respects_alike (map (fun s => run (_compile extra s)) l)).
  { intros l IH Hc Hp extra Hextra. rewrite forallb_forall in Hc.
    rewrite Forall_forall in IH.
    split; apply Forall_forall; intros g Hg; apply in_map_iff in Hg;
      destruct Hg as (s & <- & Hs); apply (IH s Hs); auto. }
  assert (Hscalar : forall s,
             match s with
             | ONone | OUndefined | OBool _ | OInt _ | OFloat _ | OStr _ => True
             | _ => False
             end ->
             keeps_alike (validate_value s) /\ respects_alike (validate_value s)).
  { intros s Hs. split; [apply validate_value_keeps |].
    apply respects_of_class; [apply validate_value_keeps |].
    intros p p' x x' _ _ Ha. apply validate_value_class; auto. }
  assert (Hsequence : forall validators seq_type,
             seq_type = CList \/ seq_type = CTuple \/ seq_type = CSet ->
             Forall keeps_alike validators /\ Forall respects_alike validators ->
             keeps_alike (validate_sequence validators seq_type)
             /\ respects_alike (validate_sequence validators seq_type)).
  { intros validators seq_type Hst [Hk Hr].
    pose proof (validate_sequence_keeps validators seq_type Hst Hk) as Hks.
    split; [exact Hks |]. apply respects_of_class; [exact Hks |].
    intros p p' x x' Hp Hp' Ha. apply validate_sequence_class; auto. }
  induction s using obj_induction; intros Hc Hp extra Hextra;
    try (simpl; rewrite run_inr; apply Hscalar; exact I).
  - (* list *)
    simpl. rewrite run_inr. apply Hsequence; auto. apply Hseq; auto.
    simpl in Hp. rewrite forallb_forall in Hp. exact Hp.
  - (* tuple *)
    simpl. rewrite run_inr. apply Hsequence; auto. apply Hseq; auto.
    simpl in Hp. rewrite forallb_forall in Hp. exact Hp.
  - (* set *)
    simpl. rewrite run_inr. apply Hsequence; auto. apply Hseq; auto.
    simpl in Hp. apply andb_true_iff in Hp. destruct Hp as [Hp _].
    rewrite forallb_forall in Hp. intros s Hs. apply key_like_proper. auto.
  - (* dict *)
    pose proof (proper_dict_keys _ Hp) as Hkl.
    apply proper_dict in Hp. destruct Hp as [Hp Hd].
    simpl in Hc. rewrite forallb_forall in Hc. rewrite Forall_forall in H.
    simpl. unfold _compile_mapping.
    set (schema_items := map (fun '(key, value) => (key, run (_compile extra value)))
                           items).
    destruct (negb _).
    { split; [intros p x y _ Hy; discriminate Hy |].
      intros p p' x x' _ _ _. exact I. }
    rewrite run_inr.
    assert (Hkeeps : forall sk,
               In sk (map fst (_iterate_mapping_candidates schema_items)) ->
               key_keeps sk = true).
    { intros sk Hsk. apply candidates_keys in Hsk. apply in_map_iff in Hsk.
      destruct Hsk as ([k v] & <- & Hin). specialize (Hc _ Hin). simpl in Hc.
      apply andb_true_iff in Hc. destruct Hc as [Hc _].
      apply andb_true_iff in Hc. tauto. }
    assert (Hlike : forall sk,
               In sk (map fst (_iterate_mapping_candidates schema_items)) ->
               key_like sk = true).
    { intros sk Hsk. apply candidates_keys in Hsk.
      rewrite forallb_forall in Hkl. auto. }
    assert (Hrk : keys_distinct
                    (map fst (filter (fun item => is_Required (fst item))
                                (_iterate_mapping_candidates schema_items))) = true).
    { apply required_keys_distinct; auto. }
    assert (Hincl : forall item,
               In item (filter (fun item => is_Required (fst item))
                          (_iterate_mapping_candidates schema_items)) ->
               In item (_iterate_mapping_candidates schema_items)).
    { intros item Hin. apply filter_In in Hin. tauto. }
    assert (Hvs : forall g,
               In g (map snd (_iterate_mapping_candidates schema_items)) ->
               keeps_alike g /\ respects_alike g).
    { intros g Hg. apply candidates_validators in Hg.
      destruct Hg as (k & v & Hin & ->).
      specialize (Hc _ Hin). simpl in Hc. apply andb_true_iff in Hc.
      destruct (H _ Hin) as [_ IHv]. apply IHv; [tauto | | exact Hextra].
      apply (Hp _ _ Hin). }
    assert (Hk : keeps_alike
                   (validate_dict extra
                      (filter (fun item => is_Required (fst item))
                         (_iterate_mapping_candidates schema_items))
                      (_iterate_mapping_candidates schema_items))).
    { apply validate_dict_keeps; auto. }
    split; [exact Hk |]. apply respects_of_class; [exact Hk |].
    intros p p' x x' Hpx Hpx' Ha.
    apply validate_dict_class; auto.
  - (* class *)
    simpl. rewrite run_inr. split; [apply validate_instance_keeps |].
    apply respects_of_class; [apply validate_instance_keeps |].
    intros p p' x x' _ _ Ha. apply validate_instance_class; auto.
  - (* Extra *)
    discriminate Hc.
  - (* marker *)
    destruct k; try discriminate Hc; simpl in *; rewrite run_inr;
      (destruct (IHs1 Hc Hp PREVENT_EXTRA (or_introl eq_refl)) as [Hk Hr];
       split; [apply Marker_validator_keeps; exact Hk
              | apply Marker_validator_respects; assumption]).
Qed.

(** ** Idempotence *)



